(** * DOLFINX: lazily built mesh topology and scalar assembly

    A shallow embedding of [cpp/dolfinx/mesh/Mesh.cpp], of
    [cpp/dolfinx/fem/assemble_scalar_impl.h] and of
    [cpp/dolfinx/function/FunctionSpace.cpp].

    Conventions of the embedding.
    - [int] and [std::int32_t] values are array sizes and subscripts; they are
      modelled as [Z].  The entity count that [Mesh::num_entities] returns is
      the sum of two [std::int32_t] counts: it is taken in [std::int32_t],
      where a sum beyond the largest value wraps around.
    - A C++ function that can throw, trip an [assert] or read outside an array
      returns an [exn] in the left summand.  [assert] is modelled as enabled.
    - Code that mutates the mesh topology through [const] handles, or calls a
      kernel, runs in the state-and-failure monad [M]: the state holds the mesh
      and the log of kernel invocations made so far.
    - A pointer the code owns and asserts before use (the mesh of a form, the
      topology and the geometry of a mesh) is the value it points to; a
      pointer that stands for "not computed yet" (a connectivity, an index
      map) is an [option].
    - The scalar type [T] of the form and the coordinate type [double] stay
      abstract; the assembler only moves such values around and adds them.
    - [assemble_scalar_impl.h] reaches [create_entities],
      [create_connectivity] and [create_entity_permutations] through
      [mesh.topology_mutable()]; they are embedded from [Mesh.cpp], where the
      sources define them. *)

From Stdlib Require Import ZArith.
From Stdlib Require PrimFloat.
From stdpp Require Import base option list list_numbers sorting gmap strings pretty.

Local Open Scope Z_scope.

(** ** Failures *)

Inductive exn : Type :=
  | runtime_error (what : string)  (* throw std::runtime_error(what) *)
  | assertion_failed (expr : string)  (* assert(expr) does not hold: abort *)
  | undefined_behaviour.  (* subscript outside an array, null dereference *)

Global Instance exn_eq_dec : EqDecision exn.
Proof. solve_decision. Defined.

Definition result (A : Type) : Type := exn + A.

Global Instance result_ret : MRet result := λ A a, inr a.
Global Instance result_bind : MBind result := λ A B f r,
  match r with inl e => inl e | inr a => f a end.
Global Instance result_fmap : FMap result := λ A B f r,
  match r with inl e => inl e | inr a => inr (f a) end.

Definition raise {A} (e : exn) : result A := inl e.

Definition check (b : bool) (expr : string) : result unit :=
  if b then inr () else inl (assertion_failed expr).

Definition defined {A} (o : option A) : result A :=
  match o with Some a => inr a | None => inl undefined_behaviour end.

Definition is_ok {A} (r : result A) : Prop := ∃ a, r = inr a.

(** ** Computations that change the state *)

Definition M (S A : Type) : Type := S → result A * S.

Global Instance M_ret {S} : MRet (M S) := λ A a s, (inr a, s).
Global Instance M_bind {S} : MBind (M S) := λ A B f m s,
  match m s with
  | (inl e, s') => (inl e, s')
  | (inr a, s') => f a s'
  end.

Definition lift {S A} (r : result A) : M S A := λ s, (r, s).
Definition get {S} : M S S := λ s, (inr s, s).
Definition modify {S} (f : S → S) : M S unit := λ s, (inr (), f s).

(** [for (x : l) body], threading an accumulator; a failure leaves the loop. *)
Fixpoint foldM {S A B} (body : B → A → M S B) (b : B) (l : list A) : M S B :=
  match l with
  | [] => mret b
  | x :: l' => b' ← body b x; foldM body b' l'
  end.

Fixpoint fold_result {A B} (body : B → A → result B) (b : B) (l : list A)
  : result B :=
  match l with
  | [] => mret b
  | x :: l' => b' ← body b x; fold_result body b' l'
  end.

Fixpoint map_result {A B} (f : A → result B) (l : list A) : result (list B) :=
  match l with
  | [] => mret []
  | x :: l' => y ← f x; k ← map_result f l'; mret (y :: k)
  end.

(** ** Integers *)

(** A value held in a [std::int32_t]: the integer of the range from
    [- 2 ^ 31] to [2 ^ 31 - 1] that differs from [z] by a multiple of
    [2 ^ 32]. *)
Definition int32_t (z : Z) : Z := (z + 2 ^ 31) mod 2 ^ 32 - 2 ^ 31.

(** ** Arrays *)

(** [v[i]] for a [std::vector] or an Eigen array: defined inside the array. *)
Definition at_ {A} (v : list A) (i : Z) : result A :=
  if decide (0 ≤ i) then defined (v !! Z.to_nat i) else inl undefined_behaviour.

(** [v.segment(start, n)] read. *)
Definition segment {A} (v : list A) (start n : Z) : result (list A) :=
  if decide (0 ≤ start ∧ 0 ≤ n ∧ start + n ≤ Z.of_nat (length v))
  then inr (take (Z.to_nat n) (drop (Z.to_nat start) v))
  else inl undefined_behaviour.

(** [v.segment(start, src.size()) = src]. *)
Definition set_segment {A} (v : list A) (start : Z) (src : list A)
  : result (list A) :=
  if decide (0 ≤ start ∧ start + Z.of_nat (length src) ≤ Z.of_nat (length v))
  then inr (take (Z.to_nat start) v ++ src
            ++ drop (Z.to_nat start + length src) v)
  else inl undefined_behaviour.

(** [v.head(n)]. *)
Definition head_ {A} (v : list A) (n : Z) : result (list A) := segment v 0 n.

(** [Eigen::Array<..., Dynamic, Dynamic> a(rows, cols)]: the sizes are not
    negative. *)
Definition allocate (rows cols : Z) : result unit :=
  if decide (0 ≤ rows ∧ 0 ≤ cols) then inr () else inl undefined_behaviour.

(** A dense row-major two-dimensional Eigen array. *)
Record Array2 (A : Type) : Type := mkArray2 {
  cols : Z;
  rows : list (list A)
}.
Global Arguments mkArray2 {A}.
Global Arguments cols {A}.
Global Arguments rows {A}.

(** [a.row(i)] and [a(i, j)]. *)
Definition row {A} (a : Array2 A) (i : Z) : result (list A) := at_ (rows a) i.
Definition at2 {A} (a : list (list A)) (i j : Z) : result A :=
  r ← at_ a i; at_ r j.

(** [std::find(first, last, x)] as the distance from [first]: the position
    of the first occurrence, or the length when there is none. *)
Fixpoint std_find (l : list Z) (x : Z) : Z :=
  match l with
  | [] => 0
  | y :: l' => if decide (y = x) then 0 else 1 + std_find l' x
  end.

(** ** Data model *)

(** Modelled from the spec: [graph::AdjacencyList] (its header is not among
    the sources): node [i] of a contiguous domain maps to its ordered links. *)
Definition AdjacencyList : Type := list (list Z).

Definition links (g : AdjacencyList) (node : Z) : result (list Z) := at_ g node.
Definition num_links (g : AdjacencyList) (node : Z) : result Z :=
  l ← links g node; mret (Z.of_nat (length l)).

(** Modelled from the spec: [common::IndexMap], consumed only. *)
Record IndexMap : Type := mkIndexMap {
  size_local : Z;
  num_ghosts : Z;
  size_global : Z;
  block_size : Z
}.

Global Instance IndexMap_eq_dec : EqDecision IndexMap.
Proof. solve_decision. Defined.

(** Modelled from the spec: the state held by [mesh::Topology]: per dimension
    an optional index map, per ordered pair of dimensions an optional
    connectivity (absent means not yet computed), the interior-facet flags
    and, once computed, the cell permutation bitmasks together with the facet
    permutation bytes (indexed by local facet, then by cell). *)
Record Topology : Type := mkTopology {
  topology_dim : Z;
  topology_index_map : gmap Z IndexMap;
  topology_connectivity : gmap (Z * Z) AdjacencyList;
  topology_interior_facets : list bool;
  topology_permutations : option (list Z * list (list Z))
}.

(** Modelled from the spec: the accessors of [mesh::Topology]; a query for
    what is not cached answers with the null pointer. *)
Definition index_map (t : Topology) (d : Z) : option IndexMap :=
  topology_index_map t !! d.
Definition connectivity (t : Topology) (d0 d1 : Z) : option AdjacencyList :=
  topology_connectivity t !! (d0, d1).

Definition set_connectivity (c : AdjacencyList) (d0 d1 : Z) (t : Topology)
  : Topology :=
  mkTopology (topology_dim t) (topology_index_map t)
             (<[(d0, d1) := c]> (topology_connectivity t))
             (topology_interior_facets t) (topology_permutations t).

Definition set_index_map (d : Z) (m : IndexMap) (t : Topology) : Topology :=
  mkTopology (topology_dim t) (<[d := m]> (topology_index_map t))
             (topology_connectivity t)
             (topology_interior_facets t) (topology_permutations t).

Definition set_interior_facets (f : list bool) (t : Topology) : Topology :=
  mkTopology (topology_dim t) (topology_index_map t) (topology_connectivity t)
             f (topology_permutations t).

Definition set_permutations (p : list Z * list (list Z)) (t : Topology)
  : Topology :=
  mkTopology (topology_dim t) (topology_index_map t) (topology_connectivity t)
             (topology_interior_facets t) (Some p).

Definition get_cell_permutation_info (t : Topology) : list Z :=
  from_option fst [] (topology_permutations t).
Definition get_facet_permutations (t : Topology) : list (list Z) :=
  from_option snd [] (topology_permutations t).

(** Modelled from the spec: [mesh::Geometry]: the geometric dimension, the
    cell to node map and the node coordinates (three components per node). *)
Record Geometry (double : Type) : Type := mkGeometry {
  geometry_dim : Z;
  dofmap : AdjacencyList;
  x : list (list double)
}.
Global Arguments mkGeometry {double}.
Global Arguments geometry_dim {double}.
Global Arguments dofmap {double}.
Global Arguments x {double}.

Record Mesh (double : Type) : Type := mkMesh {
  topology : Topology;
  geometry : Geometry double
}.
Global Arguments mkMesh {double}.
Global Arguments topology {double}.
Global Arguments geometry {double}.

(** What a kernel receives besides the accumulator: the packed coefficients,
    the constants, the coordinate rows, the local facet indices and the facet
    permutation bytes (both absent for a cell integral, where the pointers are
    null) and one cell permutation bitmask. *)
Record call (T double : Type) : Type := mkCall {
  call_w : list T;
  call_c : list T;
  call_coordinate_dofs : list (list double);
  call_local_facet : option (list Z);
  call_perm : option (list Z);
  call_cell_permutation : Z
}.
Global Arguments mkCall {T double}.
Global Arguments call_w {T double}.
Global Arguments call_c {T double}.
Global Arguments call_coordinate_dofs {T double}.
Global Arguments call_local_facet {T double}.
Global Arguments call_perm {T double}.
Global Arguments call_cell_permutation {T double}.

(** A kernel reads the accumulator and its arguments and leaves the new
    content of the accumulator. *)
Definition kernel (T double : Type) : Type := T → call T double → T.

(** The scalar type of a form. *)
Class Scalar (T : Type) : Type := {
  zero : T;
  add : T → T → T
}.

(** The state an assembly runs in. *)
Record state (T double : Type) : Type := mkState {
  st_mesh : Mesh double;
  st_calls : list (call T double)
}.
Global Arguments mkState {T double}.
Global Arguments st_mesh {T double}.
Global Arguments st_calls {T double}.

(** ** Collaborators outside the sources

    [TopologyComputation], [Topology::create_entity_permutations] and the
    cell-size functions of [mesh/utils] are called by the code below but are
    not part of it.  Their results are tables here: what they compute is
    determined by the topological dimension and the cell to vertex
    connectivity the mesh was built from ("in a sense all connectivity of a
    mesh always exists, it just hasn't been computed yet", [Mesh.cpp]). *)
Class Externals (T double : Type) : Type := {
  (* the connectivity of a pair of dimensions *)
  connectivity_of : Z * option AdjacencyList → Z → Z → AdjacencyList;
  (* the index map of the entities of a dimension *)
  index_map_of : Z * option AdjacencyList → Z → IndexMap;
  (* whether computing (d0, d1) yields (d1, d0) as a byproduct *)
  transposed_for_free : Z → Z → bool;
  (* cell permutation bitmasks and facet permutation bytes *)
  permutations_of : Z * option AdjacencyList → list Z * list (list Z);
  (* [mesh::h] and [mesh::inradius] *)
  h : Mesh double → list Z → Z → list double;
  inradius : Mesh double → list Z → list double;
  (* the smaller and the larger of two coordinates *)
  dmin : double → double → double;
  dmax : double → double → double;
  (* what a freshly allocated Eigen array holds at each position *)
  uninitialised : nat → T
}.

Section mesh.
Context {T double : Type} `{!Externals T double}.

Definition topology_base (t : Topology) : Z * option AdjacencyList :=
  (topology_dim t, connectivity t (topology_dim t) 0).

(** Modelled from the spec: [TopologyComputation::compute_entities] produces
    the (tdim, d) and (d, 0) adjacency and the index map of dimension [d]. *)
Definition compute_entities (t : Topology) (dim : Z)
  : option AdjacencyList * option AdjacencyList * option IndexMap :=
  (Some (connectivity_of (topology_base t) (topology_dim t) dim),
   Some (connectivity_of (topology_base t) dim 0),
   Some (index_map_of (topology_base t) dim)).

(** Modelled from the spec: [TopologyComputation::compute_connectivity]
    computes the (d0, d1) adjacency, and (d1, d0) when the algorithm
    produces it for free; cached connectivity is never recomputed. *)
Definition compute_connectivity (t : Topology) (d0 d1 : Z)
  : option AdjacencyList * option AdjacencyList :=
  match connectivity t d0 d1 with
  | Some _ => (None, None)
  | None =>
      (Some (connectivity_of (topology_base t) d0 d1),
       if transposed_for_free d0 d1
       then Some (connectivity_of (topology_base t) d1 d0) else None)
  end.

(** Modelled from the spec: [mesh::compute_interior_facets]: a facet is
    interior iff it has exactly two incident cells. *)
Definition compute_interior_facets (t : Topology) : list bool :=
  from_option (fmap (λ cells : list Z, bool_decide (length cells = 2%nat))) []
    (connectivity t (topology_dim t - 1) (topology_dim t)).

(** Modelled from the spec: [Topology::create_entity_permutations] computes
    the permutation data from the local vertex numbering of each cell and
    does nothing when they are already computed. *)
Definition topology_create_entity_permutations (t : Topology) : Topology :=
  match topology_permutations t with
  | Some _ => t
  | None => set_permutations (permutations_of (topology_base t)) t
  end.

(** *** [Mesh.cpp] *)

Definition modify_topology (f : Topology → Topology)
  : M (Mesh double) unit :=
  modify (λ mesh, mkMesh (f (topology mesh)) (geometry mesh)).

(** [if (p) _topology->set...(p, ...)] *)
Definition when_set {A} (p : option A) (f : A → Topology → Topology)
  : M (Mesh double) unit :=
  match p with Some a => modify_topology (f a) | None => mret () end.

Definition num_entities (mesh : Mesh double) (d : Z) : result Z :=
  match index_map (topology mesh) d with
  | None =>
      raise (runtime_error
        ("Cannot get number of mesh entities. Have not been created for dimension "
           +:+ pretty d +:+ "."))
  | Some map =>
      check (bool_decide (block_size map = 1)) "map->block_size() == 1";;
      mret (int32_t (size_local map + num_ghosts map))
  end.

Definition create_entities (dim : Z) : M (Mesh double) Z :=
  mesh ← get;
  let _topology := topology mesh in
  (* Skip if already computed *)
  if decide (is_Some (connectivity _topology dim 0)) then mret (-1)
  else
    let '(cell_entity, entity_vertex, index_map) :=
      compute_entities _topology dim in
    when_set cell_entity
      (λ c, set_connectivity c (topology_dim _topology) dim);;
    when_set entity_vertex (λ c, set_connectivity c dim 0);;
    when_set index_map (set_index_map dim);;
    lift (size_local <$> defined index_map).

Definition create_connectivity (d0 d1 : Z) : M (Mesh double) unit :=
  (* Make sure entities exist *)
  create_entities d0;;
  create_entities d1;;
  mesh ← get;
  let '(c_d0_d1, c_d1_d0) := compute_connectivity (topology mesh) d0 d1 in
  when_set c_d0_d1 (λ c, set_connectivity c d0 d1);;
  when_set c_d1_d0 (λ c, set_connectivity c d1 d0);;
  (* Special facet handling *)
  mesh ← get;
  let _topology := topology mesh in
  if decide (d0 = topology_dim _topology - 1 ∧ d1 = topology_dim _topology)
  then modify_topology (set_interior_facets (compute_interior_facets _topology))
  else mret ().

Definition create_entity_permutations : M (Mesh double) unit :=
  mesh ← get;
  let tdim := topology_dim (topology mesh) in
  foldM (λ _ d, create_entities d;; mret ()) () (seqZ 0 tdim);;
  modify_topology topology_create_entity_permutations.

Definition create_connectivity_all : M (Mesh double) unit :=
  mesh ← get;
  let tdim := topology_dim (topology mesh) in
  (* Compute all entities *)
  foldM (λ _ d, create_entities d;; mret ()) () (seqZ 0 (tdim + 1));;
  (* Compute all connectivity *)
  foldM (λ _ d0,
           foldM (λ _ d1, create_connectivity d0 d1) () (seqZ 0 (tdim + 1)))
        () (seqZ 0 (tdim + 1)).

(** [Eigen::ArrayXi cells(num_cells); std::iota(..., 0)] *)
Definition iota (num_cells : Z) : result (list Z) :=
  if decide (0 ≤ num_cells) then inr (seqZ 0 num_cells)
  else inl undefined_behaviour.

Definition cell_h (mesh : Mesh double) : result (list double) :=
  let dim := topology_dim (topology mesh) in
  num_cells ← num_entities mesh dim;
  if decide (num_cells = 0)
  then raise (runtime_error "Cannot compute h min/max. No cells.")
  else cells ← iota num_cells; mret (h mesh cells dim).

Definition cell_r (mesh : Mesh double) : result (list double) :=
  let dim := topology_dim (topology mesh) in
  num_cells ← num_entities mesh dim;
  if decide (num_cells = 0)
  then raise (runtime_error "Cannnot compute inradius min/max. No cells.")
  else cells ← iota num_cells; mret (inradius mesh cells).

(** [v.minCoeff()] and [v.maxCoeff()]; an empty array has neither. *)
Definition minCoeff (v : list double) : result double :=
  match v with
  | [] => inl undefined_behaviour
  | a :: v' => inr (foldl dmin a v')
  end.
Definition maxCoeff (v : list double) : result double :=
  match v with
  | [] => inl undefined_behaviour
  | a :: v' => inr (foldl dmax a v')
  end.

Definition hmin (mesh : Mesh double) : result double :=
  v ← cell_h mesh; minCoeff v.
Definition hmax (mesh : Mesh double) : result double :=
  v ← cell_h mesh; maxCoeff v.
Definition rmin (mesh : Mesh double) : result double :=
  v ← cell_r mesh; minCoeff v.
Definition rmax (mesh : Mesh double) : result double :=
  v ← cell_r mesh; maxCoeff v.
End mesh.

(** ** [assemble_scalar_impl.h] *)

(** Modelled from the spec: [fem::Form] (its header is not among the
    sources): the constants by name, each with its value once set; the
    column offsets of the coefficients; the coefficient rows produced by the
    external packing step [pack_coefficients]; per integral kind the kernels
    with their active entities. *)
Record Form (T double : Type) : Type := mkForm {
  constants : list (string * option (list T));
  coefficients_offsets : list Z;
  pack_coefficients : Array2 T;
  cell_integrals : list (kernel T double * list Z);
  exterior_facet_integrals : list (kernel T double * list Z);
  interior_facet_integrals : list (kernel T double * list Z)
}.
Global Arguments mkForm {T double}.
Global Arguments constants {T double}.
Global Arguments coefficients_offsets {T double}.
Global Arguments pack_coefficients {T double}.
Global Arguments cell_integrals {T double}.
Global Arguments exterior_facet_integrals {T double}.
Global Arguments interior_facet_integrals {T double}.

Section assemble.
Context {T double : Type} `{!Scalar T} `{!Externals T double}.

(** Modelled from the spec: [Form::all_constants_set]: no constant of the
    form is left without a value. *)
Definition all_constants_set (F : Form T double) : bool :=
  forallb (λ constant, bool_decide (is_Some constant.2)) (constants F).

(** A mesh operation run on the mesh of the assembly. *)
Definition on_mesh {A} (m : M (Mesh double) A) : M (state T double) A :=
  λ s, let '(r, mesh') := m (st_mesh s) in (r, mkState mesh' (st_calls s)).

(** [fn(&value, ...)]: the accumulator is updated and the call is logged. *)
Definition invoke (fn : kernel T double) (value : T) (a : call T double)
  : M (state T double) T :=
  λ s, (inr (fn value a), mkState (st_mesh s) (st_calls s ++ [a])).

(** [assert(p)] for a shared pointer. *)
Definition non_null {A} (p : option A) (expr : string) : result A :=
  match p with Some a => inr a | None => inl (assertion_failed expr) end.

(** [coordinate_dofs.row(i) = x_g.row(x_dofs[i]).head(gdim)] for
    [i < num_dofs_g]: the rows gathered for one cell. *)
Definition coordinate_rows (g : Geometry double) (num_dofs_g : Z)
    (x_dofs : list Z) : result (list (list double)) :=
  map_result (λ i, d ← at_ x_dofs i; r ← at_ (x g) d; head_ r (geometry_dim g))
             (seqZ 0 num_dofs_g).

(** The body of the cell loop up to the kernel call. *)
Definition cell_arguments (g : Geometry double) (num_dofs_g : Z)
    (cell_info : list Z) (coeffs : Array2 T) (constant_values : list T)
    (c : Z) : result (call T double) :=
  x_dofs ← links (dofmap g) c;
  coordinate_dofs ← coordinate_rows g num_dofs_g x_dofs;
  coeff_cell ← row coeffs c;
  info ← at_ cell_info c;
  mret (mkCall coeff_cell constant_values coordinate_dofs None None info).

(** The cell assembler once the topology is prepared. *)
Definition cells_loop (mesh : Mesh double) (active_cells : list Z)
    (fn : kernel T double) (coeffs : Array2 T) (constant_values : list T)
  : M (state T double) T :=
  (* Prepare cell geometry *)
  let x_dofmap := dofmap (geometry mesh) in
  num_dofs_g ← lift (num_links x_dofmap 0);
  (* Create data structures used in assembly: coordinate_dofs *)
  lift (allocate num_dofs_g (geometry_dim (geometry mesh)));;
  let cell_info := get_cell_permutation_info (topology mesh) in
  (* Iterate over all cells *)
  foldM (λ value c,
           a ← lift (cell_arguments (geometry mesh) num_dofs_g cell_info
                       coeffs constant_values c);
           invoke fn value a)
        zero active_cells.

Definition assemble_cells (active_cells : list Z) (fn : kernel T double)
    (coeffs : Array2 T) (constant_values : list T) : M (state T double) T :=
  s ← get;
  let tdim := topology_dim (topology (st_mesh s)) in
  on_mesh (create_entities tdim);;
  on_mesh create_entity_permutations;;
  s ← get;
  cells_loop (st_mesh s) active_cells fn coeffs constant_values.

(** Local index of [facet] with respect to [cell]. *)
Definition local_facet_index (c_to_f : AdjacencyList) (facet cell : Z)
  : result Z :=
  facets ← links c_to_f cell;
  let it := std_find facets facet in
  check (bool_decide (it ≠ Z.of_nat (length facets)))
        "it != (facets.data() + facets.rows())";;
  mret it.

(** The body of the exterior facet loop up to the kernel call. *)
Definition exterior_facet_arguments (g : Geometry double) (num_dofs_g : Z)
    (perms : list (list Z)) (cell_info : list Z)
    (f_to_c c_to_f : AdjacencyList)
    (coeffs : Array2 T) (constant_values : list T)
    (facet : Z) : result (call T double) :=
  (* Create attached cell *)
  n ← num_links f_to_c facet;
  check (bool_decide (n = 1)) "f_to_c->num_links(facet) == 1";;
  cells ← links f_to_c facet;
  cell ← at_ cells 0;
  (* Get local index of facet with respect to the cell *)
  local_facet ← local_facet_index c_to_f facet cell;
  x_dofs ← links (dofmap g) cell;
  coordinate_dofs ← coordinate_rows g num_dofs_g x_dofs;
  coeff_cell ← row coeffs cell;
  perm ← at2 perms local_facet cell;
  info ← at_ cell_info cell;
  mret (mkCall coeff_cell constant_values coordinate_dofs
               (Some [local_facet]) (Some [perm]) info).

(** The three [create_*] calls both facet assemblers start with. *)
Definition create_facet_topology : M (state T double) unit :=
  s ← get;
  let tdim := topology_dim (topology (st_mesh s)) in
  on_mesh (create_entities (tdim - 1));;
  on_mesh (create_connectivity (tdim - 1) tdim);;
  on_mesh create_entity_permutations.

(** The exterior facet assembler once the topology is prepared. *)
Definition exterior_facets_loop (mesh : Mesh double) (active_facets : list Z)
    (fn : kernel T double) (coeffs : Array2 T) (constant_values : list T)
  : M (state T double) T :=
  let tdim := topology_dim (topology mesh) in
  (* Prepare cell geometry *)
  let x_dofmap := dofmap (geometry mesh) in
  num_dofs_g ← lift (num_links x_dofmap 0);
  (* Create data structures used in assembly: coordinate_dofs *)
  lift (allocate num_dofs_g (geometry_dim (geometry mesh)));;
  let perms := get_facet_permutations (topology mesh) in
  let cell_info := get_cell_permutation_info (topology mesh) in
  f_to_c ← lift (non_null (connectivity (topology mesh) (tdim - 1) tdim)
                          "f_to_c");
  c_to_f ← lift (non_null (connectivity (topology mesh) tdim (tdim - 1))
                          "c_to_f");
  (* Iterate over all facets *)
  foldM (λ value facet,
           a ← lift (exterior_facet_arguments (geometry mesh) num_dofs_g
                       perms cell_info f_to_c c_to_f
                       coeffs constant_values facet);
           invoke fn value a)
        zero active_facets.

Definition assemble_exterior_facets (active_facets : list Z)
    (fn : kernel T double) (coeffs : Array2 T) (constant_values : list T)
  : M (state T double) T :=
  create_facet_topology;;
  s ← get;
  exterior_facets_loop (st_mesh s) active_facets fn coeffs constant_values.

(** [Eigen::Array<T, Eigen::Dynamic, 1> a(n)]: nothing is written to it. *)
Definition new_array (n : Z) : result (list T) :=
  if decide (0 ≤ n) then inr (uninitialised <$> seq 0 (Z.to_nat n))
  else inl undefined_behaviour.

(** The loop over the coefficients: both restrictions of coefficient [i]
    are written to [coeff_array]. *)
Definition pack_restricted (offsets : list Z)
    (coeff_cell0 coeff_cell1 coeff_array : list T) : result (list T) :=
  fold_result
    (λ coeff_array i,
       o_i ← at_ offsets i;
       o_i1 ← at_ offsets (i + 1);
       let num_entries := o_i1 - o_i in
       s0 ← segment coeff_cell0 o_i num_entries;
       coeff_array ← set_segment coeff_array (2 * o_i) s0;
       s1 ← segment coeff_cell1 o_i num_entries;
       set_segment coeff_array (o_i1 + o_i) s1)
    coeff_array (seqZ 0 (Z.of_nat (length offsets) - 1)).

(** The body of the interior facet loop up to the kernel call: the
    arguments of the call and the new content of [coeff_array]. *)
Definition interior_facet_arguments (g : Geometry double) (num_dofs_g : Z)
    (perms : list (list Z)) (cell_info : list Z)
    (f_to_c c_to_f : AdjacencyList)
    (coeffs : Array2 T) (offsets : list Z) (constant_values : list T)
    (coeff_array : list T) (f : Z) : result (call T double * list T) :=
  (* Create attached cell *)
  cells ← links f_to_c f;
  check (bool_decide (length cells = 2%nat)) "cells.rows() == 2";;
  cells0 ← at_ cells 0;
  cells1 ← at_ cells 1;
  (* Get local index of facet with respect to the cell *)
  local_facet0 ← local_facet_index c_to_f f cells0;
  local_facet1 ← local_facet_index c_to_f f cells1;
  perm0 ← at2 perms local_facet0 cells0;
  perm1 ← at2 perms local_facet1 cells1;
  (* Get cell geometry: rows [0, num_dofs_g) from the first cell, rows
     [num_dofs_g, 2 num_dofs_g) from the second *)
  x_dofs0 ← links (dofmap g) cells0;
  x_dofs1 ← links (dofmap g) cells1;
  rows0 ← coordinate_rows g num_dofs_g x_dofs0;
  rows1 ← coordinate_rows g num_dofs_g x_dofs1;
  (* Layout for the restricted coefficients is flattened
     w[coefficient][restriction][dof] *)
  coeff_cell0 ← row coeffs cells0;
  coeff_cell1 ← row coeffs cells1;
  coeff_array ← pack_restricted offsets coeff_cell0 coeff_cell1 coeff_array;
  info ← at_ cell_info cells0;
  mret (mkCall coeff_array constant_values (rows0 ++ rows1)
               (Some [local_facet0; local_facet1]) (Some [perm0; perm1]) info,
        coeff_array).

(** One turn of the interior facet loop: [coeff_array] is declared outside
    the loop, so what it holds travels with the accumulator. *)
Definition interior_body {E}
    (gather : list T → E → result (call T double * list T))
    (fn : kernel T double)
  : T * list T → E → M (state T double) (T * list T) :=
  λ acc f, r ← lift (gather acc.2 f);
           value ← invoke fn acc.1 r.1;
           mret (value, r.2).

(** The interior facet assembler once the topology is prepared. *)
Definition interior_facets_loop (mesh : Mesh double) (active_facets : list Z)
    (fn : kernel T double) (coeffs : Array2 T) (offsets : list Z)
    (constant_values : list T) : M (state T double) T :=
  let tdim := topology_dim (topology mesh) in
  (* Prepare cell geometry *)
  let x_dofmap := dofmap (geometry mesh) in
  num_dofs_g ← lift (num_links x_dofmap 0);
  (* Create data structures used in assembly: coordinate_dofs, coeff_array *)
  lift (allocate (2 * num_dofs_g) (geometry_dim (geometry mesh)));;
  offsets_back ← lift (defined (last offsets));
  coeff_array ← lift (new_array (2 * offsets_back));
  lift (check (bool_decide (offsets_back = cols coeffs))
              "offsets.back() == coeffs.cols()");;
  let perms := get_facet_permutations (topology mesh) in
  let cell_info := get_cell_permutation_info (topology mesh) in
  f_to_c ← lift (non_null (connectivity (topology mesh) (tdim - 1) tdim)
                          "f_to_c");
  c_to_f ← lift (non_null (connectivity (topology mesh) tdim (tdim - 1))
                          "c_to_f");
  (* Iterate over all facets *)
  r ← foldM (interior_body
               (interior_facet_arguments (geometry mesh) num_dofs_g
                  perms cell_info f_to_c c_to_f
                  coeffs offsets constant_values) fn)
            (zero, coeff_array) active_facets;
  mret r.1.

Definition assemble_interior_facets (active_facets : list Z)
    (fn : kernel T double) (coeffs : Array2 T) (offsets : list Z)
    (constant_values : list T) : M (state T double) T :=
  create_facet_topology;;
  s ← get;
  interior_facets_loop (st_mesh s) active_facets fn coeffs offsets
    constant_values.

(** [value += assemble(...)] over the integrals of one kind. *)
Definition add_integrals
    (assemble : list Z → kernel T double → M (state T double) T)
    (integrals : list (kernel T double * list Z)) (value : T)
  : M (state T double) T :=
  foldM (λ value integral,
           v ← assemble integral.2 integral.1;
           mret (add value v))
        value integrals.

(** The part of [assemble_scalar] that follows the preparation of the
    constants: the loops over the integrals of the three kinds. *)
Definition assemble_integrals (F : Form T double) (constant_values : list T)
  : M (state T double) T :=
  (* Prepare coefficients *)
  let coeffs := pack_coefficients F in
  value ← add_integrals
            (λ active_cells fn,
               assemble_cells active_cells fn coeffs constant_values)
            (cell_integrals F) zero;
  value ← add_integrals
            (λ active_facets fn,
               assemble_exterior_facets active_facets fn coeffs
                 constant_values)
            (exterior_facet_integrals F) value;
  let c_offsets := coefficients_offsets F in
  value ← add_integrals
            (λ active_facets fn,
               assemble_interior_facets active_facets fn coeffs c_offsets
                 constant_values)
            (interior_facet_integrals F) value;
  mret value.

Definition assemble_scalar (F : Form T double) : M (state T double) T :=
  (* Prepare constants *)
  if negb (all_constants_set F)
  then lift (raise (runtime_error "Unset constant in Form"))
  else
    arrays ← lift (map_result (λ constant, defined constant.2) (constants F));
    assemble_integrals F (concat arrays).
End assemble.

(** ** Notions used to state the properties *)

(** Integers as scalars: the exactly representable values of a form, for
    which sums and products by a count are exact. *)
Global Instance Z_scalar : Scalar Z := {| zero := 0; add := Z.add |}.

(** Column offsets of [n] coefficient columns: they do not decrease, start at
    a column that exists and end at [n]. *)
Definition offsets_wf (offsets : list Z) (n : Z) : Prop :=
  StronglySorted Z.le offsets
  ∧ (∀ o, head offsets = Some o → 0 ≤ o)
  ∧ last offsets = Some n.

(** What the packed array holds for the coefficients before the [k]-th:
    the entries of the first cell from twice the offset on, those of the
    second cell from the sum of the two neighbouring offsets on. *)
Definition packed_before {T} (offsets : list Z) (coeff_cell0 coeff_cell1 : list T)
    (k : nat) (coeff_array : list T) : Prop :=
  ∀ (i : nat) (o_i o_i1 : Z) (p : nat),
    (i < k)%nat → offsets !! i = Some o_i → offsets !! S i = Some o_i1 →
    (p < Z.to_nat (o_i1 - o_i))%nat →
    coeff_array !! (Z.to_nat (2 * o_i) + p)%nat
    = coeff_cell0 !! (Z.to_nat o_i + p)%nat
    ∧ coeff_array !! (Z.to_nat (o_i1 + o_i) + p)%nat
      = coeff_cell1 !! (Z.to_nat o_i + p)%nat.

(** Reading one restriction back from an array laid out as
    [coefficient][restriction][dof]: the slices of side [side] (0 or 1) of all
    the coefficients, one after the other. *)
Definition restriction {T} (side : Z) (offsets : list Z) (w : list T)
  : result (list T) :=
  slices ← map_result
    (λ i, o_i ← at_ offsets i;
          o_i1 ← at_ offsets (i + 1);
          segment w (2 * o_i + side * (o_i1 - o_i)) (o_i1 - o_i))
    (seqZ 0 (Z.of_nat (length offsets) - 1));
  mret (concat slices).

Section notions.
Context {T double : Type} `{!Scalar T} `{!Externals T double}.

(** The topology after entities of dimension [dim] have been computed. *)
Definition with_entities (dim : Z) (t : Topology) : Topology :=
  set_index_map dim (index_map_of (topology_base t) dim)
    (set_connectivity (connectivity_of (topology_base t) dim 0) dim 0
       (set_connectivity
          (connectivity_of (topology_base t) (topology_dim t) dim)
          (topology_dim t) dim t)).

(** What [create_entities], [create_connectivity] and
    [create_entity_permutations] leave as the topology. *)
Definition entities_created (dim : Z) (t : Topology) : Topology :=
  if decide (is_Some (connectivity t dim 0)) then t else with_entities dim t.

Definition connectivity_computed (d0 d1 : Z) (t : Topology) : Topology :=
  match connectivity t d0 d1 with
  | Some _ => t
  | None =>
      let t' := set_connectivity (connectivity_of (topology_base t) d0 d1)
                  d0 d1 t in
      if transposed_for_free d0 d1
      then set_connectivity (connectivity_of (topology_base t) d1 d0) d1 d0 t'
      else t'
  end.

Definition facets_flagged (d0 d1 : Z) (t : Topology) : Topology :=
  if decide (d0 = topology_dim t - 1 ∧ d1 = topology_dim t)
  then set_interior_facets (compute_interior_facets t) t else t.

Definition connectivity_created (d0 d1 : Z) (t : Topology) : Topology :=
  facets_flagged d0 d1
    (connectivity_computed d0 d1
       (entities_created d1 (entities_created d0 t))).

Definition permutations_created (t : Topology) : Topology :=
  topology_create_entity_permutations
    (foldl (λ t d, entities_created d t) t (seqZ 0 (topology_dim t))).

(** The topology the cell assembler, respectively a facet assembler, works
    with after its [create_*] calls. *)
Definition cell_topology (t : Topology) : Topology :=
  permutations_created (entities_created (topology_dim t) t).

Definition facet_topology (t : Topology) : Topology :=
  permutations_created
    (connectivity_created (topology_dim t - 1) (topology_dim t)
       (entities_created (topology_dim t - 1) t)).

(** Every read of [coordinate_rows] stays inside its array. *)
Definition coordinates_readable (g : Geometry double) (num_dofs_g : Z)
    (x_dofs : list Z) : Prop :=
  ∀ i, 0 ≤ i < num_dofs_g →
    ∃ d r, x_dofs !! Z.to_nat i = Some d ∧ 0 ≤ d
           ∧ x g !! Z.to_nat d = Some r
           ∧ 0 ≤ geometry_dim g ≤ Z.of_nat (length r).

(** Cell [c] has a row in the coordinate map and in the coefficient array,
    and its coordinates are readable. *)
Definition cell_data_readable (g : Geometry double) (num_dofs_g : Z)
    (coeffs : Array2 T) (c : Z) : Prop :=
  0 ≤ c
  ∧ (∃ x_dofs, dofmap g !! Z.to_nat c = Some x_dofs
               ∧ coordinates_readable g num_dofs_g x_dofs)
  ∧ c < Z.of_nat (length (rows coeffs)).

(** Moreover cell [c] has an entry in the cell permutation data. *)
Definition cell_readable (g : Geometry double) (num_dofs_g : Z)
    (cell_info : list Z) (coeffs : Array2 T) (c : Z) : Prop :=
  cell_data_readable g num_dofs_g coeffs c
  ∧ c < Z.of_nat (length cell_info).

(** [facet] is one of the facets of [cell], and the facet permutation data
    have an entry for it. *)
Definition facet_of_cell (perms : list (list Z)) (c_to_f : AdjacencyList)
    (facet cell : Z) : Prop :=
  0 ≤ cell
  ∧ ∃ facets r, c_to_f !! Z.to_nat cell = Some facets ∧ facet ∈ facets
                ∧ perms !! Z.to_nat (std_find facets facet) = Some r
                ∧ cell < Z.of_nat (length r).

(** An exterior facet all of whose data are readable: one incident cell. *)
Definition exterior_facet_readable (g : Geometry double) (num_dofs_g : Z)
    (perms : list (list Z)) (cell_info : list Z)
    (f_to_c c_to_f : AdjacencyList) (coeffs : Array2 T) (facet : Z) : Prop :=
  0 ≤ facet
  ∧ ∃ cell, f_to_c !! Z.to_nat facet = Some [cell]
            ∧ facet_of_cell perms c_to_f facet cell
            ∧ cell_readable g num_dofs_g cell_info coeffs cell.

(** An interior facet all of whose data are readable: two incident cells;
    the cell permutation data are needed for the first only. *)
Definition interior_facet_readable (g : Geometry double) (num_dofs_g : Z)
    (perms : list (list Z)) (cell_info : list Z)
    (f_to_c c_to_f : AdjacencyList) (coeffs : Array2 T) (f : Z) : Prop :=
  0 ≤ f
  ∧ ∃ cell0 cell1, f_to_c !! Z.to_nat f = Some [cell0; cell1]
      ∧ facet_of_cell perms c_to_f f cell0
      ∧ facet_of_cell perms c_to_f f cell1
      ∧ cell_readable g num_dofs_g cell_info coeffs cell0
      ∧ cell_data_readable g num_dofs_g coeffs cell1.

(** Every row of the array has [cols] entries. *)
Definition Array2_wf (a : Array2 T) : Prop :=
  Forall (λ r, Z.of_nat (length r) = cols a) (rows a).

(** The topology is consistent at an exterior facet: exactly one incident
    cell, which lists the facet. *)
Definition exterior_facet_consistent (f_to_c c_to_f : AdjacencyList)
    (facet : Z) : Prop :=
  ∃ cell facets, links f_to_c facet = inr [cell]
                 ∧ links c_to_f cell = inr facets ∧ facet ∈ facets.

(** The topology is consistent at an interior facet: exactly two incident
    cells, each of which lists the facet. *)
Definition interior_facet_consistent (f_to_c c_to_f : AdjacencyList)
    (f : Z) : Prop :=
  ∃ cell0 cell1 facets0 facets1,
    links f_to_c f = inr [cell0; cell1]
    ∧ links c_to_f cell0 = inr facets0 ∧ f ∈ facets0
    ∧ links c_to_f cell1 = inr facets1 ∧ f ∈ facets1.

(** What the kernel call made for the interior facet [f] carries: the local
    indices of [f] in its two cells and the two permutation bytes, first
    cell first, and the permutation bitmask of the first cell. *)
Definition interior_call_spec (perms : list (list Z)) (cell_info : list Z)
    (f_to_c c_to_f : AdjacencyList) (f : Z) (a : call T double) : Prop :=
  ∃ cell0 cell1 facets0 facets1 perm0 perm1 info,
    links f_to_c f = inr [cell0; cell1]
    ∧ links c_to_f cell0 = inr facets0
    ∧ links c_to_f cell1 = inr facets1
    ∧ facets0 !! Z.to_nat (std_find facets0 f) = Some f
    ∧ facets1 !! Z.to_nat (std_find facets1 f) = Some f
    ∧ at2 perms (std_find facets0 f) cell0 = inr perm0
    ∧ at2 perms (std_find facets1 f) cell1 = inr perm1
    ∧ at_ cell_info cell0 = inr info
    ∧ call_local_facet a = Some [std_find facets0 f; std_find facets1 f]
    ∧ call_perm a = Some [perm0; perm1]
    ∧ call_cell_permutation a = info.

(** What the kernel call made for the interior facet [f] carries as its
    coefficients: an array of length [2 * offsets.back()] in which, for every
    coefficient [i], the slice [offsets[i] : offsets[i+1]] of the coefficient
    row of the first cell sits at position [2 * offsets[i]] and the same
    slice of the row of the second cell right after it; when the offsets
    start at column 0, reading restriction 0 and restriction 1 back gives
    the two rows. *)
Definition interior_coefficients_spec (coeffs : Array2 T) (offsets : list Z)
    (f_to_c : AdjacencyList) (f : Z) (a : call T double) : Prop :=
  ∃ cell0 cell1 coeff_cell0 coeff_cell1 offsets_back,
    links f_to_c f = inr [cell0; cell1]
    ∧ row coeffs cell0 = inr coeff_cell0
    ∧ row coeffs cell1 = inr coeff_cell1
    ∧ last offsets = Some offsets_back
    ∧ Z.of_nat (length (call_w a)) = 2 * offsets_back
    ∧ (∀ i o_i o_i1,
         at_ offsets i = inr o_i → at_ offsets (i + 1) = inr o_i1 →
         ∃ slice0 slice1,
           segment coeff_cell0 o_i (o_i1 - o_i) = inr slice0
           ∧ segment coeff_cell1 o_i (o_i1 - o_i) = inr slice1
           ∧ segment (call_w a) (2 * o_i) (o_i1 - o_i) = inr slice0
           ∧ segment (call_w a) (2 * o_i + (o_i1 - o_i)) (o_i1 - o_i)
             = inr slice1)
    ∧ (head offsets = Some 0 →
       restriction 0 offsets (call_w a) = inr coeff_cell0
       ∧ restriction 1 offsets (call_w a) = inr coeff_cell1).

(** The calls made for one integral: one for each of its active entities,
    each carrying the values of the constants. *)
Definition entities_visited (constant_values : list T)
    (integral : kernel T double * list Z) (calls : list (call T double))
  : Prop :=
  length calls = length integral.2
  ∧ Forall (λ a, call_c a = constant_values) calls.

(** The accumulator after the integrals of one kind: to [value] is added,
    integral by integral, the kernel of the integral folded from zero over
    the calls made for it. *)
Definition integrals_added (value : T)
    (integrals : list (kernel T double * list Z))
    (calls : list (list (call T double))) : T :=
  foldl (λ value ic, add value (foldl ic.1.1 zero ic.2)) value
        (zip integrals calls).

(** The interior facet loop without the kernel: the arguments gathered
    facet by facet, [coeff_array] being handed from each facet to the next. *)
Fixpoint gather_interior {E}
    (gather : list T → E → result (call T double * list T))
    (coeff_array : list T) (l : list E)
  : result (list (call T double) * list T) :=
  match l with
  | [] => inr ([], coeff_array)
  | e :: l' =>
      r ← gather coeff_array e;
      k ← gather_interior gather r.2 l';
      mret (r.1 :: k.1, k.2)
  end.

(** Every cached item is the one the external computations yield for the
    cell to vertex connectivity of the mesh, which is present; and the
    facets have been created as entities of the cells: with the
    (tdim - 1, 0) connectivity comes the (tdim, tdim - 1) connectivity. *)
Definition cache_consistent (t : Topology) : Prop :=
  is_Some (connectivity t (topology_dim t) 0)
  ∧ map_Forall (λ k c, c = connectivity_of (topology_base t) k.1 k.2)
               (topology_connectivity t)
  ∧ (∀ p, topology_permutations t = Some p
          → p = permutations_of (topology_base t))
  ∧ (is_Some (connectivity t (topology_dim t - 1) 0)
     → is_Some (connectivity t (topology_dim t) (topology_dim t - 1))).

(** [t'] caches everything [t] does, for the same mesh. *)
Definition grows (t t' : Topology) : Prop :=
  topology_base t' = topology_base t
  ∧ (∀ d0 d1, is_Some (connectivity t d0 d1)
              → is_Some (connectivity t' d0 d1))
  ∧ (is_Some (topology_permutations t)
     → is_Some (topology_permutations t'))
  ∧ cache_consistent t'.

(** The operations by which a caller prepares the topology. *)
Inductive create_op : Type :=
  | op_create_entities (dim : Z)
  | op_create_connectivity (d0 d1 : Z)
  | op_create_entity_permutations
  | op_create_connectivity_all.

Definition run_create (op : create_op) : M (Mesh double) unit :=
  match op with
  | op_create_entities dim => create_entities dim;; mret ()
  | op_create_connectivity d0 d1 => create_connectivity d0 d1
  | op_create_entity_permutations => create_entity_permutations
  | op_create_connectivity_all => create_connectivity_all
  end.

Definition precreate (ops : list create_op) : M (Mesh double) unit :=
  foldM (λ _ op, run_create op) () ops.

(** A mesh operation that succeeds and only adds to the caches. *)
Definition builds {A} (m : M (Mesh double) A) : Prop :=
  ∀ mesh, cache_consistent (topology mesh) →
    ∃ a t', m mesh = (inr a, mkMesh t' (geometry mesh))
            ∧ grows (topology mesh) t'.

(** A computation that only appends to the log of kernel calls, with an
    outcome that does not depend on the state. *)
Definition logs_only {A} (m : M (state T double) A) : Prop :=
  ∃ r calls, ∀ s, m s = (r, mkState (st_mesh s) (st_calls s ++ calls)).

(** Two states of the same mesh, both with consistent caches. *)
Definition similar (s1 s2 : state T double) : Prop :=
  geometry (st_mesh s1) = geometry (st_mesh s2)
  ∧ topology_base (topology (st_mesh s1))
    = topology_base (topology (st_mesh s2))
  ∧ cache_consistent (topology (st_mesh s1))
  ∧ cache_consistent (topology (st_mesh s2)).

(** A computation with the same outcome and the same kernel calls from
    similar states, which it leaves similar. *)
Definition agrees {A} (m : M (state T double) A) : Prop :=
  ∀ s1 s2, similar s1 s2 →
    ∃ r calls,
      (m s1).1 = r ∧ (m s2).1 = r
      ∧ st_calls (m s1).2 = st_calls s1 ++ calls
      ∧ st_calls (m s2).2 = st_calls s2 ++ calls
      ∧ similar (m s1).2 (m s2).2.
End notions.

(** ** A mesh to run the code on

    Two intervals [0,1] and [1,2] on a line: three vertices, which are also
    the facets; vertex 1 is the only interior facet.  Scalars and coordinates
    are integers, which stand for exactly representable values. *)
Module interval.
Definition cell_vertex : AdjacencyList := [[0; 1]; [1; 2]].
Definition vertex_cell : AdjacencyList := [[0]; [0; 1]; [1]].

Global Instance externals : Externals Z Z := {|
  connectivity_of _ d0 d1 :=
    if decide (d0 = 1 ∧ d1 = 0) then cell_vertex
    else if decide (d0 = 0 ∧ d1 = 1) then vertex_cell
    else if decide (d0 = 0 ∧ d1 = 0) then [[0]; [1]; [2]]
    else if decide (d0 = 1 ∧ d1 = 1) then [[0]; [1]]
    else [];
  index_map_of _ d :=
    if decide (d = 0) then mkIndexMap 3 0 3 1
    else if decide (d = 1) then mkIndexMap 2 0 2 1
    else mkIndexMap 0 0 0 1;
  transposed_for_free d0 d1 := bool_decide (d0 < d1);
  permutations_of _ := ([5; 9], [[0; 1]; [1; 0]]);
  h _ cells _ := (λ _, 1) <$> cells;
  inradius _ cells := (λ _, 1) <$> cells;
  dmin := Z.min;
  dmax := Z.max;
  uninitialised _ := -1
|}.

Definition the_geometry : Geometry Z :=
  mkGeometry 1 cell_vertex [[0; 0; 0]; [1; 0; 0]; [2; 0; 0]].

(** The topology as the mesh is created: vertices and cells only. *)
Definition fresh_topology : Topology :=
  mkTopology 1
    (<[0 := mkIndexMap 3 0 3 1]> (<[1 := mkIndexMap 2 0 2 1]> ∅))
    (<[(0, 0) := [[0]; [1]; [2]]]> (<[(1, 0) := cell_vertex]> ∅))
    [] None.

Definition fresh_mesh : Mesh Z := mkMesh fresh_topology the_geometry.

(** A mesh without cells, and one whose cell index map has block size 2. *)
Definition empty_mesh : Mesh Z :=
  mkMesh (mkTopology 1 (<[1 := mkIndexMap 0 0 0 1]> ∅) ∅ [] None)
         (mkGeometry 1 [] []).
Definition blocked_mesh : Mesh Z :=
  mkMesh (mkTopology 1 (<[1 := mkIndexMap 2 0 2 2]> ∅) ∅ [] None)
         the_geometry.

(** A mesh whose cell index map counts 2147483647 owned cells and one ghost
    cell, one more in all than the largest [std::int32_t]. *)
Definition crowded_mesh : Mesh Z :=
  mkMesh (mkTopology 1 (<[1 := mkIndexMap 2147483647 1 2147483648 1]> ∅) ∅
            [] None)
         the_geometry.

(** Two coefficients with two and one degrees of freedom per cell. *)
Definition coeffs : Array2 Z := mkArray2 3 [[10; 11; 12]; [20; 21; 22]].
Definition offsets : list Z := [0; 2; 3].

Definition fresh_state : state Z Z := mkState fresh_mesh [].

(** A kernel that adds 7 to the accumulator, and one that adds the cell
    permutation bitmask it is given. *)
Definition add_seven : kernel Z Z := λ value _, value + 7.
Definition add_bitmask : kernel Z Z :=
  λ value a, value + call_cell_permutation a.

(** A form with one integral of each kind: over both cells, over the two
    end points, over the middle point. *)
Definition the_form : Form Z Z :=
  mkForm [("c"%string, Some [3])] offsets coeffs
         [(add_seven, [0; 1])] [(add_bitmask, [0; 2])] [(add_bitmask, [1])].

(** The same form with its constant left unset, and a form of no integral. *)
Definition unset_form : Form Z Z :=
  mkForm [("c"%string, None)] offsets coeffs
         [(add_seven, [0; 1])] [(add_bitmask, [0; 2])] [(add_bitmask, [1])].
Definition empty_form : Form Z Z :=
  mkForm [("c"%string, Some [3])] offsets coeffs [] [] [].
End interval.

(** ** The same mesh with scalars of type [double]

    The scalar type of a form is a binary64 floating-point number (or a pair
    of them); sums are rounded to the nearest such number.  The scalars and
    the external computations for them are passed by name where they are
    used. *)
Module doubles.
Definition double_scalar : Scalar PrimFloat.float :=
  {| zero := PrimFloat.zero; add := PrimFloat.add |}.

Definition externals : Externals PrimFloat.float Z := {|
  connectivity_of := connectivity_of (Externals := interval.externals);
  index_map_of := index_map_of (Externals := interval.externals);
  transposed_for_free := transposed_for_free (Externals := interval.externals);
  permutations_of := permutations_of (Externals := interval.externals);
  h := h (Externals := interval.externals);
  inradius := inradius (Externals := interval.externals);
  dmin := Z.min;
  dmax := Z.max;
  uninitialised _ := PrimFloat.nan
|}.

Import PrimFloat.

Definition one : float := 1%float.
Definition ten : float := 10%float.
Definition tenth : float := (1 / 10)%float.

(** The largest [double] below 1. *)
Definition below_one : float := 0x1.fffffffffffffp-1%float.

Definition coeffs : Array2 float := mkArray2 0 [[]; []].

Definition fresh_state : state float Z := mkState interval.fresh_mesh [].

(** A kernel that adds one tenth to the accumulator. *)
Definition add_tenth : kernel float Z := λ value _, (value + tenth)%float.

(** Ten active cells. *)
Definition ten_cells : list Z := [0; 1; 0; 1; 0; 1; 0; 1; 0; 1].
End doubles.

(** * More of [Mesh.cpp] *)

(** [Mesh::num_entities_global]: here a missing index map trips an
    assertion, where [num_entities] throws. *)
Definition num_entities_global {double} (mesh : Mesh double) (dim : Z)
  : result Z :=
  map ← non_null (index_map (topology mesh) dim) "_topology->index_map(dim)";
  check (bool_decide (block_size map = 1))
        "_topology->index_map(dim)->block_size() == 1";;
  mret (size_global map).

(** [std::size_t] is an unsigned type of [size_bits] bits: sums and products
    are taken modulo [2 ^ size_bits]. *)
Definition size_t (size_bits z : Z) : Z := z mod 2 ^ size_bits.

Section hash.
(** [Topology::hash], [Geometry::hash] and [common::hash_global] are not
    among the sources: any functions will do. *)
Context {double : Type} (size_bits : Z).
Context (Topology_hash : Topology → Z) (Geometry_hash : Geometry double → Z).
Context (hash_global : Z → Z).

(** [(kt + kg) * (kt + kg + 1) / 2 + kg] in [std::size_t]. *)
Definition cantor_pairing (kt kg : Z) : Z :=
  let sum := size_t size_bits (kt + kg) in
  let product := size_t size_bits (sum * size_t size_bits (sum + 1)) in
  size_t size_bits (product / 2 + kg).

(** No intermediate result of the pairing of [kt] and [kg] wraps around. *)
Definition pairing_fits (kt kg : Z) : Prop :=
  0 ≤ kt ∧ 0 ≤ kg
  ∧ kt + kg + 1 < 2 ^ size_bits
  ∧ (kt + kg) * (kt + kg + 1) < 2 ^ size_bits.

Definition hash (mesh : Mesh double) : Z :=
  (* Get local hashes *)
  let kt_local := Topology_hash (topology mesh) in
  let kg_local := Geometry_hash (geometry mesh) in
  (* Compute global hash *)
  let kt := hash_global kt_local in
  let kg := hash_global kg_local in
  (* Compute hash based on the Cantor pairing function *)
  cantor_pairing kt kg.
End hash.

(** * Notions used to state more properties of the mesh *)

(** [t'] has the dimension of [t] and caches a connectivity or an index
    map wherever [t] does. *)
Definition keeps (t t' : Topology) : Prop :=
  topology_dim t' = topology_dim t
  ∧ (∀ d0 d1, is_Some (connectivity t d0 d1)
              → is_Some (connectivity t' d0 d1))
  ∧ (∀ d, is_Some (index_map t d) → is_Some (index_map t' d)).

(** The entities that are cached are counted: with the connectivity to the
    vertices comes the index map. *)
Definition entities_counted (t : Topology) : Prop :=
  ∀ d, is_Some (connectivity t d 0) → is_Some (index_map t d).

Section mesh_notions.
Context {T double : Type} `{!Externals T double}.

(** What [create_connectivity_all] leaves as the topology. *)
Definition connectivity_all_created (t : Topology) : Topology :=
  let dims := seqZ 0 (topology_dim t + 1) in
  foldl (λ t d0, foldl (λ t d1, connectivity_created d0 d1 t) t dims)
        (foldl (λ t d, entities_created d t) t dims) dims.
End mesh_notions.

(** * Notions used to state more properties of the assemblers *)

Section assembly_notions.
Context {T double : Type} `{!Scalar T} `{!Externals T double}.

(** What the kernel call made for the exterior facet [facet] carries: the
    data of the one cell the facet belongs to, the position of the facet
    among the facets of this cell, and the permutation byte read at this
    position. *)
Definition exterior_call_spec (g : Geometry double) (num_dofs_g : Z)
    (perms : list (list Z)) (cell_info : list Z)
    (f_to_c c_to_f : AdjacencyList) (coeffs : Array2 T)
    (constant_values : list T) (facet : Z) (a : call T double) : Prop :=
  ∃ cell facets x_dofs perm,
    links f_to_c facet = inr [cell]
    ∧ links c_to_f cell = inr facets
    ∧ facets !! Z.to_nat (std_find facets facet) = Some facet
    ∧ links (dofmap g) cell = inr x_dofs
    ∧ coordinate_rows g num_dofs_g x_dofs = inr (call_coordinate_dofs a)
    ∧ row coeffs cell = inr (call_w a)
    ∧ call_c a = constant_values
    ∧ call_local_facet a = Some [std_find facets facet]
    ∧ at2 perms (std_find facets facet) cell = inr perm
    ∧ call_perm a = Some [perm]
    ∧ at_ cell_info cell = inr (call_cell_permutation a).

(** The sizes of what a kernel call carries: [n] coordinate rows of [gdim]
    entries each, the constants, and [facets] local facet indices and
    permutation bytes (for a cell integral both pointers are null). *)
Definition call_shape (n gdim : Z) (facets : nat) (constant_values : list T)
    (a : call T double) : Prop :=
  Z.of_nat (length (call_coordinate_dofs a)) = n
  ∧ Forall (λ r, Z.of_nat (length r) = gdim) (call_coordinate_dofs a)
  ∧ call_c a = constant_values
  ∧ match facets with
    | O => call_local_facet a = None ∧ call_perm a = None
    | _ => ∃ local_facet perm,
             call_local_facet a = Some local_facet
             ∧ call_perm a = Some perm
             ∧ length local_facet = facets ∧ length perm = facets
    end.

(** The coordinates of the call made for the interior facet [f]: the rows of
    its first cell, then, from row [num_dofs_g] on, the rows of its second
    cell. *)
Definition interior_coordinates_spec (g : Geometry double) (num_dofs_g : Z)
    (f_to_c : AdjacencyList) (f : Z) (a : call T double) : Prop :=
  ∃ cell0 cell1 x_dofs0 x_dofs1 rows0 rows1,
    links f_to_c f = inr [cell0; cell1]
    ∧ links (dofmap g) cell0 = inr x_dofs0
    ∧ links (dofmap g) cell1 = inr x_dofs1
    ∧ coordinate_rows g num_dofs_g x_dofs0 = inr rows0
    ∧ coordinate_rows g num_dofs_g x_dofs1 = inr rows1
    ∧ Z.of_nat (length rows0) = num_dofs_g
    ∧ call_coordinate_dofs a = rows0 ++ rows1.

(** [s'] is a later state of the assembly that [s] is a state of: the same
    geometry, a topology that caches everything it did, and a longer log. *)
Definition extends (s s' : state T double) : Prop :=
  geometry (st_mesh s') = geometry (st_mesh s)
  ∧ grows (topology (st_mesh s)) (topology (st_mesh s'))
  ∧ st_calls s `prefix_of` st_calls s'.

(** A computation that, whatever its outcome, leaves a later state. *)
Definition extending {A} (m : M (state T double) A) : Prop :=
  ∀ s, cache_consistent (topology (st_mesh s)) → extends s (m s).2.

(** The integrals of a form as [assemble_scalar] visits them, each as the
    call of its assembler. *)
Definition integral_runs (F : Form T double) (constant_values : list T)
  : list (M (state T double) T) :=
  ((λ integral, assemble_cells integral.2 integral.1 (pack_coefficients F)
                  constant_values) <$> cell_integrals F)
  ++ ((λ integral, assemble_exterior_facets integral.2 integral.1
                     (pack_coefficients F) constant_values)
        <$> exterior_facet_integrals F)
  ++ ((λ integral, assemble_interior_facets integral.2 integral.1
                     (pack_coefficients F) (coefficients_offsets F)
                     constant_values)
        <$> interior_facet_integrals F).

(** The sum, from [value] on, of what the runs return when each is started
    in the state [s]; the first failure ends it. *)
Definition sum_from (s : state T double) (value : T)
    (runs : list (M (state T double) T)) : result T :=
  fold_result (λ value run, v ← (run s).1; mret (add value v)) value runs.
End assembly_notions.

(** * [function/FunctionSpace.cpp] *)

(** ** Collaborators outside the sources

    [fem::FiniteElement], [fem::DofMap] and [fem::CoordinateElement] are
    used by the function space but are not part of the sources.  What they
    answer is left open: the operations the code calls on them are the
    fields of a class, and each may fail. *)
Class SpaceExternals (double Element DofMap : Type) : Type := {
  (* [FiniteElement::extract_sub_element(component)] *)
  extract_sub_element : Element → list Z → result Element;
  (* [DofMap::extract_sub_dofmap(component)] *)
  extract_sub_dofmap : DofMap → list Z → result DofMap;
  (* [DofMap::collapse(comm, topology)] *)
  dofmap_collapse : DofMap → Topology → result (DofMap * list Z);
  (* the member [DofMap::index_map] *)
  dofmap_index_map : DofMap → option IndexMap;
  (* [DofMap::cell_dofs(c)] *)
  cell_dofs : DofMap → Z → result (list Z);
  (* [FiniteElement::dof_reference_coordinates()] *)
  dof_reference_coordinates : Element → list (list double);
  (* [FiniteElement::space_dimension()] *)
  space_dimension : Element → Z;
  (* [CoordinateElement::push_forward(x, X, cell_geometry)] for the
     coordinate map of a geometry: the rows it leaves in [x] *)
  push_forward : Geometry double → list (list double) → list (list double)
                 → result (list (list double));
  (* the [double] 0.0 *)
  dzero : double
}.

(** A [std::shared_ptr<FunctionSpace>] or [std::weak_ptr<FunctionSpace>]
    is the address of the object it refers to. *)
Definition addr : Type := nat.

(** The members of a [FunctionSpace], as its constructor and member
    functions use them.  The mesh, the element and the dofmap are shared
    and only read here, so the pointers to them are the values pointed to
    (null is [None]).  [_subspaces] is the cache of [sub]: it maps a
    component to a weak pointer. *)
Record FunctionSpace (double Element DofMap : Type) : Type :=
  mkFunctionSpace {
    _mesh : option (Mesh double);
    _element : option Element;
    _dofmap : option DofMap;
    _id : Z;
    _root_space_id : Z;
    _component : list Z;
    _subspaces : gmap (list Z) addr
  }.
Global Arguments mkFunctionSpace {double Element DofMap}.
Global Arguments _mesh {double Element DofMap}.
Global Arguments _element {double Element DofMap}.
Global Arguments _dofmap {double Element DofMap}.
Global Arguments _id {double Element DofMap}.
Global Arguments _root_space_id {double Element DofMap}.
Global Arguments _component {double Element DofMap}.
Global Arguments _subspaces {double Element DofMap}.

(** The function spaces that are alive (owned by some shared pointer), the
    addresses handed out so far (none is used twice) and the counter of
    [common::UniqueIdGenerator]. *)
Record store (double Element DofMap : Type) : Type := mkStore {
  spaces : gmap addr (FunctionSpace double Element DofMap);
  allocated : addr;
  next_id : Z
}.
Global Arguments mkStore {double Element DofMap}.
Global Arguments spaces {double Element DofMap}.
Global Arguments allocated {double Element DofMap}.
Global Arguments next_id {double Element DofMap}.

Section function_space.
Context {double Element DofMap : Type}.
Context `{!SpaceExternals double Element DofMap}.
Implicit Types (V : FunctionSpace double Element DofMap).
Implicit Types (s : store double Element DofMap).

(** [common::UniqueIdGenerator::id()] is not among the sources; it hands
    out the value of a counter and advances the counter. *)
Definition UniqueIdGenerator_id : M (store double Element DofMap) Z :=
  λ s, (inr (next_id s), mkStore (spaces s) (allocated s) (next_id s + 1)).

(** [*p] for a shared pointer to a function space. *)
Definition deref (p : addr)
  : M (store double Element DofMap) (FunctionSpace double Element DofMap) :=
  λ s, (defined (spaces s !! p), s).

(** [w.lock()]: the shared pointer, or null once the object is gone. *)
Definition lock (w : addr) : M (store double Element DofMap) (option addr) :=
  λ s, (inr (if decide (is_Some (spaces s !! w)) then Some w else None), s).

(** An assignment to members of [*p]. *)
Definition update (p : addr)
    (f : FunctionSpace double Element DofMap
         → FunctionSpace double Element DofMap)
  : M (store double Element DofMap) unit :=
  modify (λ s, mkStore (alter f p (spaces s)) (allocated s) (next_id s)).

(** The last owner of [*p] lets go of it. *)
Definition expire (p : addr) s : store double Element DofMap :=
  mkStore (delete p (spaces s)) (allocated s) (next_id s).

(** A new object, at an address that was never used. *)
Definition new_space V : M (store double Element DofMap) addr :=
  λ s, (inr (allocated s),
        mkStore (<[allocated s := V]> (spaces s)) (S (allocated s))
                (next_id s)).

(** [std::make_shared<FunctionSpace>(mesh, element, dofmap)]: the
    constructor draws the id, which is also the root space id; the component
    and the cache start empty. *)
Definition make_shared_FunctionSpace (mesh : option (Mesh double))
    (element : option Element) (dofmap : option DofMap)
  : M (store double Element DofMap) addr :=
  id ← UniqueIdGenerator_id;
  new_space (mkFunctionSpace mesh element dofmap id id [] ∅).

(** [m.insert(std::pair(k, v))] for a [std::map]: a key that is present
    keeps its value. *)
Definition map_insert {K A} `{Countable K} (k : K) (v : A) (m : gmap K A)
  : gmap K A :=
  match m !! k with Some _ => m | None => <[k := v]> m end.

Definition set_root_and_component (root : Z) (component : list Z) V
  : FunctionSpace double Element DofMap :=
  mkFunctionSpace (_mesh V) (_element V) (_dofmap V) (_id V)
                  root component (_subspaces V).

Definition cache_subspace (component : list Z) (sub_space : addr) V
  : FunctionSpace double Element DofMap :=
  mkFunctionSpace (_mesh V) (_element V) (_dofmap V) (_id V)
                  (_root_space_id V) (_component V)
                  (map_insert component sub_space (_subspaces V)).

Definition sub (this : addr) (component : list Z)
  : M (store double Element DofMap) addr :=
  V ← deref this;
  lift (check (bool_decide (is_Some (_mesh V))) "_mesh");;
  element ← lift (non_null (_element V) "_element");
  dofmap ← lift (non_null (_dofmap V) "_dofmap");
  (* Check if sub space is already in the cache and not expired *)
  cached ← match _subspaces V !! component with
           | Some it => lock it
           | None => mret None
           end;
  match cached with
  | Some s => mret s
  | None =>
      (* Extract sub-element *)
      element ← lift (extract_sub_element element component);
      (* Extract sub dofmap *)
      dofmap ← lift (extract_sub_dofmap dofmap component);
      (* Create new sub space *)
      sub_space ← make_shared_FunctionSpace (_mesh V) (Some element)
                    (Some dofmap);
      (* Set root space id and component w.r.t. root *)
      update sub_space
        (set_root_and_component (_root_space_id V)
           (_component V ++ component));;
      (* Insert new subspace into cache *)
      update this (cache_subspace (_component V ++ component) sub_space);;
      mret sub_space
  end.

Definition collapse (this : addr)
  : M (store double Element DofMap) (addr * list Z) :=
  V ← deref this;
  if decide (_component V = [])
  then lift (raise (runtime_error "Function space is not a subspace"))
  else
    (* Create collapsed DofMap *)
    dofmap ← lift (defined (_dofmap V));
    mesh ← lift (defined (_mesh V));
    collapsed ← lift (dofmap_collapse dofmap (topology mesh));
    (* Create new FunctionSpace and return *)
    collapsed_sub_space ← make_shared_FunctionSpace (_mesh V) (_element V)
                            (Some collapsed.1);
    mret (collapsed_sub_space, collapsed.2).

(** The loop of [contains]: it returns [false] at the first position where
    the components differ. *)
Fixpoint leading_components (component V_component : list Z)
    (indices : list Z) : result bool :=
  match indices with
  | [] => mret true
  | i :: indices' =>
      a ← at_ component i;
      b ← at_ V_component i;
      if decide (a ≠ b) then mret false
      else leading_components component V_component indices'
  end.

Definition contains (this V : FunctionSpace double Element DofMap)
  : result bool :=
  (* Is the root space same? *)
  if decide (_root_space_id this ≠ _root_space_id V) then mret false
  (* Is V possibly our superspace? *)
  else if decide (length (_component V) < length (_component this))%nat
  then mret false
  (* Are our components same as leading components of V? *)
  else leading_components (_component this) (_component V)
         (seqZ 0 (Z.of_nat (length (_component this)))).

(** [Eigen::Array<double, Dynamic, 3>::Zero(rows, cols)] *)
Definition Zero (rows cols : Z) : result (list (list double)) :=
  if decide (0 ≤ rows ∧ 0 ≤ cols)
  then inr (replicate (Z.to_nat rows) (replicate (Z.to_nat cols) dzero))
  else inl undefined_behaviour.

(** [x.row(dof).head(gdim) = src]: the two sides have [gdim] entries. *)
Definition set_row_head (x : list (list double)) (dof gdim : Z)
    (src : list double) : result (list (list double)) :=
  r ← at_ x dof;
  if decide (Z.of_nat (length src) = gdim)
  then r' ← set_segment r 0 src; mret (<[Z.to_nat dof := r']> x)
  else inl undefined_behaviour.

(** The body of the loop over the cells of [tabulate_dof_coordinates]. *)
Definition tabulate_cell (g : Geometry double) (num_dofs_g : Z)
    (X : list (list double)) (V_dofmap : DofMap)
    (x : list (list double)) (c : Z) : result (list (list double)) :=
  (* Update cell *)
  x_dofs ← links (dofmap g) c;
  coordinate_dofs ← coordinate_rows g num_dofs_g x_dofs;
  (* Get local-to-global map *)
  dofs ← cell_dofs V_dofmap c;
  (* Tabulate dof coordinates on cell *)
  coordinates ← push_forward g X coordinate_dofs;
  (* Copy dof coordinates into vector *)
  fold_result (λ x i, dof ← at_ dofs i;
                      r ← at_ coordinates i;
                      set_row_head x dof (geometry_dim g) r)
              x (seqZ 0 (Z.of_nat (length dofs))).

Definition tabulate_dof_coordinates V : result (list (list double)) :=
  (* Geometric dimension *)
  mesh ← non_null (_mesh V) "_mesh";
  element ← non_null (_element V) "_element";
  let gdim := geometry_dim (geometry mesh) in
  let tdim := topology_dim (topology mesh) in
  if decide (_component V ≠ [])
  then raise (runtime_error
    "Cannot tabulate coordinates for a FunctionSpace that is a subspace.")
  else
    (* Get local size *)
    V_dofmap ← non_null (_dofmap V) "_dofmap";
    V_index_map ← non_null (dofmap_index_map V_dofmap) "index_map";
    let bs := block_size V_index_map in
    let local_size :=
      bs * (size_local V_index_map + num_ghosts V_index_map) in
    (* Dof coordinate on reference element *)
    let X := dof_reference_coordinates element in
    (* Prepare cell geometry *)
    let x_dofmap := dofmap (geometry mesh) in
    num_dofs_g ← num_links x_dofmap 0;
    (* Array to hold coordinates to return *)
    x ← Zero local_size 3;
    (* Loop over cells and tabulate dofs *)
    allocate (space_dimension element) gdim;;
    allocate num_dofs_g gdim;;
    map ← non_null (index_map (topology mesh) tdim) "map";
    let num_cells := size_local map + num_ghosts map in
    fold_result (tabulate_cell (geometry mesh) num_dofs_g X V_dofmap)
                x (seqZ 0 num_cells).
End function_space.

(** ** Notions used to state the properties of function spaces *)

Section space_notions.
Context {double Element DofMap : Type}.

(** Addresses and ids in use are below the marks of the store; a cache
    entry refers to an address that was handed out, and when the space at
    this address is alive, it has the mesh and the root of the caching space
    and the component it is filed under, which extends the component of the
    caching space. *)
Definition store_wf (s : store double Element DofMap) : Prop :=
  ∀ a V, spaces s !! a = Some V →
    (a < allocated s)%nat ∧ _id V < next_id s ∧ _root_space_id V < next_id s
    ∧ ∀ k w, _subspaces V !! k = Some w →
        (w < allocated s)%nat
        ∧ ∀ W, spaces s !! w = Some W →
            _mesh W = _mesh V ∧ _root_space_id W = _root_space_id V
            ∧ _component W = k ∧ _component V `prefix_of` k.

(** The space [sub] creates for [component] from the space [V], given the
    sub-element and the sub-dofmap. *)
Definition sub_space_of (V : FunctionSpace double Element DofMap)
    (component : list Z) (element : Element) (dofmap : DofMap) (id : Z)
  : FunctionSpace double Element DofMap :=
  mkFunctionSpace (_mesh V) (Some element) (Some dofmap) id
                  (_root_space_id V) (_component V ++ component) ∅.

(** The store after [sub] has made this space at the next address and
    filed it in the cache of [this]. *)
Definition with_sub_space (this : addr)
    (V : FunctionSpace double Element DofMap)
    (component : list Z) (element : Element) (dofmap : DofMap)
    (s : store double Element DofMap) : store double Element DofMap :=
  mkStore (<[this := cache_subspace (_component V ++ component)
                       (allocated s) V]>
             (<[allocated s := sub_space_of V component element dofmap
                                 (next_id s)]> (spaces s)))
          (S (allocated s)) (next_id s + 1).
End space_notions.

Section coordinate_notions.
Context {double Element DofMap : Type}.
Context `{!SpaceExternals double Element DofMap}.

(** A row of tabulated coordinates: three entries, zero from position
    [gdim] on. *)
Definition padded (gdim : Z) (r : list double) : Prop :=
  length r = 3%nat
  ∧ ∀ j : nat, (Z.to_nat gdim ≤ j < 3)%nat → r !! j = Some dzero.

(** The row [r] of [dof] was written for cell [c]: [dof] is the dof at some
    position [i] of the cell, and the first [gdim] entries of the row are
    row [i] of what the coordinate map yields for the coordinates of the
    cell. *)
Definition tabulated_for (g : Geometry double) (num_dofs_g : Z)
    (X : list (list double)) (V_dofmap : DofMap) (c dof : Z)
    (r : list double) : Prop :=
  ∃ (i : nat) x_dofs coordinate_dofs dofs coordinates,
    links (dofmap g) c = inr x_dofs
    ∧ coordinate_rows g num_dofs_g x_dofs = inr coordinate_dofs
    ∧ cell_dofs V_dofmap c = inr dofs
    ∧ push_forward g X coordinate_dofs = inr coordinates
    ∧ dofs !! i = Some dof
    ∧ coordinates !! i = Some (take (Z.to_nat (geometry_dim g)) r).

(** The store after [collapse] has made the collapsed space. *)
Definition with_collapsed (V : FunctionSpace double Element DofMap)
    (collapsed_dofmap : DofMap) (s : store double Element DofMap)
  : store double Element DofMap :=
  mkStore (<[allocated s :=
               mkFunctionSpace (_mesh V) (_element V) (Some collapsed_dofmap)
                               (next_id s) (next_id s) [] ∅]> (spaces s))
          (S (allocated s)) (next_id s + 1).
End coordinate_notions.

(** ** Function spaces to run the code on

    A space on the two-interval mesh with two components.  An element or a
    dofmap is named by the path of sub-element numbers that leads to it from
    the root space; there are sub-elements 0 and 1 at every level.  The
    dofs are the three vertices, and the coordinate map is the identity. *)
Module mixed.
Definition sub_path (path component : list Z) : result (list Z) :=
  if decide (Forall (λ i, 0 ≤ i < 2) component) then inr (path ++ component)
  else inl (runtime_error "no such sub-element").

Global Instance space_externals : SpaceExternals Z (list Z) (list Z) := {|
  extract_sub_element := sub_path;
  extract_sub_dofmap := sub_path;
  dofmap_collapse _ _ := inr ([], [0; 1; 2]);
  dofmap_index_map _ := Some (mkIndexMap 3 0 3 1);
  cell_dofs _ c := at_ interval.cell_vertex c;
  dof_reference_coordinates _ := [[0]; [1]];
  space_dimension _ := 2;
  push_forward _ _ coordinate_dofs := inr coordinate_dofs;
  dzero := 0
|}.

(** The root space, alone in the store. *)
Definition root_space : FunctionSpace Z (list Z) (list Z) :=
  mkFunctionSpace (Some interval.fresh_mesh) (Some []) (Some []) 0 0 [] ∅.
Definition root_store : store Z (list Z) (list Z) :=
  mkStore (<[0%nat := root_space]> ∅) 1%nat 1.

(** The store after [sub({1})] on the root space, and the same store once
    the subspace has expired. *)
Definition sub_store : store Z (list Z) (list Z) :=
  with_sub_space 0%nat root_space [1] [1] [1] root_store.
Definition expired_store : store Z (list Z) (list Z) :=
  expire 1%nat sub_store.
End mixed.
(** * Properties *)

(** ** The monad *)

Lemma bind_run {S A B} (m : M S A) (f : A → M S B) (s : S) :
  (m ≫= f) s
  = match m s with (inl e, s') => (inl e, s') | (inr a, s') => f a s' end.
Proof. reflexivity. Qed.

(** Runs the monadic plumbing of a goal [m s = _]. *)
Ltac run_M :=
  unfold mbind, mret, M_bind, M_ret, get, modify, lift; simpl.

Lemma result_bind_inr {A B} (a : A) (f : A → result B) : (inr a ≫= f) = f a.
Proof. reflexivity. Qed.

Lemma result_bind_ret {A B} (a : A) (f : A → result B) : (mret a ≫= f) = f a.
Proof. reflexivity. Qed.

(** Runs the successful steps at the head of a [result] computation. *)
Ltac run_result :=
  repeat first [rewrite result_bind_inr | rewrite result_bind_ret
               | progress cbv beta].

(** ** [Mesh::num_entities] *)

Lemma int32_t_range (z : Z) : - 2 ^ 31 ≤ int32_t z < 2 ^ 31.
Proof. unfold int32_t. pose proof (Z.mod_pos_bound (z + 2 ^ 31) (2 ^ 32)). lia. Qed.

Lemma int32_t_small (z : Z) : - 2 ^ 31 ≤ z < 2 ^ 31 → int32_t z = z.
Proof. intros Hz. unfold int32_t. rewrite Z.mod_small; lia. Qed.

Section num_entities.
Context {double : Type}.
Implicit Types (mesh : Mesh double) (d : Z).

Lemma num_entities_missing mesh d :
  index_map (topology mesh) d = None →
  num_entities mesh d
  = inl (runtime_error
      ("Cannot get number of mesh entities. Have not been created for dimension "
         +:+ pretty d +:+ ".")).
Proof. intros Hd. unfold num_entities. by rewrite Hd. Qed.

Lemma num_entities_wraps mesh d map :
  index_map (topology mesh) d = Some map →
  block_size map = 1 →
  num_entities mesh d = inr (int32_t (size_local map + num_ghosts map)).
Proof.
  intros Hd Hbs. unfold num_entities. rewrite Hd, Hbs.
  by rewrite bool_decide_eq_true_2.
Qed.

Lemma num_entities_present mesh d map :
  index_map (topology mesh) d = Some map →
  block_size map = 1 →
  - 2 ^ 31 ≤ size_local map + num_ghosts map < 2 ^ 31 →
  num_entities mesh d = inr (size_local map + num_ghosts map).
Proof.
  intros Hd Hbs Hsum. rewrite (num_entities_wraps mesh d map Hd Hbs).
  by rewrite int32_t_small.
Qed.

Lemma num_entities_int32 mesh d (n : Z) :
  num_entities mesh d = inr n → - 2 ^ 31 ≤ n < 2 ^ 31.
Proof.
  unfold num_entities. destruct (index_map (topology mesh) d) as [map|]; [|done].
  destruct (check _ _); [done|]. intros [= <-]. apply int32_t_range.
Qed.
End num_entities.

(** C8, as the code has it.  Without an index map for dimension [d],
    [num_entities d] throws a runtime error whose message ends with the
    decimal rendering of [d].  With an index map of block size 1, the block
    size the code asserts, it returns [size_local + num_ghosts] of that map
    whenever this sum is a [std::int32_t] value; the value it returns is
    always one, namely the sum as [std::int32_t] holds it. *)
Theorem num_entities_spec {double} (mesh : Mesh double) (d : Z) :
  (index_map (topology mesh) d = None →
   num_entities mesh d
   = inl (runtime_error
       ("Cannot get number of mesh entities. Have not been created for dimension "
          +:+ pretty d +:+ "."))) ∧
  (∀ map, index_map (topology mesh) d = Some map → block_size map = 1 →
          - 2 ^ 31 ≤ size_local map + num_ghosts map < 2 ^ 31 →
          num_entities mesh d = inr (size_local map + num_ghosts map)) ∧
  (∀ map, index_map (topology mesh) d = Some map → block_size map = 1 →
          num_entities mesh d
          = inr (int32_t (size_local map + num_ghosts map))) ∧
  (∀ n, num_entities mesh d = inr n → - 2 ^ 31 ≤ n < 2 ^ 31).
Proof.
  split; [apply num_entities_missing|].
  split; [apply num_entities_present|].
  split; [apply num_entities_wraps | apply num_entities_int32].
Qed.

Lemma num_entities_spec_witness :
  num_entities interval.fresh_mesh 2
  = inl (runtime_error
      "Cannot get number of mesh entities. Have not been created for dimension 2.")
  ∧ num_entities interval.fresh_mesh 0 = inr 3.
Proof.
  split.
  - apply (proj1 (num_entities_spec interval.fresh_mesh 2)). reflexivity.
  - apply (proj1 (proj2 (num_entities_spec interval.fresh_mesh 0))
             (mkIndexMap 3 0 3 1)); [reflexivity|reflexivity|simpl; lia].
Defined.

(** C8 as stated fails: the index map of dimension 1 exists, with block size
    1, 2147483647 owned cells and one ghost cell, yet the call does not return
    [size_local + num_ghosts]: the sum is not a [std::int32_t] value. *)
Lemma num_entities_overflow_counterexample :
  index_map (topology interval.crowded_mesh) 1
  = Some (mkIndexMap 2147483647 1 2147483648 1)
  ∧ num_entities interval.crowded_mesh 1 = inr (-2147483648)
  ∧ num_entities interval.crowded_mesh 1 ≠ inr (2147483647 + 1).
Proof.
  split; [reflexivity | split; [reflexivity|]].
  intros H. vm_compute in H. discriminate H.
Qed.

(** ** Extremal cell sizes *)

Section metrics.
Context {T double : Type} `{!Externals T double}.
Implicit Types (mesh : Mesh double).

Lemma cell_h_empty mesh :
  num_entities mesh (topology_dim (topology mesh)) = inr 0 →
  cell_h mesh = inl (runtime_error "Cannot compute h min/max. No cells.").
Proof. intros Hn. unfold cell_h. by rewrite Hn. Qed.

Lemma cell_r_empty mesh :
  num_entities mesh (topology_dim (topology mesh)) = inr 0 →
  cell_r mesh
  = inl (runtime_error "Cannnot compute inradius min/max. No cells.").
Proof. intros Hn. unfold cell_r. by rewrite Hn. Qed.

Lemma cell_h_cells mesh n :
  num_entities mesh (topology_dim (topology mesh)) = inr n → 0 < n →
  cell_h mesh = inr (h mesh (seqZ 0 n) (topology_dim (topology mesh))).
Proof.
  intros Hn Hpos. unfold cell_h, iota. rewrite Hn, result_bind_inr.
  rewrite decide_False by lia. by rewrite decide_True by lia.
Qed.

Lemma cell_r_cells mesh n :
  num_entities mesh (topology_dim (topology mesh)) = inr n → 0 < n →
  cell_r mesh = inr (inradius mesh (seqZ 0 n)).
Proof.
  intros Hn Hpos. unfold cell_r, iota. rewrite Hn, result_bind_inr.
  rewrite decide_False by lia. by rewrite decide_True by lia.
Qed.
End metrics.



(** ** [Mesh::create_entities] *)

Section create_entities.
Context {T double : Type} `{!Externals T double}.
Implicit Types (mesh : Mesh double) (d dim : Z).

Lemma create_entities_present mesh dim :
  is_Some (connectivity (topology mesh) dim 0) →
  create_entities dim mesh = (inr (-1), mesh).
Proof.
  intros Hc. unfold create_entities. rewrite bind_run. simpl.
  by rewrite decide_True.
Qed.

Lemma create_entities_absent mesh dim :
  connectivity (topology mesh) dim 0 = None →
  create_entities dim mesh
  = (inr (size_local (index_map_of (topology_base (topology mesh)) dim)),
     mkMesh (with_entities dim (topology mesh)) (geometry mesh)).
Proof.
  intros Hc. unfold create_entities. rewrite bind_run. simpl.
  rewrite decide_False by (rewrite Hc; by intros [? ?]).
  reflexivity.
Qed.

Lemma with_entities_connectivity dim t :
  is_Some (connectivity (with_entities dim t) dim 0).
Proof.
  unfold with_entities, connectivity. simpl.
  rewrite lookup_insert_eq. eauto.
Qed.
End create_entities.

(** C6.  When connectivity (d, 0) exists, [create_entities d] returns -1 and
    changes nothing.  Otherwise it stores the computed (tdim, d) and (d, 0)
    adjacency and the index map of dimension [d], in that order, and returns
    the local size of that index map.  In both cases a second call returns -1
    and leaves the mesh exactly as the first call left it. *)
Theorem create_entities_idempotent {T double} `{!Externals T double}
    (mesh : Mesh double) (d : Z) :
  let base := topology_base (topology mesh) in
  let first := create_entities d mesh in
  (is_Some (connectivity (topology mesh) d 0) → first = (inr (-1), mesh))
  ∧ (connectivity (topology mesh) d 0 = None →
     first.1 = inr (size_local (index_map_of base d))
     ∧ geometry first.2 = geometry mesh
     ∧ topology first.2
       = set_index_map d (index_map_of base d)
           (set_connectivity (connectivity_of base d 0) d 0
              (set_connectivity
                 (connectivity_of base (topology_dim (topology mesh)) d)
                 (topology_dim (topology mesh)) d (topology mesh))))
  ∧ create_entities d first.2 = (inr (-1), first.2).
Proof.
  intros base first. subst base first.
  destruct (connectivity (topology mesh) d 0) as [c|] eqn:Hc.
  - rewrite create_entities_present by (rewrite Hc; eauto).
    split; [done|]. split; [done|]. simpl.
    apply create_entities_present. rewrite Hc; eauto.
  - rewrite create_entities_absent by done.
    split; [by intros [? ?]|]. split; [done|]. simpl.
    apply create_entities_present. simpl. apply with_entities_connectivity.
Qed.

Lemma create_entities_idempotent_witness :
  create_entities 1 interval.fresh_mesh = (inr (-1), interval.fresh_mesh)
  ∧ (create_entities 0 interval.empty_mesh).1 = inr 3
  ∧ create_entities 0 (create_entities 0 interval.empty_mesh).2
    = (inr (-1), (create_entities 0 interval.empty_mesh).2).
Proof.
  pose proof (create_entities_idempotent interval.fresh_mesh 1) as (H1 & _ & _).
  pose proof (create_entities_idempotent interval.empty_mesh 0) as (_ & H2 & H3).
  split; [apply H1; vm_compute; eauto|].
  split; [apply (H2 eq_refl) | apply H3].
Defined.

(** ** [assemble_scalar]: the constants and the empty form *)

Section assemble_scalar.
Context {T double : Type} `{!Scalar T} `{!Externals T double}.
Implicit Types (F : Form T double) (s : state T double).

Lemma all_constants_set_false F name :
  (name, None) ∈ constants F → all_constants_set F = false.
Proof.
  intros Hin. unfold all_constants_set.
  apply not_true_is_false. rewrite forallb_forall. intros Hall.
  apply list_elem_of_In in Hin. specialize (Hall _ Hin). cbv beta in Hall.
  apply bool_decide_eq_true_1 in Hall. by destruct Hall.
Qed.

Lemma all_constants_set_true F :
  Forall (λ constant, is_Some constant.2) (constants F) →
  all_constants_set F = true.
Proof.
  intros Hall. unfold all_constants_set. apply forallb_forall.
  intros c Hin. apply bool_decide_eq_true_2.
  rewrite Forall_forall in Hall. apply Hall. by apply list_elem_of_In.
Qed.

Lemma constant_values_defined (cs : list (string * option (list T))) :
  Forall (λ constant, is_Some constant.2) cs →
  map_result (λ constant, defined constant.2) cs = inr (omap snd cs).
Proof.
  induction 1 as [|[name [v|]] cs Hc _ IH]; simpl; [done| |by destruct Hc].
  by rewrite IH.
Qed.

Lemma assemble_scalar_unset F s name :
  (name, None) ∈ constants F →
  assemble_scalar F s = (inl (runtime_error "Unset constant in Form"), s).
Proof.
  intros Hin. unfold assemble_scalar.
  by rewrite (all_constants_set_false F name Hin).
Qed.

Lemma assemble_scalar_set F s :
  Forall (λ constant, is_Some constant.2) (constants F) →
  assemble_scalar F s
  = assemble_integrals F (concat (omap snd (constants F))) s.
Proof.
  intros Hall. unfold assemble_scalar.
  rewrite (all_constants_set_true F Hall). simpl.
  rewrite bind_run. unfold lift.
  by rewrite (constant_values_defined _ Hall).
Qed.
End assemble_scalar.

(** C10.  A form without integrals of any kind whose constants are all set
    assembles to zero, and the state is untouched: no entity is created or
    visited and no kernel is called. *)
Theorem assemble_scalar_no_integrals {T double} `{!Scalar T}
    `{!Externals T double} (F : Form T double) (s : state T double) :
  Forall (λ constant, is_Some constant.2) (constants F) →
  cell_integrals F = [] →
  exterior_facet_integrals F = [] →
  interior_facet_integrals F = [] →
  assemble_scalar F s = (inr zero, s).
Proof.
  intros Hall Hc He Hi. rewrite assemble_scalar_set by done.
  unfold assemble_integrals. by rewrite Hc, He, Hi.
Qed.

(** ** The [create_*] operations never fail *)

Section create.
Context {T double : Type} `{!Externals T double}.
Implicit Types (mesh : Mesh double) (t : Topology) (d dim : Z).

Lemma create_entities_run mesh dim :
  ∃ n, create_entities dim mesh
       = (inr n, mkMesh (entities_created dim (topology mesh))
                        (geometry mesh)).
Proof.
  unfold entities_created.
  destruct (decide (is_Some (connectivity (topology mesh) dim 0))) as [Hc|Hc].
  - exists (-1). rewrite create_entities_present by done. by destruct mesh.
  - eexists. apply create_entities_absent.
    by apply eq_None_not_Some.
Qed.

Lemma entities_created_dim dim t :
  topology_dim (entities_created dim t) = topology_dim t.
Proof. unfold entities_created. by case_decide. Qed.

Lemma create_connectivity_run mesh d0 d1 :
  create_connectivity d0 d1 mesh
  = (inr (), mkMesh (connectivity_created d0 d1 (topology mesh))
                    (geometry mesh)).
Proof.
  unfold create_connectivity.
  destruct (create_entities_run mesh d0) as [n0 H0].
  rewrite bind_run, H0.
  destruct (create_entities_run
              (mkMesh (entities_created d0 (topology mesh)) (geometry mesh)) d1)
    as [n1 H1].
  rewrite bind_run, H1. simpl.
  unfold connectivity_created, connectivity_computed, compute_connectivity.
  set (t1 := entities_created d1 (entities_created d0 (topology mesh))).
  rewrite bind_run. simpl.
  destruct (connectivity t1 d0 d1) as [c|]; simpl.
  - unfold facets_flagged, modify_topology. run_M. by case_decide.
  - destruct (transposed_for_free d0 d1); simpl;
      unfold facets_flagged, modify_topology; run_M; by case_decide.
Qed.

Lemma create_all_entities_run mesh (l : list Z) :
  foldM (λ _ d, create_entities d;; mret ()) () l mesh
  = (inr (), mkMesh (foldl (λ t d, entities_created d t) (topology mesh) l)
                    (geometry mesh)).
Proof.
  revert mesh. induction l as [|d l IH]; intros mesh; simpl.
  - by destruct mesh.
  - destruct (create_entities_run mesh d) as [n Hn].
    rewrite bind_run, bind_run, Hn. simpl. by rewrite IH.
Qed.

Lemma create_entity_permutations_run mesh :
  create_entity_permutations mesh
  = (inr (), mkMesh (permutations_created (topology mesh)) (geometry mesh)).
Proof.
  unfold create_entity_permutations. rewrite bind_run. simpl.
  rewrite bind_run, create_all_entities_run. reflexivity.
Qed.
End create.

(** ** Reading arrays *)

Lemma at_inr {A} (v : list A) (i : Z) (a : A) :
  0 ≤ i → v !! Z.to_nat i = Some a → at_ v i = inr a.
Proof. intros Hi Hv. unfold at_. rewrite decide_True by done. by rewrite Hv. Qed.

Lemma at_inr_inv {A} (v : list A) (i : Z) (a : A) :
  at_ v i = inr a → 0 ≤ i ∧ v !! Z.to_nat i = Some a.
Proof.
  unfold at_. case_decide; [|done]. destruct (v !! Z.to_nat i); naive_solver.
Qed.

Lemma at_lt {A} (v : list A) (i : Z) :
  0 ≤ i → i < Z.of_nat (length v) → ∃ a, at_ v i = inr a.
Proof.
  intros Hi Hlt. destruct (lookup_lt_is_Some_2 v (Z.to_nat i)) as [a Ha]; [lia|].
  exists a. by apply at_inr.
Qed.

Lemma map_result_inr {A B} (f : A → result B) (l : list A) :
  (∀ a, a ∈ l → ∃ b, f a = inr b) → ∃ k, map_result f l = inr k.
Proof.
  induction l as [|a l IH]; intros Hf; simpl; [by eexists|].
  destruct (Hf a) as [b Hb]; [by left|]. rewrite Hb, result_bind_inr.
  destruct IH as [k Hk]; [intros; apply Hf; by right|].
  rewrite Hk. by eexists.
Qed.

Lemma elem_of_seqZ_0 (n i : Z) : i ∈ seqZ 0 n → 0 ≤ i < n.
Proof.
  intros Hin. apply list_elem_of_lookup in Hin as [j Hj].
  apply lookup_seqZ in Hj. lia.
Qed.

Lemma Forall2_left {A B} (R : A → B → Prop) (Q : A → Prop)
    (l : list A) (k : list B) :
  Forall2 R l k → (∀ a b, R a b → Q a) → Forall Q l.
Proof. induction 1; intros HQ; constructor; eauto. Qed.

(** ** Kernel loops *)

Section loops.
Context {T double : Type} `{!Scalar T} `{!Externals T double}.
Implicit Types (s : state T double) (fn : kernel T double).
Implicit Types (g : Geometry double).

(** A loop whose body gathers the arguments of one call and invokes the
    kernel: when every gather succeeds, the value is the kernel folded over
    the gathered arguments and each call is logged once, in order. *)
Lemma kernel_loop_inr {E} (gather : E → result (call T double)) fn
    (l : list E) (calls : list (call T double)) (value : T) s :
  Forall2 (λ e a, gather e = inr a) l calls →
  foldM (λ value e, a ← lift (gather e); invoke fn value a) value l s
  = (inr (foldl fn value calls), mkState (st_mesh s) (st_calls s ++ calls)).
Proof.
  intros Hall. revert value s.
  induction Hall as [|e a l calls He _ IH]; intros value s; simpl.
  - rewrite app_nil_r. by destruct s.
  - rewrite bind_run, bind_run. unfold lift at 1. rewrite He. simpl.
    rewrite IH. simpl. by rewrite <- app_assoc.
Qed.

(** The first entity whose gather fails ends the loop with that failure;
    the calls made before are logged, no value comes back. *)
Lemma kernel_loop_inl {E} (gather : E → result (call T double)) fn
    (l1 l2 : list E) (e : E) (err : exn)
    (calls : list (call T double)) (value : T) s :
  Forall2 (λ e a, gather e = inr a) l1 calls →
  gather e = inl err →
  foldM (λ value e, a ← lift (gather e); invoke fn value a)
        value (l1 ++ e :: l2) s
  = (inl err, mkState (st_mesh s) (st_calls s ++ calls)).
Proof.
  intros Hall Herr. revert value s.
  induction Hall as [|e1 a l calls He _ IH]; intros value s; simpl.
  - rewrite bind_run, bind_run. unfold lift at 1. rewrite Herr. simpl.
    rewrite app_nil_r. by destruct s.
  - rewrite bind_run, bind_run. unfold lift at 1. rewrite He. simpl.
    rewrite IH. simpl. by rewrite <- app_assoc.
Qed.

Lemma coordinate_rows_readable g (num_dofs_g : Z) (x_dofs : list Z) :
  coordinates_readable g num_dofs_g x_dofs →
  ∃ rows, coordinate_rows g num_dofs_g x_dofs = inr rows.
Proof.
  intros Hr. apply map_result_inr. intros i Hi%elem_of_seqZ_0.
  destruct (Hr i Hi) as (d & r & Hd & Hd0 & Hx & Hg).
  rewrite (at_inr _ _ _ (proj1 Hi) Hd), result_bind_inr.
  rewrite (at_inr _ _ _ Hd0 Hx), result_bind_inr.
  unfold head_, segment. rewrite decide_True by lia. by eexists.
Qed.

Lemma cell_arguments_readable g (num_dofs_g : Z) (cell_info : list Z)
    (coeffs : Array2 T) (constant_values : list T) (c : Z) :
  cell_readable g num_dofs_g cell_info coeffs c →
  ∃ a, cell_arguments g num_dofs_g cell_info coeffs constant_values c = inr a.
Proof.
  intros ((Hc & (x_dofs & Hx & Hr) & Hco) & Hci).
  unfold cell_arguments, links, row.
  rewrite (at_inr _ _ _ Hc Hx), result_bind_inr.
  destruct (coordinate_rows_readable _ _ _ Hr) as [xs ->].
  rewrite result_bind_inr.
  destruct (at_lt (rows coeffs) c Hc Hco) as [w ->].
  rewrite result_bind_inr.
  destruct (at_lt cell_info c Hc Hci) as [info ->].
  rewrite result_bind_inr. by eexists.
Qed.

Lemma gather_all {E} (gather : E → result (call T double)) (l : list E) :
  Forall (λ e, ∃ a, gather e = inr a) l →
  ∃ calls, Forall2 (λ e a, gather e = inr a) l calls.
Proof.
  induction 1 as [|e l [a Ha] _ [calls IH]].
  - by exists [].
  - exists (a :: calls). by constructor.
Qed.

(** The [create_*] calls of the cell assembler. *)
Lemma assemble_cells_run active_cells fn coeffs constant_values s :
  let mesh := mkMesh (cell_topology (topology (st_mesh s)))
                     (geometry (st_mesh s)) in
  assemble_cells active_cells fn coeffs constant_values s
  = cells_loop mesh active_cells fn coeffs constant_values
      (mkState mesh (st_calls s)).
Proof.
  intros mesh. unfold assemble_cells. rewrite bind_run. simpl.
  destruct (create_entities_run (st_mesh s)
              (topology_dim (topology (st_mesh s)))) as [n Hn].
  rewrite bind_run. unfold on_mesh at 1. rewrite Hn.
  rewrite bind_run. unfold on_mesh at 1.
  rewrite create_entity_permutations_run. simpl.
  rewrite bind_run. simpl. reflexivity.
Qed.

Lemma num_links_nonneg (g : AdjacencyList) (node n : Z) :
  num_links g node = inr n → 0 ≤ n.
Proof.
  unfold num_links. destruct (links g node); [done|].
  intros [= <-]. lia.
Qed.

Lemma allocate_inr (rows cols : Z) :
  0 ≤ rows → 0 ≤ cols → allocate rows cols = inr ().
Proof. intros. unfold allocate. by rewrite decide_True. Qed.

Lemma assemble_cells_inr active_cells fn coeffs constant_values s
    (num_dofs_g : Z) (calls : list (call T double)) :
  let g := geometry (st_mesh s) in
  let t := cell_topology (topology (st_mesh s)) in
  num_links (dofmap g) 0 = inr num_dofs_g →
  0 ≤ geometry_dim g →
  Forall2 (λ c a, cell_arguments g num_dofs_g (get_cell_permutation_info t)
                    coeffs constant_values c = inr a) active_cells calls →
  assemble_cells active_cells fn coeffs constant_values s
  = (inr (foldl fn zero calls), mkState (mkMesh t g) (st_calls s ++ calls)).
Proof.
  intros g t Hn Hg Hall. rewrite assemble_cells_run. fold g t.
  unfold cells_loop. simpl.
  rewrite bind_run. unfold lift at 1. rewrite Hn.
  rewrite bind_run. unfold lift at 1.
  rewrite allocate_inr by (done || by eapply num_links_nonneg).
  by rewrite (kernel_loop_inr _ fn active_cells calls).
Qed.
End loops.

Lemma foldl_add_constant (k : Z) {A} (l : list A) (v : Z) :
  foldl (λ value _, value + k) v l = v + k * Z.of_nat (length l).
Proof.
  revert v. induction l as [|a l IH]; intros v; simpl; [lia|].
  rewrite IH. lia.
Qed.

(** The cell loop is a running composition of kernel calls. *)
Lemma assemble_cells_running_sum {T double} `{!Scalar T} `{!Externals T double}
    (s : state T double) (active_cells : list Z) (fn : kernel T double)
    (coeffs : Array2 T) (constant_values : list T) (num_dofs_g : Z) :
  let g := geometry (st_mesh s) in
  let t := cell_topology (topology (st_mesh s)) in
  num_links (dofmap g) 0 = inr num_dofs_g →
  0 ≤ geometry_dim g →
  Forall (cell_readable g num_dofs_g (get_cell_permutation_info t) coeffs)
         active_cells →
  ∃ calls,
    Forall2 (λ c a, cell_arguments g num_dofs_g (get_cell_permutation_info t)
                      coeffs constant_values c = inr a) active_cells calls
    ∧ assemble_cells active_cells fn coeffs constant_values s
      = (inr (foldl fn zero calls), mkState (mkMesh t g) (st_calls s ++ calls)).
Proof.
  intros g t Hn Hg Hall.
  destruct (gather_all
              (cell_arguments g num_dofs_g (get_cell_permutation_info t)
                 coeffs constant_values) active_cells) as [calls Hcalls].
  { eapply Forall_impl; [exact Hall|].
    intros c Hc. by apply cell_arguments_readable. }
  exists calls. split; [done|].
  by apply (assemble_cells_inr _ _ _ _ _ num_dofs_g).
Qed.

Lemma assemble_cells_constant {double} `{!Externals Z double}
    (s : state Z double) (active_cells : list Z) (k : Z)
    (coeffs : Array2 Z) (constant_values : list Z) (num_dofs_g : Z) :
  let g := geometry (st_mesh s) in
  let t := cell_topology (topology (st_mesh s)) in
  num_links (dofmap g) 0 = inr num_dofs_g →
  0 ≤ geometry_dim g →
  Forall (cell_readable g num_dofs_g (get_cell_permutation_info t) coeffs)
         active_cells →
  ∃ calls,
    length calls = length active_cells
    ∧ assemble_cells active_cells (λ value _, value + k)
        coeffs constant_values s
      = (inr (k * Z.of_nat (length active_cells)),
         mkState (mkMesh t g) (st_calls s ++ calls)).
Proof.
  intros g t Hn Hg Hall.
  destruct (assemble_cells_running_sum s active_cells (λ value _, value + k)
              coeffs constant_values num_dofs_g Hn Hg Hall)
    as (calls & Hc & ->).
  apply Forall2_length in Hc. exists calls. split; [done|].
  simpl. rewrite foldl_add_constant. do 2 f_equal. rewrite Hc. lia.
Qed.

Lemma foldl_iter {A B} (f : B → B) (l : list A) (v : B) :
  foldl (λ value _, f value) v l = Nat.iter (length l) f v.
Proof.
  revert v. induction l as [|a l IH]; intros v; [done|].
  cbn [foldl length]. by rewrite IH, Nat.iter_succ_r.
Qed.

(** C1, as the code has it.  Let the coordinate map have a cell 0 and let
    every active cell be readable: it has a row in the coordinate map, in the
    coefficient array and in the cell permutation data.  Then the cell
    assembler gathers one argument record per entry of the active-cell list,
    in the order of the list, calls the kernel once with each, and returns
    the kernel folded over them from zero.  For a kernel that adds the
    constant [k] to the accumulator and [C] active cells this is the running
    sum of [C] terms [k], added one by one to zero in the arithmetic of the
    scalar type.  With integer scalars, whose sums are exact, it is exactly
    [k * C], and so is the result of [assemble_scalar] for a form whose only
    integral is this cell integral. *)
Theorem assemble_cells_constant_kernel :
  (∀ (T double : Type) (HS : Scalar T) (HE : Externals T double)
     (s : state T double) (active_cells : list Z) (fn : kernel T double)
     (coeffs : Array2 T) (constant_values : list T) (num_dofs_g : Z),
     let g := geometry (st_mesh s) in
     let t := cell_topology (topology (st_mesh s)) in
     num_links (dofmap g) 0 = inr num_dofs_g →
     0 ≤ geometry_dim g →
     Forall (cell_readable g num_dofs_g (get_cell_permutation_info t) coeffs)
            active_cells →
     ∃ calls,
       Forall2 (λ c a, cell_arguments g num_dofs_g
                         (get_cell_permutation_info t)
                         coeffs constant_values c = inr a) active_cells calls
       ∧ assemble_cells active_cells fn coeffs constant_values s
         = (inr (foldl fn zero calls),
            mkState (mkMesh t g) (st_calls s ++ calls)))
  ∧ (∀ (T double : Type) (HS : Scalar T) (HE : Externals T double)
       (s : state T double) (active_cells : list Z) (k : T)
       (coeffs : Array2 T) (constant_values : list T) (num_dofs_g : Z),
       let g := geometry (st_mesh s) in
       let t := cell_topology (topology (st_mesh s)) in
       num_links (dofmap g) 0 = inr num_dofs_g →
       0 ≤ geometry_dim g →
       Forall (cell_readable g num_dofs_g (get_cell_permutation_info t) coeffs)
              active_cells →
       (assemble_cells active_cells (λ value _, add value k)
          coeffs constant_values s).1
       = inr (Nat.iter (length active_cells) (λ value, add value k) zero))
  ∧ (∀ (double : Type) (HE : Externals Z double)
       (s : state Z double) (active_cells : list Z) (k : Z)
       (coeffs : Array2 Z) (constant_values : list Z) (num_dofs_g : Z),
       let g := geometry (st_mesh s) in
       let t := cell_topology (topology (st_mesh s)) in
       num_links (dofmap g) 0 = inr num_dofs_g →
       0 ≤ geometry_dim g →
       Forall (cell_readable g num_dofs_g (get_cell_permutation_info t) coeffs)
              active_cells →
       (assemble_cells active_cells (λ value _, value + k)
          coeffs constant_values s).1
       = inr (k * Z.of_nat (length active_cells)))
  ∧ (∀ (double : Type) (HE : Externals Z double)
       (F : Form Z double) (s : state Z double) (active_cells : list Z)
       (k : Z) (num_dofs_g : Z),
       let g := geometry (st_mesh s) in
       let t := cell_topology (topology (st_mesh s)) in
       Forall (λ constant, is_Some constant.2) (constants F) →
       cell_integrals F = [(λ value _, value + k, active_cells)] →
       exterior_facet_integrals F = [] →
       interior_facet_integrals F = [] →
       num_links (dofmap g) 0 = inr num_dofs_g →
       0 ≤ geometry_dim g →
       Forall (cell_readable g num_dofs_g (get_cell_permutation_info t)
                 (pack_coefficients F)) active_cells →
       (assemble_scalar F s).1 = inr (k * Z.of_nat (length active_cells))).
Proof.
  split; [|split; [|split]].
  - intros. by apply assemble_cells_running_sum.
  - intros T double HS HE s active_cells k coeffs constant_values num_dofs_g
           g t Hn Hg Hall.
    destruct (assemble_cells_running_sum s active_cells
                (λ value _, add value k) coeffs constant_values num_dofs_g
                Hn Hg Hall) as (calls & Hc & ->).
    simpl. by rewrite foldl_iter, (Forall2_length _ _ _ Hc).
  - intros double HE s active_cells k coeffs constant_values num_dofs_g g t
           Hn Hg Hall.
    destruct (assemble_cells_constant s active_cells k coeffs constant_values
                num_dofs_g Hn Hg Hall) as (calls & _ & ->).
    done.
  - intros double HE F s active_cells k num_dofs_g g t Hset Hc He Hi Hn Hg Hall.
    rewrite assemble_scalar_set by done.
    unfold assemble_integrals, add_integrals. rewrite Hc, He, Hi. simpl.
    rewrite !bind_run.
    destruct (assemble_cells_constant s active_cells k (pack_coefficients F)
                (concat (omap snd (constants F))) num_dofs_g Hn Hg Hall)
      as (calls & _ & ->).
    done.
Qed.

(** C1 as stated fails.  With scalars of type [double], ten active cells and
    a kernel that adds one tenth, the cell assembler returns the largest
    [double] below 1, whereas [k * C] is 1: each of the ten sums is rounded.
    And on a mesh without cells the assembler returns no value even for the
    empty list of active cells, of which [k * C] is 0: the number of
    coordinate rows is read off cell 0 before the loop. *)
Lemma assemble_cells_constant_kernel_counterexample :
  ((@assemble_cells _ _ doubles.double_scalar doubles.externals
      doubles.ten_cells doubles.add_tenth doubles.coeffs []
      doubles.fresh_state).1 = inr doubles.below_one
   ∧ length doubles.ten_cells = 10%nat
   ∧ PrimFloat.mul doubles.tenth doubles.ten = doubles.one
   ∧ PrimFloat.ltb doubles.below_one doubles.one = true
   ∧ (@assemble_cells _ _ doubles.double_scalar doubles.externals
        doubles.ten_cells doubles.add_tenth doubles.coeffs []
        doubles.fresh_state).1
     ≠ inr (PrimFloat.mul doubles.tenth doubles.ten))
  ∧ ((assemble_cells [] interval.add_seven interval.coeffs []
        (mkState interval.empty_mesh [])).1 = inl undefined_behaviour
     ∧ (assemble_cells [] interval.add_seven interval.coeffs []
          (mkState interval.empty_mesh [])).1
       ≠ inr (7 * Z.of_nat (length (@nil Z)))).
Proof.
  assert (Hrun : (@assemble_cells _ _ doubles.double_scalar doubles.externals
                    doubles.ten_cells doubles.add_tenth doubles.coeffs []
                    doubles.fresh_state).1
                 = inr doubles.below_one) by (vm_compute; reflexivity).
  split.
  - split; [exact Hrun|]. split; [reflexivity|].
    split; [vm_compute; reflexivity|]. split; [vm_compute; reflexivity|].
    rewrite Hrun. intros H.
    apply (f_equal (λ r : result PrimFloat.float,
                      match r with
                      | inr v => PrimFloat.ltb v doubles.one
                      | inl _ => false
                      end)) in H.
    vm_compute in H. discriminate H.
  - split; [vm_compute; reflexivity|].
    intros H. vm_compute in H. discriminate H.
Qed.

(** ** Segments *)

Section segments.
Context {A : Type}.
Implicit Types (v src : list A) (start n : Z).

Lemma set_segment_length v start src v' :
  set_segment v start src = inr v' → length v' = length v.
Proof.
  unfold set_segment. case_decide as Hr; [|done]. intros [= <-].
  rewrite !length_app, length_take, length_drop. lia.
Qed.

Lemma set_segment_inr v start src :
  0 ≤ start → start + Z.of_nat (length src) ≤ Z.of_nat (length v) →
  ∃ v', set_segment v start src = inr v'.
Proof. intros. unfold set_segment. rewrite decide_True by done. by eexists. Qed.

(** Inside the segment the source is read back. *)
Lemma set_segment_lookup_in v start src v' (p : nat) :
  set_segment v start src = inr v' → (p < length src)%nat →
  v' !! (Z.to_nat start + p)%nat = src !! p.
Proof.
  unfold set_segment. case_decide as Hr; [|done]. intros [= <-] Hp.
  rewrite lookup_app_r by (rewrite length_take; lia).
  rewrite length_take.
  replace (Z.to_nat start + p - Z.to_nat start `min` length v)%nat with p
    by lia.
  by rewrite lookup_app_l.
Qed.

(** Outside the segment the array is as before. *)
Lemma set_segment_lookup_out v start src v' (q : nat) :
  set_segment v start src = inr v' →
  (q < Z.to_nat start ∨ Z.to_nat start + length src ≤ q)%nat →
  v' !! q = v !! q.
Proof.
  unfold set_segment. case_decide as Hr; [|done]. intros [= <-] Hq.
  destruct Hq as [Hq|Hq].
  - rewrite lookup_app_l by (rewrite length_take; lia).
    by rewrite lookup_take_lt.
  - rewrite lookup_app_r by (rewrite length_take; lia).
    rewrite length_take.
    rewrite lookup_app_r by lia.
    rewrite lookup_drop. f_equal. lia.
Qed.

Lemma segment_inr v start n :
  0 ≤ start → 0 ≤ n → start + n ≤ Z.of_nat (length v) →
  segment v start n = inr (take (Z.to_nat n) (drop (Z.to_nat start) v)).
Proof. intros. unfold segment. by rewrite decide_True. Qed.

(** Two segments of the same length agree when they agree entry by entry. *)
Lemma segment_ext v1 v2 start1 start2 n :
  0 ≤ start1 → 0 ≤ start2 → 0 ≤ n →
  start1 + n ≤ Z.of_nat (length v1) → start2 + n ≤ Z.of_nat (length v2) →
  (∀ p, (p < Z.to_nat n)%nat →
        v1 !! (Z.to_nat start1 + p)%nat = v2 !! (Z.to_nat start2 + p)%nat) →
  segment v1 start1 n = segment v2 start2 n.
Proof.
  intros ????? Hext. rewrite !segment_inr by done. f_equal.
  apply list_eq. intros p. destruct (decide (p < Z.to_nat n)%nat).
  - rewrite !lookup_take_lt, !lookup_drop by done. by apply Hext.
  - by rewrite !lookup_take_ge by lia.
Qed.
End segments.

Lemma fold_result_app {A B} (body : B → A → result B) (b : B) (l1 l2 : list A) :
  fold_result body b (l1 ++ l2)
  = (b' ← fold_result body b l1; fold_result body b' l2).
Proof.
  revert b. induction l1 as [|a l1 IH]; intros b; simpl; [done|].
  destruct (body b a) as [e|b']; simpl; [done|]. apply IH.
Qed.

Lemma seqZ_snoc (k : nat) : seqZ 0 (Z.of_nat (S k)) = seqZ 0 (Z.of_nat k) ++ [Z.of_nat k].
Proof.
  replace (Z.of_nat (S k)) with (Z.of_nat k + 1) by lia.
  rewrite seqZ_app by lia. f_equal.
Qed.

Lemma StronglySorted_lookup_le (l : list Z) (i j : nat) (a b : Z) :
  StronglySorted Z.le l → l !! i = Some a → l !! j = Some b → (i ≤ j)%nat →
  a ≤ b.
Proof.
  intros Hs. revert i j. induction Hs as [|x l Hs IH Hx]; intros i j Hi Hj Hij.
  - done.
  - destruct i as [|i], j as [|j]; simpl in *; simplify_eq; try lia.
    + rewrite Forall_forall in Hx. apply Hx.
      apply list_elem_of_lookup. eauto.
    + apply (IH i j); [done|done|lia].
Qed.

(** ** Packing the coefficients of the two cells of an interior facet *)

Section offsets.
Variables (offsets : list Z) (n : Z).
Hypothesis Hwf : offsets_wf offsets n.

Lemma offsets_bounds (i : nat) (o : Z) : offsets !! i = Some o → 0 ≤ o ≤ n.
Proof using Hwf.
  destruct Hwf as (Hs & Hh & Hl). intros Hi.
  assert (Hlen : (i < length offsets)%nat) by (by eapply lookup_lt_Some).
  split.
  - destruct (lookup_lt_is_Some_2 offsets 0) as [o0 H0]; [lia|].
    etrans; [apply Hh; by rewrite head_lookup|].
    eapply (StronglySorted_lookup_le offsets 0 i); eauto with lia.
  - rewrite last_lookup in Hl.
    eapply (StronglySorted_lookup_le offsets i); eauto with lia.
Qed.

Lemma offsets_step (i : nat) (o_i o_i1 : Z) :
  offsets !! i = Some o_i → offsets !! S i = Some o_i1 → o_i ≤ o_i1.
Proof using Hwf.
  destruct Hwf as (Hs & _). intros Hi Hi1.
  eapply (StronglySorted_lookup_le offsets i (S i)); eauto with lia.
Qed.

Lemma offsets_before (i k : nat) (o_i1 o_k : Z) :
  (i < k)%nat → offsets !! S i = Some o_i1 → offsets !! k = Some o_k →
  o_i1 ≤ o_k.
Proof using Hwf.
  destruct Hwf as (Hs & _). intros Hik Hi Hk.
  eapply (StronglySorted_lookup_le offsets (S i) k); eauto with lia.
Qed.
End offsets.

Section packing.
Context {T : Type}.
Variables (offsets : list Z) (n : Z) (coeff_cell0 coeff_cell1 : list T).
Hypothesis Hwf : offsets_wf offsets n.
Hypothesis Hcell0 : n ≤ Z.of_nat (length coeff_cell0).
Hypothesis Hcell1 : n ≤ Z.of_nat (length coeff_cell1).

(** The body of the loop over the coefficients, as in [pack_restricted]. *)
Let body : list T → Z → result (list T) :=
  λ coeff_array i,
    o_i ← at_ offsets i;
    o_i1 ← at_ offsets (i + 1);
    let num_entries := o_i1 - o_i in
    s0 ← segment coeff_cell0 o_i num_entries;
    coeff_array ← set_segment coeff_array (2 * o_i) s0;
    s1 ← segment coeff_cell1 o_i num_entries;
    set_segment coeff_array (o_i1 + o_i) s1.

Let packed_before := packed_before offsets coeff_cell0 coeff_cell1.

Lemma pack_step (k : nat) (coeff_array : list T) :
  (S k < length offsets)%nat →
  Z.of_nat (length coeff_array) = 2 * n →
  packed_before k coeff_array →
  ∃ coeff_array', body coeff_array (Z.of_nat k) = inr coeff_array'
                  ∧ length coeff_array' = length coeff_array
                  ∧ packed_before (S k) coeff_array'.
Proof using All.
  intros Hk Hlen Hinv.
  destruct (lookup_lt_is_Some_2 offsets k) as [o_k Hok]; [lia|].
  destruct (lookup_lt_is_Some_2 offsets (S k)) as [o_k1 Hok1]; [lia|].
  pose proof (offsets_bounds _ _ Hwf _ _ Hok) as Hbk.
  pose proof (offsets_bounds _ _ Hwf _ _ Hok1) as Hbk1.
  pose proof (offsets_step _ _ Hwf _ _ _ Hok Hok1) as Hstep.
  unfold body.
  rewrite (at_inr offsets (Z.of_nat k) o_k) by (rewrite ?Nat2Z.id; done || lia).
  rewrite result_bind_inr.
  rewrite (at_inr offsets (Z.of_nat k + 1) o_k1)
    by (first [lia | by replace (Z.to_nat (Z.of_nat k + 1)) with (S k) by lia]).
  rewrite result_bind_inr. cbv zeta.
  rewrite (segment_inr coeff_cell0) by lia. rewrite result_bind_inr.
  set (s0 := take (Z.to_nat (o_k1 - o_k)) (drop (Z.to_nat o_k) coeff_cell0)).
  assert (Hs0 : length s0 = Z.to_nat (o_k1 - o_k)).
  { unfold s0. rewrite length_take, length_drop. lia. }
  destruct (set_segment_inr coeff_array (2 * o_k) s0) as [a1 Ha1]; [lia|lia|].
  rewrite Ha1, result_bind_inr.
  pose proof (set_segment_length _ _ _ _ Ha1) as Hl1.
  rewrite (segment_inr coeff_cell1) by lia. rewrite result_bind_inr.
  set (s1 := take (Z.to_nat (o_k1 - o_k)) (drop (Z.to_nat o_k) coeff_cell1)).
  assert (Hs1 : length s1 = Z.to_nat (o_k1 - o_k)).
  { unfold s1. rewrite length_take, length_drop. lia. }
  destruct (set_segment_inr a1 (o_k1 + o_k) s1) as [a2 Ha2]; [lia|lia|].
  pose proof (set_segment_length _ _ _ _ Ha2) as Hl2.
  exists a2. split; [done|]. split; [congruence|].
  intros i o_i o_i1 p Hi Hoi Hoi1 Hp.
  destruct (decide (i = k)) as [->|Hne].
  - simplify_eq. split.
    + rewrite (set_segment_lookup_out _ _ _ _ _ Ha2) by lia.
      rewrite (set_segment_lookup_in _ _ _ _ _ Ha1) by lia.
      unfold s0. by rewrite lookup_take_lt, lookup_drop by lia.
    + rewrite (set_segment_lookup_in _ _ _ _ _ Ha2) by lia.
      unfold s1. by rewrite lookup_take_lt, lookup_drop by lia.
  - assert (Hik : (i < k)%nat) by lia.
    pose proof (offsets_bounds _ _ Hwf _ _ Hoi) as Hbi.
    pose proof (offsets_step _ _ Hwf _ _ _ Hoi Hoi1) as Hsi.
    pose proof (offsets_before _ _ Hwf _ _ _ _ Hik Hoi1 Hok) as Hbefore.
    destruct (Hinv i o_i o_i1 p Hik Hoi Hoi1 Hp) as [H0 H1].
    split.
    + rewrite (set_segment_lookup_out _ _ _ _ _ Ha2) by lia.
      by rewrite (set_segment_lookup_out _ _ _ _ _ Ha1) by lia.
    + rewrite (set_segment_lookup_out _ _ _ _ _ Ha2) by lia.
      by rewrite (set_segment_lookup_out _ _ _ _ _ Ha1) by lia.
Qed.

Lemma pack_prefix (k : nat) (coeff_array : list T) :
  (k < length offsets)%nat →
  Z.of_nat (length coeff_array) = 2 * n →
  ∃ coeff_array',
    fold_result body coeff_array (seqZ 0 (Z.of_nat k)) = inr coeff_array'
    ∧ length coeff_array' = length coeff_array
    ∧ packed_before k coeff_array'.
Proof using All.
  intros Hk Hlen. induction k as [|k IH].
  - exists coeff_array. split; [done|]. split; [done|].
    intros i ???? Hi. lia.
  - destruct IH as (a & Ha & Hla & Hinv); [lia|].
    destruct (pack_step k a) as (a' & Ha' & Hla' & Hinv'); [done|lia|done|].
    exists a'. rewrite seqZ_snoc, fold_result_app, Ha, result_bind_inr.
    simpl. rewrite Ha'. split; [done|]. split; [congruence|done].
Qed.

(** The packed array: for each coefficient, the slice of the first cell
    from twice the offset on, the slice of the second cell right after. *)
Lemma pack_restricted_inr (coeff_array : list T) :
  Z.of_nat (length coeff_array) = 2 * n →
  ∃ w, pack_restricted offsets coeff_cell0 coeff_cell1 coeff_array = inr w
       ∧ Z.of_nat (length w) = 2 * n
       ∧ ∀ (i : Z) (o_i o_i1 : Z),
           at_ offsets i = inr o_i → at_ offsets (i + 1) = inr o_i1 →
           segment w (2 * o_i) (o_i1 - o_i)
           = segment coeff_cell0 o_i (o_i1 - o_i)
           ∧ segment w (2 * o_i + (o_i1 - o_i)) (o_i1 - o_i)
             = segment coeff_cell1 o_i (o_i1 - o_i)
           ∧ is_ok (segment coeff_cell0 o_i (o_i1 - o_i))
           ∧ is_ok (segment coeff_cell1 o_i (o_i1 - o_i)).
Proof using All.
  intros Hlen.
  assert (Hne : (0 < length offsets)%nat).
  { destruct Hwf as (_ & _ & Hl). destruct offsets; [done|simpl; lia]. }
  destruct (pack_prefix (length offsets - 1) coeff_array)
    as (w & Hw & Hlw & Hinv); [lia|done|].
  exists w. unfold pack_restricted. fold body.
  replace (Z.of_nat (length offsets) - 1)
    with (Z.of_nat (length offsets - 1)) by lia.
  split; [done|]. split; [lia|].
  intros i o_i o_i1 [Hi Hoi]%at_inr_inv [Hi1 Hoi1]%at_inr_inv.
  replace (Z.to_nat (i + 1)) with (S (Z.to_nat i)) in Hoi1 by lia.
  pose proof (offsets_bounds _ _ Hwf _ _ Hoi) as Hbi.
  pose proof (offsets_bounds _ _ Hwf _ _ Hoi1) as Hbi1.
  pose proof (offsets_step _ _ Hwf _ _ _ Hoi Hoi1) as Hsi.
  assert (Hik : (Z.to_nat i < length offsets - 1)%nat).
  { apply lookup_lt_Some in Hoi1. lia. }
  split; [|split; [|split]].
  - apply segment_ext; try lia. intros p Hp.
    by destruct (Hinv _ _ _ p Hik Hoi Hoi1 Hp) as [-> _].
  - apply segment_ext; try lia. intros p Hp.
    destruct (Hinv _ _ _ p Hik Hoi Hoi1 Hp) as [_ <-].
    f_equal. lia.
  - rewrite segment_inr by lia. by eexists.
  - rewrite segment_inr by lia. by eexists.
Qed.
End packing.

(** ** Reading the restrictions back *)

Lemma map_result_app {A B} (f : A → result B) (l1 l2 : list A) :
  map_result f (l1 ++ l2)
  = (k1 ← map_result f l1; k2 ← map_result f l2; mret (k1 ++ k2)).
Proof.
  induction l1 as [|a l1 IH]; simpl.
  - by destruct (map_result f l2).
  - destruct (f a) as [e|b]; simpl; [done|]. rewrite IH.
    destruct (map_result f l1) as [e|k1]; simpl; [done|].
    by destruct (map_result f l2).
Qed.

Lemma map_result_ext {A B} (f g : A → result B) (l : list A) :
  (∀ a, a ∈ l → f a = g a) → map_result f l = map_result g l.
Proof.
  induction l as [|a l IH]; intros Hfg; simpl; [done|].
  rewrite (Hfg a) by (by left). rewrite IH; [done|].
  intros; apply Hfg; by right.
Qed.

Section tiling.
Context {T : Type}.
Variables (offsets : list Z) (n : Z) (v : list T).
Hypothesis Hwf : offsets_wf offsets n.
Hypothesis Hv : n ≤ Z.of_nat (length v).

Let slice : Z → result (list T) :=
  λ i, o_i ← at_ offsets i;
       o_i1 ← at_ offsets (i + 1);
       segment v o_i (o_i1 - o_i).

(** The slices of the first [k] coefficients tile the row from the first
    offset to the [k]-th. *)
Lemma slices_tile (k : nat) (o_0 o_k : Z) :
  offsets !! 0%nat = Some o_0 → offsets !! k = Some o_k →
  ∃ slices, map_result slice (seqZ 0 (Z.of_nat k)) = inr slices
            ∧ concat slices
              = take (Z.to_nat (o_k - o_0)) (drop (Z.to_nat o_0) v).
Proof using All.
  intros H0. revert o_k. induction k as [|k IH]; intros o_k Hk.
  - exists []. split; [done|]. rewrite H0 in Hk. injection Hk as <-.
    by replace (Z.to_nat (o_0 - o_0)) with 0%nat by lia.
  - destruct (lookup_lt_is_Some_2 offsets k) as [o Ho];
      [apply lookup_lt_Some in Hk; lia|].
    destruct (IH o Ho) as (slices & Hs & Hc).
    pose proof (offsets_bounds _ _ Hwf _ _ H0) as Hb0.
    pose proof (offsets_bounds _ _ Hwf _ _ Ho) as Hb.
    pose proof (offsets_bounds _ _ Hwf _ _ Hk) as Hbk.
    pose proof (offsets_step _ _ Hwf _ _ _ Ho Hk) as Hstep.
    assert (H0o : o_0 ≤ o).
    { destruct Hwf as (Hsorted & _).
      eapply (StronglySorted_lookup_le offsets 0 k); eauto with lia. }
    exists (slices ++ [take (Z.to_nat (o_k - o)) (drop (Z.to_nat o) v)]).
    rewrite seqZ_snoc, map_result_app, Hs, result_bind_inr. simpl.
    unfold slice at 1.
    rewrite (at_inr offsets (Z.of_nat k) o) by (rewrite ?Nat2Z.id; done || lia).
    rewrite result_bind_inr.
    rewrite (at_inr offsets (Z.of_nat k + 1) o_k)
      by (first [lia | by replace (Z.to_nat (Z.of_nat k + 1)) with (S k) by lia]).
    rewrite result_bind_inr, segment_inr by lia. split; [done|].
    rewrite concat_app, Hc. simpl. rewrite app_nil_r.
    replace (Z.to_nat (o_k - o_0))
      with (Z.to_nat (o - o_0) + Z.to_nat (o_k - o))%nat by lia.
    rewrite <- take_take_drop. f_equal. rewrite drop_drop. do 2 f_equal. lia.
Qed.
End tiling.

Section roundtrip.
Context {T : Type}.
Variables (offsets : list Z) (n : Z) (coeff_cell0 coeff_cell1 : list T).
Hypothesis Hwf : offsets_wf offsets n.
Hypothesis Hcell0 : Z.of_nat (length coeff_cell0) = n.
Hypothesis Hcell1 : Z.of_nat (length coeff_cell1) = n.
Hypothesis Hfirst : head offsets = Some 0.

(** Reading the two restrictions back from the packed array gives the two
    rows. *)
Lemma restriction_pack_restricted (coeff_array w : list T) :
  pack_restricted offsets coeff_cell0 coeff_cell1 coeff_array = inr w →
  Z.of_nat (length coeff_array) = 2 * n →
  restriction 0 offsets w = inr coeff_cell0
  ∧ restriction 1 offsets w = inr coeff_cell1.
Proof using All.
  intros Hw Hlen.
  destruct (pack_restricted_inr offsets n coeff_cell0 coeff_cell1 Hwf
              ltac:(lia) ltac:(lia) coeff_array Hlen) as (w' & Hw' & _ & Hsl).
  rewrite Hw in Hw'. injection Hw' as <-.
  assert (Hne : (0 < length offsets)%nat).
  { destruct offsets; [done|simpl; lia]. }
  assert (Hlast : offsets !! (length offsets - 1)%nat = Some n).
  { destruct Hwf as (_ & _ & Hl). rewrite last_lookup in Hl.
    by replace (length offsets - 1)%nat with (pred (length offsets)) by lia. }
  rewrite head_lookup in Hfirst.
  assert (Hread : ∀ side (v : list T),
            Z.of_nat (length v) = n →
            (∀ i o_i o_i1,
               at_ offsets i = inr o_i → at_ offsets (i + 1) = inr o_i1 →
               segment w (2 * o_i + side * (o_i1 - o_i)) (o_i1 - o_i)
               = segment v o_i (o_i1 - o_i)) →
            restriction side offsets w = inr v).
  { intros side v Hv Hseg. unfold restriction.
    replace (Z.of_nat (length offsets) - 1)
      with (Z.of_nat (length offsets - 1)) by lia.
    rewrite (map_result_ext _
               (λ i, o_i ← at_ offsets i;
                     o_i1 ← at_ offsets (i + 1);
                     segment v o_i (o_i1 - o_i))).
    - destruct (slices_tile offsets n v Hwf ltac:(lia)
                  (length offsets - 1) 0 n Hfirst Hlast) as (slices & -> & Hc).
      rewrite result_bind_inr. unfold mret, result_ret. f_equal. rewrite Hc.
      replace (Z.to_nat 0) with 0%nat by lia. rewrite drop_0.
      apply take_ge. lia.
    - intros i _.
      destruct (at_ offsets i) as [e|o_i] eqn:Hi; simpl; [done|].
      destruct (at_ offsets (i + 1)) as [e|o_i1] eqn:Hi1; simpl; [done|].
      by apply (Hseg i). }
  split.
  - apply Hread; [done|]. intros i o_i o_i1 Hi Hi1.
    destruct (Hsl i o_i o_i1 Hi Hi1) as (H0 & _).
    rewrite <- H0. f_equal. lia.
  - apply Hread; [done|]. intros i o_i o_i1 Hi Hi1.
    destruct (Hsl i o_i o_i1 Hi Hi1) as (_ & H1 & _).
    rewrite <- H1. f_equal. lia.
Qed.
End roundtrip.

(** ** Finding a facet among the facets of a cell *)

Lemma std_find_range (l : list Z) (x : Z) :
  0 ≤ std_find l x ≤ Z.of_nat (length l).
Proof. induction l as [|y l IH]; simpl; [lia|]. case_decide; lia. Qed.

Lemma std_find_elem (l : list Z) (x : Z) :
  x ∈ l →
  std_find l x ≠ Z.of_nat (length l) ∧ l !! Z.to_nat (std_find l x) = Some x.
Proof.
  induction l as [|y l IH]; intros Hin; [by apply elem_of_nil in Hin|].
  simpl. case_decide as Hy.
  - subst. split; [lia|done].
  - apply elem_of_cons in Hin as [->|Hin]; [done|].
    destruct (IH Hin) as [Hne Hl]. pose proof (std_find_range l x).
    split; [lia|].
    replace (Z.to_nat (1 + std_find l x)) with (S (Z.to_nat (std_find l x)))
      by lia.
    done.
Qed.

Lemma std_find_not_elem (l : list Z) (x : Z) :
  x ∉ l → std_find l x = Z.of_nat (length l).
Proof.
  induction l as [|y l IH]; intros Hin; simpl; [done|].
  apply not_elem_of_cons in Hin as [Hne Hin].
  rewrite decide_False by done. rewrite IH by done. lia.
Qed.

(** Inverts [H : (m ≫= f) = inr _]: the first step succeeded. *)
Ltac inv_bind H :=
  match type of H with
  | (?m ≫= _) = inr _ =>
      let Hm := fresh "Hm" in
      destruct m eqn:Hm; [discriminate H|]; rewrite result_bind_inr in H
  end.

Tactic Notation "inv_step" hyp(H) "as" ident(x) ident(Hx) :=
  match type of H with
  | (?m ≫= _) = inr _ =>
      destruct m as [?|x] eqn:Hx; [discriminate H|];
      rewrite result_bind_inr in H
  end.

Lemma check_inr_inv (b : bool) (expr : string) (u : ()) :
  check b expr = inr u → b = true.
Proof. by destruct b. Qed.

Section facets.
Context {T double : Type} `{!Scalar T} `{!Externals T double}.
Implicit Types (g : Geometry double) (perms : list (list Z)).
Implicit Types (cell_info : list Z) (f_to_c c_to_f : AdjacencyList).
Implicit Types (coeffs : Array2 T) (constant_values : list T).

Lemma local_facet_index_inr c_to_f (facet cell : Z) (facets : list Z) :
  links c_to_f cell = inr facets → facet ∈ facets →
  local_facet_index c_to_f facet cell = inr (std_find facets facet).
Proof.
  intros Hl Hin. unfold local_facet_index. rewrite Hl, result_bind_inr.
  destruct (std_find_elem facets facet Hin) as [Hne _].
  by rewrite bool_decide_eq_true_2.
Qed.

Lemma local_facet_index_inl c_to_f (facet cell : Z) (facets : list Z) :
  links c_to_f cell = inr facets → facet ∉ facets →
  local_facet_index c_to_f facet cell
  = inl (assertion_failed "it != (facets.data() + facets.rows())").
Proof.
  intros Hl Hin. unfold local_facet_index. rewrite Hl, result_bind_inr.
  rewrite bool_decide_eq_false_2; [done|].
  intros Hne. apply Hne. by apply std_find_not_elem.
Qed.

Lemma local_facet_index_inv c_to_f (facet cell local_facet : Z) :
  local_facet_index c_to_f facet cell = inr local_facet →
  ∃ facets, links c_to_f cell = inr facets ∧ facet ∈ facets
            ∧ local_facet = std_find facets facet.
Proof.
  unfold local_facet_index. intros H. inv_bind H. inv_bind H.
  injection H as <-. apply check_inr_inv, bool_decide_eq_true_1 in Hm0.
  eexists. split; [done|]. split; [|done].
  destruct (decide (facet ∈ l)) as [|Hn]; [done|].
  by apply std_find_not_elem in Hn.
Qed.

Lemma facet_of_cell_index perms c_to_f (facet cell : Z) :
  facet_of_cell perms c_to_f facet cell →
  ∃ facets perm,
    links c_to_f cell = inr facets ∧ facet ∈ facets
    ∧ local_facet_index c_to_f facet cell = inr (std_find facets facet)
    ∧ at2 perms (std_find facets facet) cell = inr perm.
Proof.
  intros (Hc & facets & r & Hf & Hin & Hr & Hlt).
  assert (Hl : links c_to_f cell = inr facets) by (by apply at_inr).
  destruct (at_lt r cell Hc Hlt) as [perm Hperm].
  exists facets, perm. split; [done|]. split; [done|].
  split; [by apply local_facet_index_inr|].
  unfold at2. rewrite (at_inr perms _ r); [by rewrite result_bind_inr| |done].
  apply std_find_range.
Qed.

Lemma cell_data_readable_inr g (num_dofs_g : Z) coeffs (c : Z) :
  cell_data_readable g num_dofs_g coeffs c →
  ∃ x_dofs xs w, links (dofmap g) c = inr x_dofs
                 ∧ coordinate_rows g num_dofs_g x_dofs = inr xs
                 ∧ row coeffs c = inr w.
Proof.
  intros (Hc & (x_dofs & Hx & Hr) & Hco).
  destruct (coordinate_rows_readable _ _ _ Hr) as [xs Hxs].
  destruct (at_lt (rows coeffs) c Hc Hco) as [w Hw].
  exists x_dofs, xs, w. split; [by apply at_inr|done].
Qed.

Lemma exterior_facet_arguments_readable g (num_dofs_g : Z) perms cell_info
    f_to_c c_to_f coeffs constant_values (facet : Z) :
  exterior_facet_readable g num_dofs_g perms cell_info f_to_c c_to_f coeffs
    facet →
  ∃ a, exterior_facet_arguments g num_dofs_g perms cell_info f_to_c c_to_f
         coeffs constant_values facet = inr a.
Proof.
  intros (Hf & cell & Hcell & Hfc & Hdata & Hinfo).
  destruct (facet_of_cell_index _ _ _ _ Hfc) as (facets & perm & _ & _ & Hlf & Hp).
  destruct (cell_data_readable_inr _ _ _ _ Hdata) as (x_dofs & xs & w & Hx & Hxs & Hw).
  destruct (at_lt cell_info cell (proj1 Hfc) Hinfo) as [info Hi].
  unfold exterior_facet_arguments, num_links, links.
  rewrite (at_inr f_to_c facet [cell]) by done.
  rewrite !result_bind_inr. simpl.
  rewrite Hlf, result_bind_inr. fold (links (dofmap g) cell).
  rewrite Hx, result_bind_inr, Hxs, result_bind_inr, Hw, result_bind_inr.
  rewrite Hp, result_bind_inr, Hi, result_bind_inr. by eexists.
Qed.

Lemma exterior_facet_arguments_inv g (num_dofs_g : Z) perms cell_info
    f_to_c c_to_f coeffs constant_values (facet : Z) a :
  exterior_facet_arguments g num_dofs_g perms cell_info f_to_c c_to_f
    coeffs constant_values facet = inr a →
  exterior_facet_consistent f_to_c c_to_f facet.
Proof.
  unfold exterior_facet_arguments, num_links. intros H.
  inv_bind H. inv_bind Hm. injection Hm as <-.
  inv_bind H. apply check_inr_inv, bool_decide_eq_true_1 in Hm.
  rewrite result_bind_inr in H. inv_bind H. inv_bind H.
  apply local_facet_index_inv in Hm2 as (facets & Hl & Hin & _).
  destruct l as [|cell [|]]; simpl in Hm; try lia.
  apply at_inr_inv in Hm1 as [_ [= <-]].
  by exists cell, facets.
Qed.

Lemma exterior_facet_arguments_count g (num_dofs_g : Z) perms cell_info
    f_to_c c_to_f coeffs constant_values (facet : Z) (cells : list Z) :
  links f_to_c facet = inr cells → length cells ≠ 1%nat →
  exterior_facet_arguments g num_dofs_g perms cell_info f_to_c c_to_f
    coeffs constant_values facet
  = inl (assertion_failed "f_to_c->num_links(facet) == 1").
Proof.
  intros Hl Hn. unfold exterior_facet_arguments, num_links.
  rewrite Hl. run_result.
  rewrite bool_decide_eq_false_2 by lia. done.
Qed.

Lemma exterior_facet_arguments_missing g (num_dofs_g : Z) perms cell_info
    f_to_c c_to_f coeffs constant_values (facet cell : Z) (facets : list Z) :
  links f_to_c facet = inr [cell] → links c_to_f cell = inr facets →
  facet ∉ facets →
  exterior_facet_arguments g num_dofs_g perms cell_info f_to_c c_to_f
    coeffs constant_values facet
  = inl (assertion_failed "it != (facets.data() + facets.rows())").
Proof.
  intros Hl Hc Hn. unfold exterior_facet_arguments, num_links.
  rewrite Hl. run_result. simpl.
  by rewrite (local_facet_index_inl _ _ _ _ Hc Hn).
Qed.
End facets.

Section interior_facets.
Context {T double : Type} `{!Scalar T} `{!Externals T double}.
Implicit Types (g : Geometry double) (perms : list (list Z)).
Implicit Types (cell_info : list Z) (f_to_c c_to_f : AdjacencyList).
Implicit Types (coeffs : Array2 T) (constant_values coeff_array : list T).
Implicit Types (offsets : list Z).

Lemma row_length coeffs (c : Z) (w : list T) :
  Array2_wf coeffs → row coeffs c = inr w → Z.of_nat (length w) = cols coeffs.
Proof.
  intros Hwf [_ Hw]%at_inr_inv. unfold Array2_wf in Hwf.
  rewrite Forall_forall in Hwf. apply Hwf.
  apply list_elem_of_lookup. eauto.
Qed.

Lemma interior_facet_arguments_readable g (num_dofs_g : Z) perms cell_info
    f_to_c c_to_f coeffs offsets constant_values coeff_array (f : Z) :
  offsets_wf offsets (cols coeffs) → Array2_wf coeffs →
  Z.of_nat (length coeff_array) = 2 * cols coeffs →
  interior_facet_readable g num_dofs_g perms cell_info f_to_c c_to_f coeffs f →
  ∃ a w, interior_facet_arguments g num_dofs_g perms cell_info f_to_c c_to_f
           coeffs offsets constant_values coeff_array f = inr (a, w)
         ∧ Z.of_nat (length w) = 2 * cols coeffs.
Proof.
  intros Hoff Hwf Hlen (Hf & cell0 & cell1 & Hcells & Hfc0 & Hfc1 & [Hd0 Hinfo] & Hd1).
  destruct (facet_of_cell_index _ _ _ _ Hfc0) as (facets0 & perm0 & _ & _ & Hlf0 & Hp0).
  destruct (facet_of_cell_index _ _ _ _ Hfc1) as (facets1 & perm1 & _ & _ & Hlf1 & Hp1).
  destruct (cell_data_readable_inr _ _ _ _ Hd0) as (x_dofs0 & xs0 & w0 & Hx0 & Hxs0 & Hw0).
  destruct (cell_data_readable_inr _ _ _ _ Hd1) as (x_dofs1 & xs1 & w1 & Hx1 & Hxs1 & Hw1).
  destruct (at_lt cell_info cell0 (proj1 Hfc0) Hinfo) as [info Hi].
  pose proof (row_length _ _ _ Hwf Hw0) as Hl0.
  pose proof (row_length _ _ _ Hwf Hw1) as Hl1.
  destruct (pack_restricted_inr offsets (cols coeffs) w0 w1 Hoff
              ltac:(lia) ltac:(lia) coeff_array Hlen) as (w & Hw & Hlw & _).
  unfold interior_facet_arguments, links.
  rewrite (at_inr f_to_c f [cell0; cell1]) by done.
  run_result. simpl. run_result.
  rewrite Hlf0. run_result. rewrite Hlf1. run_result.
  rewrite Hp0. run_result. rewrite Hp1. run_result.
  fold (links (dofmap g) cell0) (links (dofmap g) cell1).
  rewrite Hx0. run_result. rewrite Hx1. run_result.
  rewrite Hxs0. run_result. rewrite Hxs1. run_result.
  rewrite Hw0. run_result. rewrite Hw1. run_result.
  rewrite Hw. run_result. rewrite Hi. run_result.
  by eexists _, _.
Qed.

Lemma interior_facet_arguments_inv g (num_dofs_g : Z) perms cell_info
    f_to_c c_to_f coeffs offsets constant_values coeff_array (f : Z) a w :
  interior_facet_arguments g num_dofs_g perms cell_info f_to_c c_to_f
    coeffs offsets constant_values coeff_array f = inr (a, w) →
  interior_facet_consistent f_to_c c_to_f f
  ∧ interior_call_spec perms cell_info f_to_c c_to_f f a
  ∧ call_w a = w
  ∧ ∃ cell0 cell1 coeff_cell0 coeff_cell1,
      links f_to_c f = inr [cell0; cell1]
      ∧ row coeffs cell0 = inr coeff_cell0
      ∧ row coeffs cell1 = inr coeff_cell1
      ∧ pack_restricted offsets coeff_cell0 coeff_cell1 coeff_array = inr w.
Proof.
  unfold interior_facet_arguments. intros H.
  inv_step H as cells Hcells.
  inv_step H as u Hcheck.
  apply check_inr_inv, bool_decide_eq_true_1 in Hcheck.
  destruct cells as [|cell0 [|cell1 [|]]]; simpl in Hcheck; try lia.
  simpl in H. run_result.
  inv_step H as local_facet0 Hm1.
  inv_step H as local_facet1 Hm2.
  inv_step H as perm0 Hp0.
  inv_step H as perm1 Hp1.
  inv_step H as x_dofs0 Hx0.
  inv_step H as x_dofs1 Hx1.
  inv_step H as rows0 Hr0.
  inv_step H as rows1 Hr1.
  inv_step H as coeff_cell0 Hc0.
  inv_step H as coeff_cell1 Hc1.
  inv_step H as w' Hw'.
  inv_step H as info Hinfo.
  injection H as <- <-.
  apply local_facet_index_inv in Hm1 as (facets0 & Hl0 & Hin0 & ->).
  apply local_facet_index_inv in Hm2 as (facets1 & Hl1 & Hin1 & ->).
  split; [by exists cell0, cell1, facets0, facets1|].
  split.
  - exists cell0, cell1, facets0, facets1, perm0, perm1, info.
    destruct (std_find_elem _ _ Hin0) as [_ ?].
    destruct (std_find_elem _ _ Hin1) as [_ ?].
    by repeat split.
  - split; [done|]. by exists cell0, cell1, coeff_cell0, coeff_cell1.
Qed.

Lemma interior_facet_arguments_count g (num_dofs_g : Z) perms cell_info
    f_to_c c_to_f coeffs offsets constant_values coeff_array (f : Z)
    (cells : list Z) :
  links f_to_c f = inr cells → length cells ≠ 2%nat →
  interior_facet_arguments g num_dofs_g perms cell_info f_to_c c_to_f
    coeffs offsets constant_values coeff_array f
  = inl (assertion_failed "cells.rows() == 2").
Proof.
  intros Hl Hn. unfold interior_facet_arguments.
  rewrite Hl. run_result. by rewrite bool_decide_eq_false_2.
Qed.

Lemma interior_facet_arguments_missing g (num_dofs_g : Z) perms cell_info
    f_to_c c_to_f coeffs offsets constant_values coeff_array
    (f cell0 cell1 : Z) :
  links f_to_c f = inr [cell0; cell1] →
  (∃ facets0, links c_to_f cell0 = inr facets0 ∧ f ∉ facets0)
  ∨ (∃ facets0 facets1, links c_to_f cell0 = inr facets0 ∧ f ∈ facets0
                        ∧ links c_to_f cell1 = inr facets1 ∧ f ∉ facets1) →
  interior_facet_arguments g num_dofs_g perms cell_info f_to_c c_to_f
    coeffs offsets constant_values coeff_array f
  = inl (assertion_failed "it != (facets.data() + facets.rows())").
Proof.
  intros Hl Hmiss. unfold interior_facet_arguments.
  rewrite Hl. run_result. simpl. run_result.
  destruct Hmiss as [(facets0 & H0 & Hn0)|(facets0 & facets1 & H0 & Hi0 & H1 & Hn1)].
  - by rewrite (local_facet_index_inl _ _ _ _ H0 Hn0).
  - rewrite (local_facet_index_inr _ _ _ _ H0 Hi0). run_result.
    by rewrite (local_facet_index_inl _ _ _ _ H1 Hn1).
Qed.
End interior_facets.

(** ** The loops of the facet assemblers *)

Section facet_loops.
Context {T double : Type} `{!Scalar T} `{!Externals T double}.
Implicit Types (s : state T double) (fn : kernel T double).

Lemma kernel_loop_inv {E} (gather : E → result (call T double)) fn
    (l : list E) (value value' : T) s s' :
  foldM (λ value e, a ← lift (gather e); invoke fn value a) value l s
  = (inr value', s') →
  ∃ calls, Forall2 (λ e a, gather e = inr a) l calls.
Proof.
  revert value s. induction l as [|e l IH]; intros value s; simpl.
  - intros _. by exists [].
  - rewrite bind_run, bind_run. unfold lift at 1.
    destruct (gather e) as [err|a] eqn:He; simpl; [done|].
    intros [calls Hcalls]%IH. exists (a :: calls). by constructor.
Qed.

Lemma interior_loop_inr {E}
    (gather : list T → E → result (call T double * list T)) fn
    (l : list E) (calls : list (call T double))
    (coeff_array coeff_array' : list T) (value : T) s :
  gather_interior gather coeff_array l = inr (calls, coeff_array') →
  foldM (interior_body gather fn) (value, coeff_array) l s
  = (inr (foldl fn value calls, coeff_array'),
     mkState (st_mesh s) (st_calls s ++ calls)).
Proof.
  revert calls coeff_array value s.
  induction l as [|e l IH]; intros calls coeff_array value s; simpl.
  - intros [= <- <-]. rewrite app_nil_r. by destruct s.
  - intros H. inv_step H as r Hr. inv_step H as k Hk.
    injection H as <- <-. destruct k as [calls' w].
    unfold interior_body at 2. rewrite !bind_run. unfold lift at 1.
    simpl. rewrite Hr. simpl.
    rewrite (IH calls' _ _ _ Hk). simpl. by rewrite <- app_assoc.
Qed.

Lemma interior_loop_inl {E}
    (gather : list T → E → result (call T double * list T)) fn
    (l1 l2 : list E) (e : E) (err : exn) (calls : list (call T double))
    (coeff_array coeff_array' : list T) (value : T) s :
  gather_interior gather coeff_array l1 = inr (calls, coeff_array') →
  gather coeff_array' e = inl err →
  foldM (interior_body gather fn) (value, coeff_array) (l1 ++ e :: l2) s
  = (inl err, mkState (st_mesh s) (st_calls s ++ calls)).
Proof.
  revert calls coeff_array value s.
  induction l1 as [|e1 l1 IH]; intros calls coeff_array value s; simpl.
  - intros [= <- <-] Herr.
    unfold interior_body at 2. rewrite !bind_run. unfold lift at 1.
    simpl. rewrite Herr. simpl. rewrite app_nil_r. by destruct s.
  - intros H Herr. inv_step H as r Hr. inv_step H as k Hk.
    injection H as <- <-. destruct k as [calls' w].
    unfold interior_body at 2. rewrite !bind_run. unfold lift at 1.
    simpl. rewrite Hr. simpl.
    rewrite (IH calls' _ _ _ Hk Herr). simpl. by rewrite <- app_assoc.
Qed.

Lemma interior_loop_inv {E}
    (gather : list T → E → result (call T double * list T)) fn
    (l : list E) (acc acc' : T * list T) s s' :
  foldM (interior_body gather fn) acc l s = (inr acc', s') →
  ∃ calls coeff_array',
    gather_interior gather acc.2 l = inr (calls, coeff_array').
Proof.
  revert acc s. induction l as [|e l IH]; intros acc s; simpl.
  - intros _. by eexists _, _.
  - unfold interior_body at 2. rewrite !bind_run. unfold lift at 1.
    destruct (gather acc.2 e) as [err|r] eqn:He; simpl; [done|].
    intros (calls & w & Hk)%IH. simpl in Hk. rewrite Hk.
    by eexists _, _.
Qed.

(** When every facet can be gathered whatever the buffer holds, the whole
    list can, and the calls satisfy what each gather guarantees. *)
Lemma gather_interior_inr {E}
    (gather : list T → E → result (call T double * list T))
    (P : E → call T double → Prop) (len : nat)
    (l : list E) (coeff_array : list T) :
  (∀ e w, e ∈ l → length w = len →
          ∃ a w', gather w e = inr (a, w') ∧ length w' = len ∧ P e a) →
  length coeff_array = len →
  ∃ calls coeff_array',
    gather_interior gather coeff_array l = inr (calls, coeff_array')
    ∧ Forall2 P l calls.
Proof.
  revert coeff_array. induction l as [|e l IH]; intros w Hg Hw; simpl.
  - by exists [], w.
  - destruct (Hg e w) as (a & w' & Ha & Hw' & HP); [by left|done|].
    destruct (IH w') as (calls & w'' & Hk & HPs);
      [intros; apply Hg; [by right|done]|done|].
    rewrite Ha, result_bind_inr. simpl. rewrite Hk.
    exists (a :: calls), w''. split; [done|by constructor].
Qed.

(** Each gathered facet satisfies what a successful gather implies. *)
Lemma gather_interior_Forall2 {E}
    (gather : list T → E → result (call T double * list T))
    (P : E → call T double → Prop)
    (l : list E) (coeff_array coeff_array' : list T)
    (calls : list (call T double)) :
  (∀ e w a w', gather w e = inr (a, w') → P e a) →
  gather_interior gather coeff_array l = inr (calls, coeff_array') →
  Forall2 P l calls.
Proof.
  intros HP. revert coeff_array calls.
  induction l as [|e l IH]; intros w calls; simpl.
  - intros [= <- <-]. constructor.
  - intros H. inv_step H as r Hr. inv_step H as k Hk.
    injection H as <- <-. destruct r as [a w'], k as [calls' w''].
    constructor; [by eapply HP|by eapply IH].
Qed.
End facet_loops.

(** ** The topology a facet assembler works with *)

Section facet_topology.
Context {T double : Type} `{!Scalar T} `{!Externals T double}.
Implicit Types (s : state T double) (t : Topology).

Lemma connectivity_created_dim (d0 d1 : Z) t :
  topology_dim (connectivity_created d0 d1 t) = topology_dim t.
Proof.
  unfold connectivity_created, facets_flagged, connectivity_computed.
  case_decide; simpl; repeat case_match; simpl;
    by rewrite !entities_created_dim.
Qed.

Lemma all_entities_created_dim (l : list Z) t :
  topology_dim (foldl (λ t d, entities_created d t) t l) = topology_dim t.
Proof.
  revert t. induction l as [|d l IH]; intros t; simpl; [done|].
  by rewrite IH, entities_created_dim.
Qed.

Lemma permutations_created_dim t :
  topology_dim (permutations_created t) = topology_dim t.
Proof.
  unfold permutations_created, topology_create_entity_permutations.
  case_match; simpl; by rewrite all_entities_created_dim.
Qed.

Lemma facet_topology_dim t :
  topology_dim (facet_topology t) = topology_dim t.
Proof.
  unfold facet_topology.
  by rewrite permutations_created_dim, connectivity_created_dim,
    entities_created_dim.
Qed.

Lemma create_facet_topology_run s :
  create_facet_topology s
  = (inr (), mkState (mkMesh (facet_topology (topology (st_mesh s)))
                             (geometry (st_mesh s)))
                     (st_calls s)).
Proof.
  unfold create_facet_topology. rewrite bind_run. simpl.
  destruct (create_entities_run (st_mesh s)
              (topology_dim (topology (st_mesh s)) - 1)) as [n Hn].
  rewrite bind_run. unfold on_mesh at 1. rewrite Hn.
  rewrite bind_run. unfold on_mesh at 1.
  rewrite create_connectivity_run. simpl.
  unfold on_mesh. by rewrite create_entity_permutations_run.
Qed.
End facet_topology.

(** ** The facet assemblers after their [create_*] calls *)

Section facet_assemblers.
Context {T double : Type} `{!Scalar T} `{!Externals T double}.
Implicit Types (s : state T double) (fn : kernel T double).
Implicit Types (coeffs : Array2 T) (constant_values : list T).
Implicit Types (f_to_c c_to_f : AdjacencyList) (offsets : list Z).

Lemma assemble_exterior_facets_loop active_facets fn coeffs constant_values s
    f_to_c c_to_f (num_dofs_g : Z) :
  let g := geometry (st_mesh s) in
  let t := facet_topology (topology (st_mesh s)) in
  let tdim := topology_dim t in
  connectivity t (tdim - 1) tdim = Some f_to_c →
  connectivity t tdim (tdim - 1) = Some c_to_f →
  num_links (dofmap g) 0 = inr num_dofs_g →
  0 ≤ geometry_dim g →
  assemble_exterior_facets active_facets fn coeffs constant_values s
  = foldM (λ value facet,
             a ← lift (exterior_facet_arguments g num_dofs_g
                         (get_facet_permutations t)
                         (get_cell_permutation_info t) f_to_c c_to_f
                         coeffs constant_values facet);
             invoke fn value a)
          zero active_facets (mkState (mkMesh t g) (st_calls s)).
Proof.
  intros g t tdim Hfc Hcf Hn Hg.
  unfold assemble_exterior_facets, exterior_facets_loop.
  rewrite bind_run, create_facet_topology_run. fold g t.
  rewrite bind_run. simpl. fold tdim.
  rewrite bind_run. unfold lift at 1. rewrite Hn.
  rewrite bind_run. unfold lift at 1.
  rewrite allocate_inr by (done || by eapply num_links_nonneg).
  rewrite bind_run. unfold lift at 1. rewrite Hfc. simpl.
  rewrite bind_run. unfold lift at 1. rewrite Hcf. simpl.
  reflexivity.
Qed.

Lemma new_array_length (n : Z) :
  0 ≤ n → ∃ w : list T, new_array n = inr w ∧ Z.of_nat (length w) = n.
Proof.
  intros Hn. unfold new_array. rewrite decide_True by done.
  eexists. split; [done|]. rewrite length_fmap, length_seq. lia.
Qed.

Lemma offsets_wf_nonneg offsets (n : Z) : offsets_wf offsets n → 0 ≤ n.
Proof.
  intros Hwf. pose proof Hwf as (_ & _ & Hl). rewrite last_lookup in Hl.
  pose proof (offsets_bounds _ _ Hwf _ _ Hl). lia.
Qed.

Lemma assemble_interior_facets_loop active_facets fn coeffs offsets
    constant_values s f_to_c c_to_f (num_dofs_g : Z) :
  let g := geometry (st_mesh s) in
  let t := facet_topology (topology (st_mesh s)) in
  let tdim := topology_dim t in
  connectivity t (tdim - 1) tdim = Some f_to_c →
  connectivity t tdim (tdim - 1) = Some c_to_f →
  num_links (dofmap g) 0 = inr num_dofs_g →
  0 ≤ geometry_dim g →
  offsets_wf offsets (cols coeffs) →
  ∃ coeff_array : list T,
    new_array (2 * cols coeffs) = inr coeff_array
    ∧ Z.of_nat (length coeff_array) = 2 * cols coeffs
    ∧ assemble_interior_facets active_facets fn coeffs offsets
        constant_values s
      = (r ← foldM (interior_body
                      (interior_facet_arguments g num_dofs_g
                         (get_facet_permutations t)
                         (get_cell_permutation_info t) f_to_c c_to_f
                         coeffs offsets constant_values) fn)
                   (zero, coeff_array) active_facets;
         mret r.1) (mkState (mkMesh t g) (st_calls s)).
Proof.
  intros g t tdim Hfc Hcf Hn Hg Hwf.
  pose proof (offsets_wf_nonneg _ _ Hwf) as Hcols.
  destruct (new_array_length (2 * cols coeffs)) as (w & Hw & Hlw); [lia|].
  exists w. split; [done|]. split; [done|].
  unfold assemble_interior_facets, interior_facets_loop.
  rewrite bind_run, create_facet_topology_run. fold g t.
  rewrite bind_run. simpl. fold tdim.
  rewrite bind_run. unfold lift at 1. rewrite Hn.
  rewrite bind_run. unfold lift at 1.
  rewrite allocate_inr
    by (done || (pose proof (num_links_nonneg _ _ _ Hn); lia)).
  destruct Hwf as (_ & _ & Hlast).
  rewrite bind_run. unfold lift at 1. rewrite Hlast. simpl.
  rewrite bind_run. unfold lift at 1. rewrite Hw.
  rewrite bind_run. unfold lift at 1.
  rewrite bool_decide_eq_true_2 by done. simpl.
  rewrite bind_run. unfold lift at 1. rewrite Hfc. simpl.
  rewrite bind_run. unfold lift at 1. rewrite Hcf. simpl.
  reflexivity.
Qed.
End facet_assemblers.

(** The exterior facet assembler on readable facets: one kernel call per
    active facet, in order. *)
Lemma assemble_exterior_facets_inr {T double} `{!Scalar T}
    `{!Externals T double}
    (s : state T double) (active_facets : list Z) (fn : kernel T double)
    (coeffs : Array2 T) (constant_values : list T)
    (f_to_c c_to_f : AdjacencyList) (num_dofs_g : Z) :
  let g := geometry (st_mesh s) in
  let t := facet_topology (topology (st_mesh s)) in
  let tdim := topology_dim t in
  let perms := get_facet_permutations t in
  let cell_info := get_cell_permutation_info t in
  connectivity t (tdim - 1) tdim = Some f_to_c →
  connectivity t tdim (tdim - 1) = Some c_to_f →
  num_links (dofmap g) 0 = inr num_dofs_g →
  0 ≤ geometry_dim g →
  Forall (exterior_facet_readable g num_dofs_g perms cell_info f_to_c c_to_f
            coeffs) active_facets →
  ∃ calls,
    Forall2 (λ f a, exterior_facet_arguments g num_dofs_g perms cell_info
                      f_to_c c_to_f coeffs constant_values f = inr a)
            active_facets calls
    ∧ assemble_exterior_facets active_facets fn coeffs constant_values s
      = (inr (foldl fn zero calls), mkState (mkMesh t g) (st_calls s ++ calls)).
Proof.
  intros g t tdim perms cell_info Hfc Hcf Hn Hg Hall.
  destruct (gather_all
              (exterior_facet_arguments g num_dofs_g perms cell_info
                 f_to_c c_to_f coeffs constant_values) active_facets)
    as [calls Hcalls].
  { eapply Forall_impl; [exact Hall|].
    intros f Hf. by apply exterior_facet_arguments_readable. }
  exists calls. split; [done|].
  rewrite (assemble_exterior_facets_loop _ _ _ _ _ _ _ _ Hfc Hcf Hn Hg).
  by rewrite (kernel_loop_inr _ fn active_facets calls).
Qed.

(** C4.  After the [create_*] calls of a facet assembler, let the facet to
    cell and the cell to facet connectivity be cached.  If the exterior
    (interior) assembler returns a value, every active facet has exactly one
    (two) incident cells, each of which lists the facet.  The first active
    facet with another number of incident cells, or that is missing from the
    facet list of an incident cell, stops the assembly with a failed
    assertion: the calls made for the facets before it are logged and no
    value is returned. *)
Theorem facet_incidence_checked {T double} `{!Scalar T} `{!Externals T double}
    (s : state T double) (active_facets : list Z) (fn : kernel T double)
    (coeffs : Array2 T) (offsets : list Z) (constant_values : list T)
    (f_to_c c_to_f : AdjacencyList) (num_dofs_g : Z) :
  let g := geometry (st_mesh s) in
  let t := facet_topology (topology (st_mesh s)) in
  let tdim := topology_dim t in
  let perms := get_facet_permutations t in
  let cell_info := get_cell_permutation_info t in
  let exterior := exterior_facet_arguments g num_dofs_g perms cell_info
                    f_to_c c_to_f coeffs constant_values in
  let interior := interior_facet_arguments g num_dofs_g perms cell_info
                    f_to_c c_to_f coeffs offsets constant_values in
  connectivity t (tdim - 1) tdim = Some f_to_c →
  connectivity t tdim (tdim - 1) = Some c_to_f →
  num_links (dofmap g) 0 = inr num_dofs_g →
  0 ≤ geometry_dim g →
  ((∀ value s',
      assemble_exterior_facets active_facets fn coeffs constant_values s
      = (inr value, s') →
      Forall (exterior_facet_consistent f_to_c c_to_f) active_facets)
   ∧ (∀ l1 facet l2 calls,
        active_facets = l1 ++ facet :: l2 →
        Forall2 (λ f a, exterior f = inr a) l1 calls →
        ((∃ cells, links f_to_c facet = inr cells ∧ length cells ≠ 1%nat) →
         assemble_exterior_facets active_facets fn coeffs constant_values s
         = (inl (assertion_failed "f_to_c->num_links(facet) == 1"),
            mkState (mkMesh t g) (st_calls s ++ calls)))
        ∧ ((∃ cell facets, links f_to_c facet = inr [cell]
                           ∧ links c_to_f cell = inr facets ∧ facet ∉ facets) →
           assemble_exterior_facets active_facets fn coeffs constant_values s
           = (inl (assertion_failed "it != (facets.data() + facets.rows())"),
              mkState (mkMesh t g) (st_calls s ++ calls)))))
  ∧ (offsets_wf offsets (cols coeffs) →
     (∀ value s',
        assemble_interior_facets active_facets fn coeffs offsets
          constant_values s = (inr value, s') →
        Forall (interior_facet_consistent f_to_c c_to_f) active_facets)
     ∧ (∀ l1 f l2 calls coeff_array coeff_array',
          active_facets = l1 ++ f :: l2 →
          new_array (2 * cols coeffs) = inr coeff_array →
          gather_interior interior coeff_array l1 = inr (calls, coeff_array') →
          ((∃ cells, links f_to_c f = inr cells ∧ length cells ≠ 2%nat) →
           assemble_interior_facets active_facets fn coeffs offsets
             constant_values s
           = (inl (assertion_failed "cells.rows() == 2"),
              mkState (mkMesh t g) (st_calls s ++ calls)))
          ∧ ((∃ cell0 cell1,
                links f_to_c f = inr [cell0; cell1]
                ∧ ((∃ facets0, links c_to_f cell0 = inr facets0 ∧ f ∉ facets0)
                   ∨ (∃ facets0 facets1,
                        links c_to_f cell0 = inr facets0 ∧ f ∈ facets0
                        ∧ links c_to_f cell1 = inr facets1 ∧ f ∉ facets1))) →
             assemble_interior_facets active_facets fn coeffs offsets
               constant_values s
             = (inl (assertion_failed "it != (facets.data() + facets.rows())"),
                mkState (mkMesh t g) (st_calls s ++ calls))))).
Proof.
  intros g t tdim perms cell_info exterior interior Hfc Hcf Hn Hg. split.
  - rewrite (assemble_exterior_facets_loop _ _ _ _ _ _ _ _ Hfc Hcf Hn Hg).
    fold g t perms cell_info exterior. split.
    + intros value s' [calls Hcalls]%kernel_loop_inv.
      eapply Forall2_left; [exact Hcalls|]. intros f a Ha. cbv beta in Ha.
      unfold exterior in Ha. by eapply exterior_facet_arguments_inv.
    + intros l1 facet l2 calls -> Hcalls. split.
      * intros (cells & Hl & Hlen).
        apply (kernel_loop_inl exterior fn l1 l2 facet _ calls zero
                 (mkState (mkMesh t g) (st_calls s)));
          [done|]. by eapply exterior_facet_arguments_count.
      * intros (cell & facets & Hl & Hc & Hnin).
        apply (kernel_loop_inl exterior fn l1 l2 facet _ calls zero
                 (mkState (mkMesh t g) (st_calls s)));
          [done|]. by eapply exterior_facet_arguments_missing.
  - intros Hwf.
    destruct (assemble_interior_facets_loop active_facets fn coeffs offsets
                constant_values s _ _ _ Hfc Hcf Hn Hg Hwf)
    as (w & Hw & Hlw & ->).
    fold g t perms cell_info interior.
    split.
    + intros value s'. rewrite bind_run.
      destruct (foldM _ _ _ _) as [[err|acc] s''] eqn:Hloop; [done|].
      intros _. apply interior_loop_inv in Hloop as (calls & w' & Hk).
      eapply (gather_interior_Forall2 interior
                (λ f a, interior_facet_consistent f_to_c c_to_f f)) in Hk.
      * eapply Forall2_left; [exact Hk|]. by intros f a Hf.
      * intros f w0 a w1 Ha. unfold interior in Ha.
        by apply interior_facet_arguments_inv in Ha as [? _].
    + intros l1 f l2 calls coeff_array coeff_array' -> Harr Hk.
      rewrite Hw in Harr. injection Harr as <-. split.
      * intros (cells & Hl & Hlen). rewrite bind_run.
        rewrite (interior_loop_inl interior fn l1 l2 f
                   (assertion_failed "cells.rows() == 2") calls w coeff_array');
          [done|done|]. by eapply interior_facet_arguments_count.
      * intros (cell0 & cell1 & Hl & Hmiss). rewrite bind_run.
        rewrite (interior_loop_inl interior fn l1 l2 f
                   (assertion_failed "it != (facets.data() + facets.rows())")
                   calls w coeff_array');
          [done|done|]. by eapply interior_facet_arguments_missing.
Qed.

(** C3.  Let every active interior facet be readable.  Then the interior
    facet assembler calls the kernel once per active facet, in the order of
    the list; the call for facet [f] with incident cells [cell0; cell1]
    carries the local indices of [f] in [cell0] and in [cell1], in this
    order, the two facet permutation bytes in the same order, and the cell
    permutation bitmask of [cell0]; the bitmask of [cell1] is not passed. *)
Theorem interior_facet_kernel_calls {T double} `{!Scalar T}
    `{!Externals T double}
    (s : state T double) (active_facets : list Z) (fn : kernel T double)
    (coeffs : Array2 T) (offsets : list Z) (constant_values : list T)
    (f_to_c c_to_f : AdjacencyList) (num_dofs_g : Z) :
  let g := geometry (st_mesh s) in
  let t := facet_topology (topology (st_mesh s)) in
  let tdim := topology_dim t in
  let perms := get_facet_permutations t in
  let cell_info := get_cell_permutation_info t in
  connectivity t (tdim - 1) tdim = Some f_to_c →
  connectivity t tdim (tdim - 1) = Some c_to_f →
  num_links (dofmap g) 0 = inr num_dofs_g →
  0 ≤ geometry_dim g →
  offsets_wf offsets (cols coeffs) →
  Array2_wf coeffs →
  Forall (interior_facet_readable g num_dofs_g perms cell_info f_to_c c_to_f
            coeffs) active_facets →
  ∃ calls,
    Forall2 (interior_call_spec perms cell_info f_to_c c_to_f)
            active_facets calls
    ∧ assemble_interior_facets active_facets fn coeffs offsets
        constant_values s
      = (inr (foldl fn zero calls),
         mkState (mkMesh t g) (st_calls s ++ calls)).
Proof.
  intros g t tdim perms cell_info Hfc Hcf Hn Hg Hwf Hrows Hall.
  destruct (assemble_interior_facets_loop active_facets fn coeffs offsets
              constant_values s _ _ _ Hfc Hcf Hn Hg Hwf)
    as (w & Hw & Hlw & ->).
  fold g t perms cell_info.
  set (interior := interior_facet_arguments g num_dofs_g perms cell_info
                     f_to_c c_to_f coeffs offsets constant_values).
  destruct (gather_interior_inr interior
              (interior_call_spec perms cell_info f_to_c c_to_f)
              (Z.to_nat (2 * cols coeffs)) active_facets w)
    as (calls & w' & Hk & Hspec); [|lia|].
  - intros f w0 Hin Hlen. rewrite Forall_forall in Hall.
    destruct (interior_facet_arguments_readable g num_dofs_g perms cell_info
                f_to_c c_to_f coeffs offsets constant_values w0 f)
      as (a & w1 & Ha & Hl1); [done|done| |by apply Hall|].
    { pose proof (offsets_wf_nonneg _ _ Hwf). lia. }
    exists a, w1. split; [done|]. split; [lia|].
    by apply interior_facet_arguments_inv in Ha as (_ & ? & _).
  - exists calls. split; [done|]. rewrite bind_run.
    by rewrite (interior_loop_inr interior fn active_facets calls w w').
Qed.

(** The array packed from two rows of the coefficient array. *)
Lemma pack_restricted_layout {T} (offsets : list Z) (n : Z)
    (coeff_cell0 coeff_cell1 coeff_array w : list T) :
  offsets_wf offsets n →
  Z.of_nat (length coeff_cell0) = n →
  Z.of_nat (length coeff_cell1) = n →
  Z.of_nat (length coeff_array) = 2 * n →
  pack_restricted offsets coeff_cell0 coeff_cell1 coeff_array = inr w →
  Z.of_nat (length w) = 2 * n
  ∧ (∀ i o_i o_i1,
       at_ offsets i = inr o_i → at_ offsets (i + 1) = inr o_i1 →
       ∃ slice0 slice1,
         segment coeff_cell0 o_i (o_i1 - o_i) = inr slice0
         ∧ segment coeff_cell1 o_i (o_i1 - o_i) = inr slice1
         ∧ segment w (2 * o_i) (o_i1 - o_i) = inr slice0
         ∧ segment w (2 * o_i + (o_i1 - o_i)) (o_i1 - o_i) = inr slice1)
  ∧ (head offsets = Some 0 →
     restriction 0 offsets w = inr coeff_cell0
     ∧ restriction 1 offsets w = inr coeff_cell1).
Proof.
  intros Hwf Hl0 Hl1 Hlen Hpack.
  destruct (pack_restricted_inr offsets n coeff_cell0 coeff_cell1
              Hwf ltac:(lia) ltac:(lia) coeff_array Hlen)
    as (w' & Hw & Hlw & Hslices).
  rewrite Hpack in Hw. injection Hw as <-.
  split; [done|]. split.
  - intros i o_i o_i1 Hi Hi1.
    destruct (Hslices i o_i o_i1 Hi Hi1) as (H0 & H1 & [slice0 Hs0] & [slice1 Hs1]).
    exists slice0, slice1. by rewrite H0, H1.
  - intros Hfirst.
    by apply (restriction_pack_restricted offsets n
                coeff_cell0 coeff_cell1 Hwf Hl0 Hl1 Hfirst coeff_array w).
Qed.


(** ** Caches only grow *)

Section caches.
Context {T double : Type} `{!Externals T double}.
Implicit Types (t : Topology) (mesh : Mesh double) (d e dim : Z).

Lemma cache_consistent_lookup t d0 d1 c :
  cache_consistent t → connectivity t d0 d1 = Some c →
  c = connectivity_of (topology_base t) d0 d1.
Proof. intros (_ & Hc & _) Hl. exact (Hc (d0, d1) c Hl). Qed.

Lemma grows_refl t : cache_consistent t → grows t t.
Proof. intros Ht. split; [done|]. split; [auto|]. split; [auto|done]. Qed.

Lemma grows_trans t1 t2 t3 : grows t1 t2 → grows t2 t3 → grows t1 t3.
Proof.
  intros (Hb1 & Hc1 & Hp1 & _) (Hb2 & Hc2 & Hp2 & Ht3).
  split; [congruence|]. split; [auto|]. split; [auto|done].
Qed.

Lemma grows_dim t t' : grows t t' → topology_dim t' = topology_dim t.
Proof. intros (Hb & _). by injection Hb. Qed.

(** Storing the connectivity of a pair of dimensions. *)
Lemma set_connectivity_grows t d0 d1 :
  cache_consistent t →
  (d0 = topology_dim t - 1 → d1 = 0 →
   is_Some (connectivity t (topology_dim t) (topology_dim t - 1))) →
  grows t (set_connectivity (connectivity_of (topology_base t) d0 d1) d0 d1 t).
Proof.
  intros Ht Hpair. pose proof Ht as (Hv & Hc & Hp & Hf).
  set (t' := set_connectivity _ d0 d1 t).
  assert (Hlook : ∀ e0 e1, is_Some (connectivity t e0 e1)
                           → connectivity t' e0 e1 = connectivity t e0 e1
                             ∨ (e0 = d0 ∧ e1 = d1)).
  { intros e0 e1 _. unfold t', connectivity, set_connectivity. simpl.
    destruct (decide ((d0, d1) = (e0, e1))) as [[= -> ->]|Hne];
      [by right|left; by rewrite lookup_insert_ne]. }
  assert (Hbase : topology_base t' = topology_base t).
  { unfold topology_base. f_equal.
    change (topology_dim t') with (topology_dim t).
    destruct Hv as [cv Hcv].
    unfold t', connectivity, set_connectivity in *. simpl.
    destruct (decide ((d0, d1) = (topology_dim t, 0))) as [[= -> ->]|Hne].
    - rewrite lookup_insert_eq, Hcv. f_equal. symmetry.
      by apply (cache_consistent_lookup t _ _ cv Ht).
    - by rewrite lookup_insert_ne. }
  assert (Hmono : ∀ e0 e1, is_Some (connectivity t e0 e1)
                           → is_Some (connectivity t' e0 e1)).
  { intros e0 e1 Hs. unfold t', connectivity, set_connectivity. simpl.
    destruct (decide ((d0, d1) = (e0, e1))) as [[= -> ->]|Hne].
    - rewrite lookup_insert_eq. eauto.
    - by rewrite lookup_insert_ne. }
  split; [done|]. split; [done|]. split; [done|].
  split; [by apply Hmono|]. split; [|split].
  - rewrite Hbase. unfold t', set_connectivity. simpl.
    by apply map_Forall_insert_2.
  - by rewrite Hbase.
  - change (topology_dim t') with (topology_dim t).
    unfold t' at 1, connectivity, set_connectivity. simpl.
    destruct (decide ((d0, d1) = (topology_dim t - 1, 0))) as [[= -> ->]|Hne].
    + intros _. by apply Hmono, Hpair.
    + rewrite lookup_insert_ne by done. intros Hs. by apply Hmono, Hf.
Qed.

Lemma set_index_map_grows t d m :
  cache_consistent t → grows t (set_index_map d m t).
Proof. intros Ht. by repeat split; try apply Ht. Qed.

Lemma set_interior_facets_grows t f :
  cache_consistent t → grows t (set_interior_facets f t).
Proof. intros Ht. by repeat split; try apply Ht. Qed.

Lemma with_entities_grows t dim :
  cache_consistent t → grows t (with_entities dim t).
Proof.
  intros Ht. unfold with_entities.
  set (t1 := set_connectivity _ (topology_dim t) dim t).
  assert (H1 : grows t t1).
  { apply set_connectivity_grows; [done|lia]. }
  pose proof H1 as (Hb1 & _ & _ & Ht1).
  set (t2 := set_connectivity _ dim 0 t1).
  assert (H2 : grows t1 t2).
  { unfold t2. rewrite <- Hb1. apply set_connectivity_grows; [done|].
    intros Hd _. unfold t1, connectivity, set_connectivity in *.
    simpl in *. rewrite <- Hd, lookup_insert_eq. eauto. }
  pose proof H2 as (_ & _ & _ & Ht2).
  eapply grows_trans; [exact H1|]. eapply grows_trans; [exact H2|].
  by apply set_index_map_grows.
Qed.

Lemma entities_created_grows t dim :
  cache_consistent t → grows t (entities_created dim t).
Proof.
  intros Ht. unfold entities_created. case_decide.
  - by apply grows_refl.
  - by apply with_entities_grows.
Qed.

Lemma entities_created_present t dim :
  is_Some (connectivity (entities_created dim t) dim 0).
Proof.
  unfold entities_created. case_decide; [done|].
  apply with_entities_connectivity.
Qed.

Lemma connectivity_computed_grows t d0 d1 :
  cache_consistent t →
  is_Some (connectivity t d0 0) → is_Some (connectivity t d1 0) →
  grows t (connectivity_computed d0 d1 t)
  ∧ is_Some (connectivity (connectivity_computed d0 d1 t) d0 d1).
Proof.
  intros Ht H0 H1. pose proof Ht as (_ & _ & _ & Hf).
  unfold connectivity_computed.
  destruct (connectivity t d0 d1) as [c|] eqn:Hc.
  { split; [by apply grows_refl|]. rewrite Hc. eauto. }
  set (t1 := set_connectivity _ d0 d1 t).
  assert (G1 : grows t t1).
  { apply set_connectivity_grows; [done|].
    intros Hd0 _. apply Hf. by rewrite <- Hd0. }
  assert (P1 : is_Some (connectivity t1 d0 d1)).
  { unfold t1, connectivity, set_connectivity. simpl.
    rewrite lookup_insert_eq. eauto. }
  destruct (transposed_for_free d0 d1); [|done].
  pose proof G1 as (Hb1 & Hm1 & _ & Ht1).
  pose proof Ht1 as (_ & _ & _ & Hf1).
  set (t2 := set_connectivity _ d1 d0 t1).
  assert (G2 : grows t1 t2).
  { unfold t2. rewrite <- Hb1. apply set_connectivity_grows; [done|].
    intros Hd1 _. apply Hf1. apply Hm1.
    rewrite (grows_dim _ _ G1). rewrite (grows_dim _ _ G1) in Hd1.
    by rewrite <- Hd1. }
  split; [by eapply grows_trans|].
  by apply G2.
Qed.

Lemma connectivity_created_grows t d0 d1 :
  cache_consistent t →
  grows t (connectivity_created d0 d1 t)
  ∧ is_Some (connectivity (connectivity_created d0 d1 t) d0 d1).
Proof.
  intros Ht. unfold connectivity_created.
  set (t1 := entities_created d0 t).
  pose proof (entities_created_grows t d0 Ht) as G1. fold t1 in G1.
  set (t2 := entities_created d1 t1).
  pose proof (entities_created_grows t1 d1 ltac:(apply G1)) as G2.
  fold t2 in G2.
  destruct (connectivity_computed_grows t2 d0 d1) as [G3 P3].
  { apply G2. }
  { apply G2. apply entities_created_present. }
  { apply entities_created_present. }
  set (t3 := connectivity_computed d0 d1 t2) in *.
  unfold facets_flagged. case_decide.
  - split.
    + eapply grows_trans; [exact G1|]. eapply grows_trans; [exact G2|].
      eapply grows_trans; [exact G3|].
      apply set_interior_facets_grows. apply G3.
    + done.
  - split; [|done].
    eapply grows_trans; [exact G1|]. by eapply grows_trans.
Qed.

Lemma all_entities_created_grows t (l : list Z) :
  cache_consistent t → grows t (foldl (λ t d, entities_created d t) t l).
Proof.
  revert t. induction l as [|d l IH]; intros t Ht; simpl.
  - by apply grows_refl.
  - pose proof (entities_created_grows t d Ht) as G.
    eapply grows_trans; [exact G|]. apply IH. apply G.
Qed.

Lemma topology_create_entity_permutations_grows t :
  cache_consistent t →
  grows t (topology_create_entity_permutations t)
  ∧ is_Some (topology_permutations (topology_create_entity_permutations t)).
Proof.
  intros Ht. unfold topology_create_entity_permutations.
  destruct (topology_permutations t) as [p|] eqn:Hp.
  - split; [by apply grows_refl|]. rewrite Hp. eauto.
  - split; [|simpl; eauto].
    destruct Ht as (Hv & Hc & _ & Hf).
    split; [done|]. split; [done|]. split; [simpl; eauto|].
    split; [done|]. split; [done|]. split; [|done].
    simpl. by intros p [= <-].
Qed.

Lemma permutations_created_grows t :
  cache_consistent t →
  grows t (permutations_created t)
  ∧ is_Some (topology_permutations (permutations_created t)).
Proof.
  intros Ht. unfold permutations_created.
  pose proof (all_entities_created_grows t (seqZ 0 (topology_dim t)) Ht) as G.
  destruct (topology_create_entity_permutations_grows
              (foldl (λ t d, entities_created d t) t
                 (seqZ 0 (topology_dim t)))) as [G' P]; [apply G|].
  split; [by eapply grows_trans|done].
Qed.
End caches.

Section builds.
Context {T double : Type} `{!Externals T double}.
Implicit Types (t : Topology) (mesh : Mesh double).

Lemma builds_ret {A} (a : A) : builds (mret a).
Proof.
  intros mesh Ht. exists a, (topology mesh).
  split; [by destruct mesh|by apply grows_refl].
Qed.

Lemma builds_bind {A B} (m : M (Mesh double) A) (f : A → M (Mesh double) B) :
  builds m → (∀ a, builds (f a)) → builds (m ≫= f).
Proof.
  intros Hm Hf mesh Ht.
  destruct (Hm mesh Ht) as (a & t1 & Ha & G1).
  destruct (Hf a (mkMesh t1 (geometry mesh)) ltac:(apply G1))
    as (b & t2 & Hb & G2).
  exists b, t2. rewrite bind_run, Ha, Hb. split; [done|].
  by eapply grows_trans.
Qed.

Lemma builds_foldM {A B} (body : B → A → M (Mesh double) B) (b : B)
    (l : list A) :
  (∀ b a, builds (body b a)) → builds (foldM body b l).
Proof.
  intros Hbody. revert b. induction l as [|a l IH]; intros b; simpl.
  - apply builds_ret.
  - apply builds_bind; [apply Hbody|apply IH].
Qed.

Lemma builds_create_entities (dim : Z) : builds (create_entities dim).
Proof.
  intros mesh Ht. destruct (create_entities_run mesh dim) as [n Hn].
  exists n, (entities_created dim (topology mesh)).
  split; [done|by apply entities_created_grows].
Qed.

Lemma builds_create_connectivity (d0 d1 : Z) :
  builds (create_connectivity d0 d1).
Proof.
  intros mesh Ht.
  exists (), (connectivity_created d0 d1 (topology mesh)).
  split; [apply create_connectivity_run|].
  by apply connectivity_created_grows.
Qed.

Lemma builds_create_entity_permutations : builds create_entity_permutations.
Proof.
  intros mesh Ht.
  exists (), (permutations_created (topology mesh)).
  split; [apply create_entity_permutations_run|].
  by apply permutations_created_grows.
Qed.

Lemma builds_create_connectivity_all : builds create_connectivity_all.
Proof.
  unfold create_connectivity_all.
  apply builds_bind.
  { intros mesh Ht. exists mesh, (topology mesh).
    split; [by destruct mesh|by apply grows_refl]. }
  intros mesh. apply builds_bind.
  - apply builds_foldM. intros [] d.
    apply builds_bind; [apply builds_create_entities|].
    intros _. apply builds_ret.
  - intros _. apply builds_foldM. intros [] d0.
    apply builds_foldM. intros [] d1. apply builds_create_connectivity.
Qed.

Lemma builds_run_create (op : create_op) : builds (run_create op).
Proof.
  destruct op as [dim|d0 d1| |]; simpl.
  - apply builds_bind; [apply builds_create_entities|].
    intros _. apply builds_ret.
  - apply builds_create_connectivity.
  - apply builds_create_entity_permutations.
  - apply builds_create_connectivity_all.
Qed.

Lemma builds_precreate (ops : list create_op) : builds (precreate ops).
Proof.
  unfold precreate. apply builds_foldM. intros [] op.
  apply builds_run_create.
Qed.

(** What the cell assembler reads from the topology it has prepared. *)
Lemma cell_topology_view t :
  cache_consistent t →
  grows t (cell_topology t)
  ∧ topology_permutations (cell_topology t)
    = Some (permutations_of (topology_base t)).
Proof.
  intros Ht. unfold cell_topology.
  pose proof (entities_created_grows t (topology_dim t) Ht) as G1.
  destruct (permutations_created_grows
              (entities_created (topology_dim t) t) ltac:(apply G1))
    as [G2 [p Hp]].
  pose proof (grows_trans _ _ _ G1 G2) as G.
  split; [done|]. rewrite Hp. f_equal.
  destruct G as (Hb & _ & _ & (_ & _ & Hperm & _)).
  rewrite <- Hb. by apply Hperm.
Qed.

(** What a facet assembler reads from the topology it has prepared. *)
Lemma facet_topology_view t :
  cache_consistent t →
  let t' := facet_topology t in
  let tdim := topology_dim t in
  grows t t'
  ∧ topology_permutations t' = Some (permutations_of (topology_base t))
  ∧ connectivity t' (tdim - 1) tdim
    = Some (connectivity_of (topology_base t) (tdim - 1) tdim)
  ∧ connectivity t' tdim (tdim - 1)
    = Some (connectivity_of (topology_base t) tdim (tdim - 1)).
Proof.
  intros Ht t' tdim. unfold t', facet_topology. fold tdim.
  set (t1 := entities_created (tdim - 1) t).
  pose proof (entities_created_grows t (tdim - 1) Ht) as G1. fold t1 in G1.
  pose proof (entities_created_present t (tdim - 1)) as P1. fold t1 in P1.
  assert (Hd1 : topology_dim t1 = tdim) by apply (grows_dim _ _ G1).
  assert (Q1 : is_Some (connectivity t1 tdim (tdim - 1))).
  { destruct G1 as (_ & _ & _ & (_ & _ & _ & Hf)).
    rewrite Hd1 in Hf. by apply Hf. }
  set (t2 := connectivity_created (tdim - 1) tdim t1).
  destruct (connectivity_created_grows t1 (tdim - 1) tdim ltac:(apply G1))
    as [G2 P2]. fold t2 in G2, P2.
  destruct (permutations_created_grows t2 ltac:(apply G2)) as [G3 [p Hp]].
  set (t3 := permutations_created t2) in *.
  pose proof (grows_trans _ _ _ G1 (grows_trans _ _ _ G2 G3)) as G.
  pose proof G as (Hb & _ & _ & Ht3).
  split; [done|]. split; [|split].
  - rewrite Hp. f_equal. rewrite <- Hb. by apply Ht3.
  - destruct G3 as (_ & Hm3 & _).
    destruct (Hm3 _ _ P2) as [c Hc]. rewrite Hc. f_equal.
    rewrite <- Hb. by apply cache_consistent_lookup.
  - destruct G2 as (_ & Hm2 & _). destruct G3 as (_ & Hm3 & _).
    destruct (Hm3 _ _ (Hm2 _ _ Q1)) as [c Hc]. rewrite Hc. f_equal.
    rewrite <- Hb. by apply cache_consistent_lookup.
Qed.
End builds.

(** ** Assembly does not depend on what is cached *)

Section agreement.
Context {T double : Type} `{!Scalar T} `{!Externals T double}.
Implicit Types (s : state T double) (fn : kernel T double).
Implicit Types (mesh : Mesh double).

Lemma logs_only_lift {A} (r : result A) :
  logs_only (lift (S := state T double) r).
Proof. exists r, []. intros [mesh log]. unfold lift. simpl. by rewrite app_nil_r. Qed.

Lemma logs_only_ret {A} (a : A) : logs_only (mret (M := M (state T double)) a).
Proof. exists (inr a), []. intros [mesh log]. run_M. by rewrite app_nil_r. Qed.

Lemma logs_only_invoke fn (value : T) (a : call T double) :
  logs_only (invoke fn value a).
Proof. by exists (inr (fn value a)), [a]. Qed.

Lemma logs_only_bind {A B} (m : M (state T double) A)
    (f : A → M (state T double) B) :
  logs_only m → (∀ a, logs_only (f a)) → logs_only (m ≫= f).
Proof.
  intros (r1 & calls1 & Hm) Hf. destruct r1 as [e|a].
  - exists (inl e), calls1. intros s. by rewrite bind_run, Hm.
  - destruct (Hf a) as (r2 & calls2 & Hfa).
    exists r2, (calls1 ++ calls2). intros s.
    rewrite bind_run, Hm, Hfa. simpl. by rewrite app_assoc.
Qed.

Lemma logs_only_foldM {A B} (body : B → A → M (state T double) B) (b : B)
    (l : list A) :
  (∀ b a, logs_only (body b a)) → logs_only (foldM body b l).
Proof.
  intros Hbody. revert b. induction l as [|a l IH]; intros b; simpl.
  - apply logs_only_ret.
  - apply logs_only_bind; [apply Hbody|apply IH].
Qed.

Lemma logs_only_cells_loop mesh active_cells fn coeffs constant_values :
  logs_only (cells_loop mesh active_cells fn coeffs constant_values).
Proof.
  unfold cells_loop. apply logs_only_bind; [apply logs_only_lift|].
  intros num_dofs_g. apply logs_only_bind; [apply logs_only_lift|].
  intros _. apply logs_only_foldM. intros value c.
  apply logs_only_bind; [apply logs_only_lift|].
  intros a. apply logs_only_invoke.
Qed.

Lemma logs_only_exterior_facets_loop mesh active_facets fn coeffs
    constant_values :
  logs_only (exterior_facets_loop mesh active_facets fn coeffs
               constant_values).
Proof.
  unfold exterior_facets_loop.
  apply logs_only_bind; [apply logs_only_lift|]. intros num_dofs_g.
  apply logs_only_bind; [apply logs_only_lift|]. intros _.
  apply logs_only_bind; [apply logs_only_lift|]. intros f_to_c.
  apply logs_only_bind; [apply logs_only_lift|]. intros c_to_f.
  apply logs_only_foldM. intros value c.
  apply logs_only_bind; [apply logs_only_lift|].
  intros a. apply logs_only_invoke.
Qed.

Lemma logs_only_interior_facets_loop mesh active_facets fn coeffs offsets
    constant_values :
  logs_only (interior_facets_loop mesh active_facets fn coeffs offsets
               constant_values).
Proof.
  unfold interior_facets_loop.
  apply logs_only_bind; [apply logs_only_lift|]. intros num_dofs_g.
  apply logs_only_bind; [apply logs_only_lift|]. intros [].
  apply logs_only_bind; [apply logs_only_lift|]. intros offsets_back.
  apply logs_only_bind; [apply logs_only_lift|]. intros coeff_array.
  apply logs_only_bind; [apply logs_only_lift|]. intros _.
  apply logs_only_bind; [apply logs_only_lift|]. intros f_to_c.
  apply logs_only_bind; [apply logs_only_lift|]. intros c_to_f.
  apply logs_only_bind; [|intros r; apply logs_only_ret].
  apply logs_only_foldM. intros acc f. unfold interior_body.
  apply logs_only_bind; [apply logs_only_lift|]. intros r.
  apply logs_only_bind; [apply logs_only_invoke|]. intros value.
  apply logs_only_ret.
Qed.

Lemma agrees_ret {A} (a : A) : agrees (mret (M := M (state T double)) a).
Proof.
  intros s1 s2 Hs. exists (inr a), []. run_M.
  by rewrite !app_nil_r.
Qed.

Lemma agrees_lift {A} (r : result A) : agrees (lift (S := state T double) r).
Proof.
  intros s1 s2 Hs. exists r, []. unfold lift. simpl.
  by rewrite !app_nil_r.
Qed.

Lemma agrees_bind {A B} (m : M (state T double) A)
    (f : A → M (state T double) B) :
  agrees m → (∀ a, agrees (f a)) → agrees (m ≫= f).
Proof.
  intros Hm Hf s1 s2 Hs.
  destruct (Hm s1 s2 Hs) as (r1 & calls1 & H1 & H2 & L1 & L2 & Hs').
  rewrite !bind_run.
  destruct (m s1) as [r1' s1'], (m s2) as [r2' s2']. simpl in *.
  rewrite H1, H2. clear H1 H2. destruct r1 as [e|a].
  - exists (inl e), calls1. by simpl.
  - destruct (Hf a s1' s2' Hs') as (r2 & calls2 & H1' & H2' & L1' & L2' & Hs'').
    exists r2, (calls1 ++ calls2).
    rewrite L1', L2', L1, L2, !app_assoc. done.
Qed.

Lemma agrees_foldM {A B} (body : B → A → M (state T double) B) (b : B)
    (l : list A) :
  (∀ b a, agrees (body b a)) → agrees (foldM body b l).
Proof.
  intros Hbody. revert b. induction l as [|a l IH]; intros b; simpl.
  - apply agrees_ret.
  - apply agrees_bind; [apply Hbody|apply IH].
Qed.

(** The facet assemblers, with the topology they prepare made explicit. *)
Lemma assemble_exterior_facets_split active_facets fn coeffs
    constant_values s :
  let mesh := mkMesh (facet_topology (topology (st_mesh s)))
                     (geometry (st_mesh s)) in
  assemble_exterior_facets active_facets fn coeffs constant_values s
  = exterior_facets_loop mesh active_facets fn coeffs constant_values
      (mkState mesh (st_calls s)).
Proof.
  intros mesh. unfold assemble_exterior_facets.
  by rewrite bind_run, create_facet_topology_run.
Qed.

Lemma assemble_interior_facets_split active_facets fn coeffs offsets
    constant_values s :
  let mesh := mkMesh (facet_topology (topology (st_mesh s)))
                     (geometry (st_mesh s)) in
  assemble_interior_facets active_facets fn coeffs offsets constant_values s
  = interior_facets_loop mesh active_facets fn coeffs offsets
      constant_values (mkState mesh (st_calls s)).
Proof.
  intros mesh. unfold assemble_interior_facets.
  by rewrite bind_run, create_facet_topology_run.
Qed.

Lemma similar_grown s1 s2 t1 t2 (calls : list (call T double)) :
  similar s1 s2 →
  grows (topology (st_mesh s1)) t1 → grows (topology (st_mesh s2)) t2 →
  similar (mkState (mkMesh t1 (geometry (st_mesh s1))) (st_calls s1 ++ calls))
          (mkState (mkMesh t2 (geometry (st_mesh s2))) (st_calls s2 ++ calls)).
Proof.
  intros (Hg & Hb & _ & _) (Hb1 & _ & _ & Ht1) (Hb2 & _ & _ & Ht2).
  split; [done|]. split; [simpl; congruence|done].
Qed.

Lemma agrees_assemble_cells active_cells fn coeffs constant_values :
  agrees (assemble_cells active_cells fn coeffs constant_values).
Proof.
  intros s1 s2 Hs. pose proof Hs as (Hg & Hb & Ht1 & Ht2).
  rewrite !assemble_cells_run.
  destruct (cell_topology_view _ Ht1) as [G1 P1].
  destruct (cell_topology_view _ Ht2) as [G2 P2].
  set (mesh1 := mkMesh (cell_topology (topology (st_mesh s1))) _).
  set (mesh2 := mkMesh (cell_topology (topology (st_mesh s2))) _).
  assert (Heq : cells_loop mesh1 active_cells fn coeffs constant_values
                = cells_loop mesh2 active_cells fn coeffs constant_values).
  { unfold cells_loop, get_cell_permutation_info, mesh1, mesh2. simpl.
    by rewrite P1, P2, Hg, Hb. }
  rewrite Heq.
  destruct (logs_only_cells_loop mesh2 active_cells fn coeffs constant_values)
    as (r & calls & Hloop).
  exists r, calls. rewrite !Hloop. simpl.
  split; [done|]. split; [done|]. split; [done|]. split; [done|].
  by apply similar_grown.
Qed.

Lemma agrees_assemble_exterior_facets active_facets fn coeffs
    constant_values :
  agrees (assemble_exterior_facets active_facets fn coeffs constant_values).
Proof.
  intros s1 s2 Hs. pose proof Hs as (Hg & Hb & Ht1 & Ht2).
  rewrite !assemble_exterior_facets_split.
  destruct (facet_topology_view _ Ht1) as (G1 & P1 & F1 & C1).
  destruct (facet_topology_view _ Ht2) as (G2 & P2 & F2 & C2).
  set (mesh1 := mkMesh (facet_topology (topology (st_mesh s1))) _).
  set (mesh2 := mkMesh (facet_topology (topology (st_mesh s2))) _).
  assert (Hdim : topology_dim (topology (st_mesh s1))
                 = topology_dim (topology (st_mesh s2))) by (by injection Hb).
  assert (Heq : exterior_facets_loop mesh1 active_facets fn coeffs
                  constant_values
                = exterior_facets_loop mesh2 active_facets fn coeffs
                    constant_values).
  { unfold exterior_facets_loop, get_cell_permutation_info,
      get_facet_permutations, mesh1, mesh2. simpl.
    rewrite !facet_topology_dim.
    by rewrite P1, P2, F1, F2, C1, C2, Hg, Hb, Hdim. }
  rewrite Heq.
  destruct (logs_only_exterior_facets_loop mesh2 active_facets fn coeffs
              constant_values) as (r & calls & Hloop).
  exists r, calls. rewrite !Hloop. simpl.
  split; [done|]. split; [done|]. split; [done|]. split; [done|].
  by apply similar_grown.
Qed.

Lemma agrees_assemble_interior_facets active_facets fn coeffs offsets
    constant_values :
  agrees (assemble_interior_facets active_facets fn coeffs offsets
            constant_values).
Proof.
  intros s1 s2 Hs. pose proof Hs as (Hg & Hb & Ht1 & Ht2).
  rewrite !assemble_interior_facets_split.
  destruct (facet_topology_view _ Ht1) as (G1 & P1 & F1 & C1).
  destruct (facet_topology_view _ Ht2) as (G2 & P2 & F2 & C2).
  set (mesh1 := mkMesh (facet_topology (topology (st_mesh s1))) _).
  set (mesh2 := mkMesh (facet_topology (topology (st_mesh s2))) _).
  assert (Hdim : topology_dim (topology (st_mesh s1))
                 = topology_dim (topology (st_mesh s2))) by (by injection Hb).
  assert (Heq : interior_facets_loop mesh1 active_facets fn coeffs offsets
                  constant_values
                = interior_facets_loop mesh2 active_facets fn coeffs offsets
                    constant_values).
  { unfold interior_facets_loop, get_cell_permutation_info,
      get_facet_permutations, mesh1, mesh2. simpl.
    rewrite !facet_topology_dim.
    by rewrite P1, P2, F1, F2, C1, C2, Hg, Hb, Hdim. }
  rewrite Heq.
  destruct (logs_only_interior_facets_loop mesh2 active_facets fn coeffs
              offsets constant_values) as (r & calls & Hloop).
  exists r, calls. rewrite !Hloop. simpl.
  split; [done|]. split; [done|]. split; [done|]. split; [done|].
  by apply similar_grown.
Qed.

Lemma agrees_add_integrals
    (assemble : list Z → kernel T double → M (state T double) T)
    (integrals : list (kernel T double * list Z)) (value : T) :
  (∀ active fn, agrees (assemble active fn)) →
  agrees (add_integrals assemble integrals value).
Proof.
  intros Ha. unfold add_integrals. apply agrees_foldM.
  intros v integral. apply agrees_bind; [apply Ha|].
  intros v'. apply agrees_ret.
Qed.

Lemma agrees_assemble_scalar (F : Form T double) : agrees (assemble_scalar F).
Proof.
  unfold assemble_scalar. destruct (negb (all_constants_set F)).
  { apply agrees_lift. }
  apply agrees_bind; [apply agrees_lift|]. intros arrays.
  unfold assemble_integrals.
  apply agrees_bind.
  { apply agrees_add_integrals. intros. apply agrees_assemble_cells. }
  intros v1. apply agrees_bind.
  { apply agrees_add_integrals. intros. apply agrees_assemble_exterior_facets. }
  intros v2. apply agrees_bind.
  { apply agrees_add_integrals. intros. apply agrees_assemble_interior_facets. }
  intros v3. apply agrees_ret.
Qed.
End agreement.

(** C7.  Take a mesh whose caches are consistent and let a caller run any
    sequence of [create_entities], [create_connectivity],
    [create_entity_permutations] and [create_connectivity_all] before
    assembling.  The preparation succeeds, and assembling the form afterwards
    gives the same outcome (the same value, or the same failure) and makes
    the same kernel calls as assembling it at once: each assembler triggers
    the creation of what it reads. *)
Theorem lazy_build_equals_prebuild {T double} `{!Scalar T}
    `{!Externals T double}
    (F : Form T double) (s : state T double) (ops : list create_op) :
  cache_consistent (topology (st_mesh s)) →
  ∃ prepared r calls,
    precreate ops (st_mesh s) = (inr (), prepared)
    ∧ (assemble_scalar F s).1 = r
    ∧ (assemble_scalar F (mkState prepared (st_calls s))).1 = r
    ∧ st_calls (assemble_scalar F s).2 = st_calls s ++ calls
    ∧ st_calls (assemble_scalar F (mkState prepared (st_calls s))).2
      = st_calls s ++ calls.
Proof.
  intros Ht.
  destruct (builds_precreate ops (st_mesh s) Ht) as ([] & t' & Hpre & G).
  set (prepared := mkMesh t' (geometry (st_mesh s))) in *.
  assert (Hsim : similar s (mkState prepared (st_calls s))).
  { destruct G as (Hb & _ & _ & Ht').
    split; [done|]. split; [by simpl|]. split; done. }
  destruct (agrees_assemble_scalar F _ _ Hsim)
    as (r & calls & H1 & H2 & L1 & L2 & _).
  by exists prepared, r, calls.
Qed.

(** ** The properties at work on the two-interval mesh *)

Section interval_mesh.
Import interval.

Lemma interval_coordinates_readable (x_dofs : list Z) :
  Forall (λ d, 0 ≤ d < 3) x_dofs → (2 ≤ length x_dofs)%nat →
  coordinates_readable the_geometry 2 x_dofs.
Proof.
  intros Hall Hlen i Hi.
  destruct (lookup_lt_is_Some_2 x_dofs (Z.to_nat i)) as [d Hd]; [lia|].
  rewrite Forall_forall in Hall.
  assert (Hd3 : 0 ≤ d < 3) by (apply Hall; apply list_elem_of_lookup; eauto).
  destruct (lookup_lt_is_Some_2 (x the_geometry) (Z.to_nat d)) as [r Hr];
    [simpl; lia|].
  exists d, r. split; [done|]. split; [lia|]. split; [done|].
  assert (Hrows : Forall (λ r, length r = 3%nat) (x the_geometry))
    by (by repeat constructor).
  rewrite Forall_forall in Hrows.
  rewrite (Hrows r) by (apply list_elem_of_lookup; eauto). simpl. lia.
Defined.

Lemma interval_cell_data_readable (c : Z) :
  0 ≤ c < 2 → cell_data_readable the_geometry 2 coeffs c.
Proof.
  intros Hc. split; [lia|]. split; [|simpl; lia].
  assert (c = 0 ∨ c = 1) as [-> | ->] by lia; eexists; (split; [reflexivity|]);
    apply interval_coordinates_readable;
    solve [repeat constructor; lia | simpl; lia].
Defined.
End interval_mesh.

Lemma assemble_cells_constant_kernel_witness :
  (assemble_cells [0; 1; 0] (λ value _, value + 7) interval.coeffs []
     interval.fresh_state).1 = inr 21.
Proof.
  apply (proj1 (proj2 (proj2 assemble_cells_constant_kernel)) Z
           interval.externals
           interval.fresh_state [0; 1; 0] 7 interval.coeffs [] 2).
  - reflexivity.
  - simpl. lia.
  - repeat constructor;
      solve [apply interval_cell_data_readable; lia | vm_compute; reflexivity].
Defined.

Section interval_facets.
Import interval.

Lemma interval_facet_of_cell (facet cell : Z) :
  0 ≤ cell < 2 → facet = cell ∨ facet = cell + 1 →
  facet_of_cell [[0; 1]; [1; 0]] cell_vertex facet cell.
Proof.
  intros Hc Hf. split; [lia|].
  assert (cell = 0 ∨ cell = 1) as [-> | ->] by lia;
    destruct Hf as [-> | ->]; eexists _, _;
    (split; [reflexivity|]);
    (split; [apply list_elem_of_In; simpl; tauto|]);
    (split; [reflexivity|simpl; lia]).
Defined.

Lemma interval_facet_topology :
  facet_topology (topology (st_mesh fresh_state))
  = mkTopology 1
      (<[0 := mkIndexMap 3 0 3 1]> (<[1 := mkIndexMap 2 0 2 1]> ∅))
      (<[(0, 1) := vertex_cell]>
         (<[(0, 0) := [[0]; [1]; [2]]]> (<[(1, 0) := cell_vertex]> ∅)))
      [false; true; false] (Some ([5; 9], [[0; 1]; [1; 0]])).
Proof. vm_compute. reflexivity. Defined.

Lemma interval_facet_to_cell :
  let t := facet_topology (topology (st_mesh fresh_state)) in
  connectivity t (topology_dim t - 1) (topology_dim t) = Some vertex_cell.
Proof. reflexivity. Defined.

Lemma interval_cell_to_facet :
  let t := facet_topology (topology (st_mesh fresh_state)) in
  connectivity t (topology_dim t) (topology_dim t - 1) = Some cell_vertex.
Proof. reflexivity. Defined.

Lemma interval_num_dofs :
  num_links (dofmap (geometry (st_mesh fresh_state))) 0 = inr 2.
Proof. reflexivity. Defined.

Lemma interval_geometry_dim :
  0 ≤ geometry_dim (geometry (st_mesh fresh_state)).
Proof. simpl. lia. Defined.

Lemma interval_offsets_wf : offsets_wf offsets (cols coeffs).
Proof.
  split; [|split].
  - repeat constructor; lia.
  - intros o [= <-]. lia.
  - reflexivity.
Defined.
End interval_facets.


Lemma interior_facet_kernel_calls_witness :
  (assemble_interior_facets [1] interval.add_bitmask interval.coeffs
     interval.offsets [3] interval.fresh_state).1 = inr 5.
Proof.
  destruct (interior_facet_kernel_calls interval.fresh_state [1]
              interval.add_bitmask interval.coeffs interval.offsets [3]
              interval.vertex_cell interval.cell_vertex 2)
    as (calls & Hspec & ->).
  - exact interval_facet_to_cell.
  - exact interval_cell_to_facet.
  - exact interval_num_dofs.
  - exact interval_geometry_dim.
  - exact interval_offsets_wf.
  - repeat constructor.
  - cbv zeta. rewrite interval_facet_topology. simpl.
    constructor; [|constructor]. split; [lia|].
    exists 0, 1. split; [reflexivity|].
    split; [apply interval_facet_of_cell; lia|].
    split; [apply interval_facet_of_cell; lia|].
    split; [split; [apply interval_cell_data_readable; lia|simpl; lia]|].
    apply interval_cell_data_readable; lia.
  - cbv zeta in *. rewrite interval_facet_topology in Hspec. simpl in *.
    apply Forall2_cons_inv_l in Hspec as (a & calls' & Ha & Hnil & ->).
    apply Forall2_nil_inv_l in Hnil as ->.
    destruct Ha as (cell0 & cell1 & facets0 & facets1 & perm0 & perm1 & info
                    & Hl & _ & _ & _ & _ & _ & _ & Hinfo & _ & _ & Hcall).
    injection Hl as <- <-. injection Hinfo as <-.
    simpl. unfold interval.add_bitmask. by rewrite Hcall.
Defined.

Lemma facet_incidence_checked_witness :
  (assemble_exterior_facets [0; 1; 2] interval.add_bitmask interval.coeffs [3]
     interval.fresh_state).1
  = inl (assertion_failed "f_to_c->num_links(facet) == 1")
  ∧ (assemble_interior_facets [0] interval.add_bitmask interval.coeffs
       interval.offsets [3] interval.fresh_state).1
    = inl (assertion_failed "cells.rows() == 2").
Proof.
  destruct (facet_incidence_checked interval.fresh_state [0; 1; 2]
              interval.add_bitmask interval.coeffs interval.offsets [3]
              interval.vertex_cell interval.cell_vertex 2
              interval_facet_to_cell interval_cell_to_facet interval_num_dofs
              interval_geometry_dim)
    as [[_ Hext] _].
  destruct (facet_incidence_checked interval.fresh_state [0]
              interval.add_bitmask interval.coeffs interval.offsets [3]
              interval.vertex_cell interval.cell_vertex 2
              interval_facet_to_cell interval_cell_to_facet interval_num_dofs
              interval_geometry_dim)
    as [_ Hint].
  split.
  - edestruct (Hext [0] 1 [2]) as [Hcount _]; [reflexivity| |].
    + constructor; [|constructor]. vm_compute. reflexivity.
    + rewrite Hcount; [reflexivity|].
      exists [0; 1]. split; [reflexivity|simpl; lia].
  - destruct (Hint interval_offsets_wf) as [_ Hint'].
    edestruct (Hint' [] 0 []) as [Hcount _];
      [reflexivity|reflexivity|reflexivity|].
    rewrite Hcount; [reflexivity|].
    exists [0]. split; [reflexivity|simpl; lia].
Defined.

Lemma assemble_scalar_no_integrals_witness :
  assemble_scalar interval.empty_form interval.fresh_state
  = (inr 0, interval.fresh_state).
Proof.
  refine (assemble_scalar_no_integrals interval.empty_form
            interval.fresh_state _ _ _ _).
  - repeat constructor. simpl. eauto.
  - reflexivity.
  - reflexivity.
  - reflexivity.
Defined.

Lemma interval_cache_consistent : cache_consistent interval.fresh_topology.
Proof.
  split; [|split; [|split]].
  - vm_compute. eauto.
  - unfold interval.fresh_topology; simpl.
    apply map_Forall_insert_2; [reflexivity|].
    apply map_Forall_insert_2; [reflexivity|]. apply map_Forall_empty.
  - intros p Hp. discriminate Hp.
  - intros _. vm_compute. eauto.
Defined.

Lemma lazy_build_equals_prebuild_witness :
  let ops := [op_create_connectivity_all; op_create_entity_permutations] in
  let prepared := (precreate ops interval.fresh_mesh).2 in
  (assemble_scalar interval.the_form (mkState prepared [])).1
  = (assemble_scalar interval.the_form interval.fresh_state).1
  ∧ (assemble_scalar interval.the_form interval.fresh_state).1 = inr 33.
Proof.
  intros ops prepared. split; [|vm_compute; reflexivity].
  destruct (lazy_build_equals_prebuild interval.the_form interval.fresh_state
              ops interval_cache_consistent)
    as (prepared' & r & calls & Hpre & H1 & H2 & _).
  subst prepared. simpl in Hpre. rewrite Hpre. simpl.
  simpl in H2. by rewrite H1, H2.
Defined.

(** * Function spaces *)

(** ** [FunctionSpace::contains] *)

(** The loop from position [k] on compares the next [m] components. *)
Lemma leading_components_take (c Vc : list Z) (m k : nat) :
  (k + m ≤ length c)%nat → (k + m ≤ length Vc)%nat →
  leading_components c Vc (seqZ (Z.of_nat k) (Z.of_nat m))
  = inr (bool_decide (take m (drop k c) = take m (drop k Vc))).
Proof.
  revert k. induction m as [|m IH]; intros k Hc HVc.
  - done.
  - rewrite seqZ_cons by lia. simpl.
    destruct (lookup_lt_is_Some_2 c k) as [a Ha]; [lia|].
    destruct (lookup_lt_is_Some_2 Vc k) as [b Hb]; [lia|].
    rewrite (at_inr c _ a), result_bind_inr by (lia || by rewrite Nat2Z.id).
    rewrite (at_inr Vc _ b), result_bind_inr by (lia || by rewrite Nat2Z.id).
    rewrite (drop_S c a k Ha), (drop_S Vc b k Hb). simpl.
    replace (Z.succ (Z.of_nat k)) with (Z.of_nat (S k)) by lia.
    replace (Z.pred (Z.of_nat (S m))) with (Z.of_nat m) by lia.
    case_decide as Hab.
    + rewrite bool_decide_eq_false_2; [done|]. intros [= ? _]. done.
    + subst b. rewrite IH by lia.
      f_equal. apply bool_decide_ext. split; [by intros ->|by intros [= ->]].
Qed.

Section contains.
Context {double Element DofMap : Type}.
Implicit Types (U V W : FunctionSpace double Element DofMap).

Lemma contains_inr_true U V :
  contains U V = inr true
  ↔ _root_space_id U = _root_space_id V
    ∧ _component U `prefix_of` _component V.
Proof.
  unfold contains. case_decide as Hroot.
  { split; [done|]. by intros [? _]. }
  case_decide as Hlen.
  { split; [done|]. intros [_ Hp%prefix_length]. lia. }
  rewrite (leading_components_take _ _ _ 0) by (simpl; lia).
  rewrite !drop_0, firstn_all. split.
  - intros [= Heq%bool_decide_eq_true_1]. split; [done|].
    rewrite Heq. apply prefix_take.
  - intros [_ [k ->]]. f_equal. apply bool_decide_eq_true_2.
    by rewrite take_app_length.
Qed.

Lemma contains_total U V : ∃ b, contains U V = inr b.
Proof.
  unfold contains. repeat case_decide; try by eexists.
  rewrite (leading_components_take _ _ _ 0) by (simpl; lia). by eexists.
Qed.
End contains.

(** X1.  [contains] never reads outside a component vector, and it answers
    [true] exactly when the two spaces have the same root space and the
    component of the first is a leading part of the component of the
    second. *)
Theorem contains_leading_components {double Element DofMap : Type}
    (this V : FunctionSpace double Element DofMap) :
  contains this V
  = inr (bool_decide (_root_space_id this = _root_space_id V
                      ∧ _component this `prefix_of` _component V)).
Proof.
  destruct (contains_total this V) as [[] Hb]; rewrite Hb; f_equal.
  - symmetry. apply bool_decide_eq_true_2. by apply contains_inr_true.
  - symmetry. apply bool_decide_eq_false_2. intros H%contains_inr_true.
    congruence.
Qed.

(** X2.  [contains] is reflexive and transitive, and two spaces that contain
    each other have the same root space and the same component. *)
Theorem contains_preorder {double Element DofMap : Type}
    (U V W : FunctionSpace double Element DofMap) :
  contains U U = inr true
  ∧ (contains U V = inr true → contains V W = inr true →
     contains U W = inr true)
  ∧ (contains U V = inr true → contains V U = inr true →
     _root_space_id U = _root_space_id V ∧ _component U = _component V).
Proof.
  split; [|split].
  - by apply contains_inr_true.
  - intros [HUV1 HUV2]%contains_inr_true [HVW1 HVW2]%contains_inr_true.
    apply contains_inr_true. split; [congruence|by etrans].
  - intros [HUV1 HUV2]%contains_inr_true [_ HVU]%contains_inr_true.
    split; [done|]. by apply (anti_symm prefix).
Qed.

(** ** [FunctionSpace::sub] *)

Section sub.
Context {double Element DofMap : Type}.
Context `{!SpaceExternals double Element DofMap}.
Implicit Types (U V W : FunctionSpace double Element DofMap).
Implicit Types (s : store double Element DofMap).
Implicit Types (this w : addr) (component : list Z).

(** A live cache entry is returned as it is. *)
Lemma sub_hit this component s V mesh element dofmap w :
  spaces s !! this = Some V →
  _mesh V = Some mesh → _element V = Some element →
  _dofmap V = Some dofmap →
  _subspaces V !! component = Some w → is_Some (spaces s !! w) →
  sub this component s = (inr w, s).
Proof.
  intros HV Hm He Hd Hw Hlive. unfold sub.
  rewrite bind_run. unfold deref at 1. rewrite HV. simpl.
  rewrite Hm, He, Hd, Hw. run_M. unfold lock.
  by rewrite decide_True.
Qed.

(** Without a live cache entry a new space is made. *)
Lemma sub_miss this component s V mesh element dofmap element' dofmap' :
  spaces s !! this = Some V →
  _mesh V = Some mesh → _element V = Some element →
  _dofmap V = Some dofmap →
  (∀ w, _subspaces V !! component = Some w → spaces s !! w = None) →
  extract_sub_element element component = inr element' →
  extract_sub_dofmap dofmap component = inr dofmap' →
  this ≠ allocated s →
  sub this component s
  = (inr (allocated s), with_sub_space this V component element' dofmap' s).
Proof.
  intros HV Hm He Hd Hw He' Hd' Hne. unfold sub.
  rewrite bind_run. unfold deref at 1. rewrite HV. simpl.
  rewrite Hm, He, Hd.
  rewrite bind_run. unfold lift at 1. simpl.
  rewrite bind_run. unfold lift at 1. simpl.
  rewrite bind_run. unfold lift at 1. simpl.
  rewrite bind_run.
  assert (Hc : match _subspaces V !! component with
               | Some it => lock it
               | None => mret None
               end s = (inr None, s)).
  { destruct (_subspaces V !! component) as [w|] eqn:Hcw; [|done].
    unfold lock. rewrite decide_False; [done|].
    rewrite (Hw w eq_refl). by intros [? ?]. }
  rewrite Hc.
  rewrite bind_run. unfold lift at 1. rewrite He'.
  rewrite bind_run. unfold lift at 1. rewrite Hd'.
  run_M. unfold UniqueIdGenerator_id, new_space, update. run_M.
  rewrite alter_insert_eq.
  rewrite (alter_alt_Some _ _ this V)
    by (by rewrite lookup_insert_ne by done).
  unfold with_sub_space, sub_space_of, set_root_and_component. simpl.
  by rewrite Hm.
Qed.

(** What a call that returns has done: it found a live cache entry, or it
    made a new space. *)
Lemma sub_inv this component s w s' :
  sub this component s = (inr w, s') →
  ∃ V mesh element dofmap,
    spaces s !! this = Some V
    ∧ _mesh V = Some mesh ∧ _element V = Some element
    ∧ _dofmap V = Some dofmap
    ∧ ((_subspaces V !! component = Some w ∧ is_Some (spaces s !! w))
       ∨ ((∀ w, _subspaces V !! component = Some w → spaces s !! w = None)
          ∧ ∃ element' dofmap',
              extract_sub_element element component = inr element'
              ∧ extract_sub_dofmap dofmap component = inr dofmap')).
Proof.
  unfold sub. rewrite bind_run. unfold deref at 1.
  destruct (spaces s !! this) as [V|] eqn:HV; [|done]. simpl.
  rewrite bind_run. unfold lift at 1.
  destruct (_mesh V) as [mesh|] eqn:Hm; [|done]. simpl.
  rewrite bind_run. unfold lift at 1.
  destruct (_element V) as [element|] eqn:He; [|done]. simpl.
  rewrite bind_run. unfold lift at 1.
  destruct (_dofmap V) as [dofmap|] eqn:Hd; [|done]. simpl.
  intros H. exists V, mesh, element, dofmap. do 4 (split; [done|]).
  rewrite bind_run in H.
  destruct (_subspaces V !! component) as [w0|] eqn:Hw0.
  - unfold lock at 1 in H. case_decide as Hlive.
    + left. injection H as <- <-. done.
    + right. split.
      { intros ? [= <-]. by apply eq_None_not_Some. }
      rewrite bind_run in H. unfold lift at 1 in H.
      destruct (extract_sub_element element component) as [|element'];
        [done|].
      rewrite bind_run in H. unfold lift at 1 in H.
      destruct (extract_sub_dofmap dofmap component) as [|dofmap'];
        [done|]. by eexists _, _.
  - right. split; [done|]. simpl in H.
    rewrite bind_run in H. unfold lift at 1 in H.
    destruct (extract_sub_element element component) as [|element'];
      [done|].
    rewrite bind_run in H. unfold lift at 1 in H.
    destruct (extract_sub_dofmap dofmap component) as [|dofmap'];
      [done|]. by eexists _, _.
Qed.

(** A call that fails has changed nothing. *)
Lemma sub_inl this component s e s' :
  sub this component s = (inl e, s') → s' = s.
Proof.
  unfold sub. rewrite bind_run. unfold deref at 1.
  destruct (spaces s !! this) as [V|]; [|by intros [= _ <-]]. simpl.
  rewrite bind_run. unfold lift at 1.
  destruct (_mesh V) as [mesh|]; [|by intros [= _ <-]]. simpl.
  rewrite bind_run. unfold lift at 1.
  destruct (_element V) as [element|]; [|by intros [= _ <-]]. simpl.
  rewrite bind_run. unfold lift at 1.
  destruct (_dofmap V) as [dofmap|]; [|by intros [= _ <-]]. simpl.
  rewrite bind_run.
  assert (Hc : ∃ cached,
             match _subspaces V !! component with
             | Some it => lock it
             | None => mret None
             end s = (inr cached, s)).
  { destruct (_subspaces V !! component); by eexists. }
  destruct Hc as [cached ->]. destruct cached; [done|].
  rewrite bind_run. unfold lift at 1.
  destruct (extract_sub_element element component);
    [by intros [= _ <-]|].
  rewrite bind_run. unfold lift at 1.
  destruct (extract_sub_dofmap dofmap component); [by intros [= _ <-]|].
  done.
Qed.

Lemma store_wf_lt s a U :
  store_wf s → spaces s !! a = Some U → (a < allocated s)%nat.
Proof. intros Hwf HU. by destruct (Hwf a U HU). Qed.

Lemma store_wf_fresh s : store_wf s → spaces s !! allocated s = None.
Proof.
  intros Hwf. destruct (spaces s !! allocated s) as [U|] eqn:HU; [|done].
  pose proof (store_wf_lt _ _ _ Hwf HU). lia.
Qed.

(** The spaces of the store before the call are still there, with the
    members they had; only the cache of [this] has gained an entry. *)
Lemma with_sub_space_old this V component element dofmap s a U :
  store_wf s → spaces s !! this = Some V → spaces s !! a = Some U →
  ∃ U', spaces (with_sub_space this V component element dofmap s) !! a
        = Some U'
        ∧ _mesh U' = _mesh U ∧ _element U' = _element U
        ∧ _dofmap U' = _dofmap U ∧ _id U' = _id U
        ∧ _root_space_id U' = _root_space_id U
        ∧ _component U' = _component U
        ∧ (a ≠ this → U' = U).
Proof.
  intros Hwf HV HU. unfold with_sub_space. simpl.
  destruct (decide (a = this)) as [->|Hne].
  - rewrite lookup_insert_eq. eexists. split; [done|].
    assert (U = V) as -> by congruence. by repeat split.
  - rewrite lookup_insert_ne by done.
    rewrite lookup_insert_ne
      by (pose proof (store_wf_lt _ _ _ Hwf HU); lia).
    exists U. by repeat split.
Qed.

(** Conversely, a space of the new store below the old mark was there
    before, with the same mesh, root and component. *)
Lemma with_sub_space_inv this V component element dofmap s a U' :
  store_wf s → spaces s !! this = Some V →
  spaces (with_sub_space this V component element dofmap s) !! a = Some U' →
  (a = allocated s
   ∧ U' = sub_space_of V component element dofmap (next_id s))
  ∨ (a = this
     ∧ U' = cache_subspace (_component V ++ component) (allocated s) V)
  ∨ (a ≠ this ∧ a ≠ allocated s ∧ spaces s !! a = Some U').
Proof.
  intros Hwf HV. unfold with_sub_space. simpl.
  pose proof (store_wf_lt _ _ _ Hwf HV) as Hlt.
  destruct (decide (a = this)) as [->|Hne].
  { rewrite lookup_insert_eq. intros [= <-]. right. by left. }
  rewrite lookup_insert_ne by done.
  destruct (decide (a = allocated s)) as [->|Hne'].
  { rewrite lookup_insert_eq. intros [= <-]. by left. }
  rewrite lookup_insert_ne by done. intros HU. right. by right.
Qed.

Lemma map_insert_lookup {K A} `{Countable K} (k k' : K) (v v' : A)
    (m : gmap K A) :
  map_insert k v m !! k' = Some v' →
  m !! k' = Some v' ∨ (k' = k ∧ v' = v ∧ m !! k = None).
Proof.
  unfold map_insert. destruct (m !! k) eqn:Hk; [by left|].
  destruct (decide (k' = k)) as [->|Hne].
  - rewrite lookup_insert_eq. intros [= <-]. by right.
  - rewrite lookup_insert_ne by done. by left.
Qed.

Lemma map_insert_lookup_ne {K A} `{Countable K} (k k' : K) (v : A)
    (m : gmap K A) :
  k' ≠ k → map_insert k v m !! k' = m !! k'.
Proof.
  intros Hne. unfold map_insert. destruct (m !! k); [done|].
  by rewrite lookup_insert_ne.
Qed.

Lemma map_insert_lookup_eq {K A} `{Countable K} (k : K) (v : A)
    (m : gmap K A) :
  map_insert k v m !! k = Some (default v (m !! k)).
Proof.
  unfold map_insert. destruct (m !! k) eqn:Hk; [done|].
  by rewrite lookup_insert_eq.
Qed.

(** [sub] keeps the store well formed. *)
Lemma store_wf_with_sub_space this V component element dofmap s :
  store_wf s → spaces s !! this = Some V →
  store_wf (with_sub_space this V component element dofmap s).
Proof.
  intros Hwf HV a U' HU'.
  pose proof (store_wf_lt _ _ _ Hwf HV) as Hlt.
  destruct (Hwf this V HV) as (_ & HidV & HrootV & HcacheV).
  (* what a live target of an old cache entry looks like in the new store *)
  assert (Hold : ∀ (U : FunctionSpace double Element DofMap) k w,
            (∃ b, spaces s !! b = Some U) → _subspaces U !! k = Some w →
            (w < S (allocated s))%nat
            ∧ ∀ W, spaces (with_sub_space this V component element dofmap s)
                     !! w = Some W →
                _mesh W = _mesh U ∧ _root_space_id W = _root_space_id U
                ∧ _component W = k ∧ _component U `prefix_of` k).
  { intros U k w [b HU] Hk.
    destruct (Hwf b U HU) as (_ & _ & _ & Hcache).
    destruct (Hcache k w Hk) as [Hw HW]. split; [lia|].
    intros W HWnew.
    destruct (with_sub_space_inv _ _ _ _ _ _ _ _ Hwf HV HWnew)
      as [[-> _]|[[-> ->]|(_ & _ & HWold)]]; [lia| |by apply HW].
    by apply (HW V). }
  destruct (with_sub_space_inv _ _ _ _ _ _ _ _ Hwf HV HU')
    as [[-> ->]|[[-> ->]|(Hne & Hne' & HU)]]; simpl.
  - split; [lia|]. split; [lia|]. split; [lia|]. intros k w Hk. done.
  - split; [lia|]. split; [lia|]. split; [lia|]. intros k w Hk.
    apply map_insert_lookup in Hk as [Hk|(-> & -> & _)].
    + by apply (Hold V); [eexists|].
    + split; [lia|]. intros W HW.
      destruct (with_sub_space_inv _ _ _ _ _ _ _ _ Hwf HV HW)
        as [[_ ->]|[[Heq _]|(_ & Hne & _)]]; [|lia|done]. simpl.
      repeat split. by apply prefix_app_r.
  - destruct (Hwf a U' HU) as (Ha & Hid & Hroot & _).
    split; [lia|]. split; [lia|]. split; [lia|]. intros k w Hk.
    by apply (Hold U'); [eexists|].
Qed.
End sub.

(** X3.  In a well-formed store, the space [sub] returns is alive, shares
    the mesh and the root space of [this], and [this] contains it; the
    store stays well formed, and every space that was alive keeps its mesh,
    element, dofmap, id, root space and component. *)
Theorem sub_returns_subspace {double Element DofMap : Type}
    `{!SpaceExternals double Element DofMap}
    (this : addr) (component : list Z) (s s' : store double Element DofMap)
    (V : FunctionSpace double Element DofMap) (w : addr) :
  store_wf s → spaces s !! this = Some V →
  sub this component s = (inr w, s') →
  store_wf s'
  ∧ (∃ W, spaces s' !! w = Some W
          ∧ _mesh W = _mesh V
          ∧ _root_space_id W = _root_space_id V
          ∧ contains V W = inr true)
  ∧ (∀ a U, spaces s !! a = Some U →
       ∃ U', spaces s' !! a = Some U'
             ∧ _mesh U' = _mesh U ∧ _element U' = _element U
             ∧ _dofmap U' = _dofmap U ∧ _id U' = _id U
             ∧ _root_space_id U' = _root_space_id U
             ∧ _component U' = _component U).
Proof.
  intros Hwf HV Hsub.
  destruct (sub_inv _ _ _ _ _ Hsub)
    as (V0 & mesh & element & dofmap & HV0 & Hm & He & Hd & Hcase).
  assert (V0 = V) as -> by congruence.
  destruct Hcase as [[Hw Hlive]|(Hdead & element' & dofmap' & He' & Hd')].
  - rewrite (sub_hit _ _ _ _ _ _ _ _ HV Hm He Hd Hw Hlive) in Hsub.
    injection Hsub as <-. split; [done|]. split.
    + destruct Hlive as [W HW]. exists W. split; [done|].
      destruct (Hwf this V HV) as (_ & _ & _ & Hcache).
      destruct (Hcache _ _ Hw) as [_ HWs].
      destruct (HWs W HW) as (HmW & HrW & HcW & Hpre).
      split; [done|]. split; [done|].
      apply contains_inr_true. split; [done|]. by rewrite HcW.
    + intros a U HU. exists U. by repeat split.
  - pose proof (store_wf_lt _ _ _ Hwf HV) as Hlt.
    rewrite (sub_miss _ _ _ _ _ _ _ _ _ HV Hm He Hd Hdead He' Hd') in Hsub
      by lia.
    injection Hsub as <- <-. split; [by apply store_wf_with_sub_space|].
    split.
    + eexists. split.
      { unfold with_sub_space. simpl.
        rewrite lookup_insert_ne by lia. by rewrite lookup_insert_eq. }
      simpl. repeat split. apply contains_inr_true. simpl.
      split; [done|]. by apply prefix_app_r.
    + intros a U HU.
      destruct (with_sub_space_old this V component element' dofmap' s a U
                  Hwf HV HU) as (U' & HU' & H1 & H2 & H3 & H4 & H5 & H6 & _).
      exists U'. by repeat split.
Qed.

(** X4.  A call of [sub] that fails leaves the store as it was: no id is
    drawn, no space is made and no cache is touched.  So does a call that
    finds a live cache entry. *)
Theorem sub_failure_changes_nothing {double Element DofMap : Type}
    `{!SpaceExternals double Element DofMap}
    (this : addr) (component : list Z) (s : store double Element DofMap) :
  (∀ e, (sub this component s).1 = inl e → (sub this component s).2 = s)
  ∧ (∀ w, store_wf s →
          (sub this component s).1 = inr w → is_Some (spaces s !! w) →
          (sub this component s).2 = s).
Proof.
  split.
  - intros e He. destruct (sub this component s) as [r s'] eqn:Hsub.
    simpl in *. subst r. by apply (sub_inl _ _ _ _ _ Hsub).
  - intros w Hwf Hw Hlive.
    destruct (sub this component s) as [r s'] eqn:Hsub.
    simpl in *. subst r.
    destruct (sub_inv _ _ _ _ _ Hsub)
      as (V & mesh & element & dofmap & HV & Hm & He & Hd & Hcase).
    destruct Hcase as [[Hw _]|(Hdead & element' & dofmap' & He' & Hd')].
    + rewrite (sub_hit _ _ _ _ _ _ _ _ HV Hm He Hd Hw Hlive) in Hsub.
      by injection Hsub as <-.
    + (* a new space sits at an address that was not alive *)
      pose proof (store_wf_lt _ _ _ Hwf HV) as Hlt.
      rewrite (sub_miss _ _ _ _ _ _ _ _ _ HV Hm He Hd Hdead He' Hd') in Hsub
        by lia.
      injection Hsub as <- <-.
      rewrite (store_wf_fresh _ Hwf) in Hlive. by destruct Hlive.
Qed.

Section sub_again.
Context {double Element DofMap : Type}.
Context `{!SpaceExternals double Element DofMap}.
Implicit Types (U V W : FunctionSpace double Element DofMap).
Implicit Types (s : store double Element DofMap).
Implicit Types (this w : addr) (component : list Z).

Lemma with_sub_space_this this V component element dofmap s :
  spaces (with_sub_space this V component element dofmap s) !! this
  = Some (cache_subspace (_component V ++ component) (allocated s) V).
Proof. unfold with_sub_space. simpl. by rewrite lookup_insert_eq. Qed.

Lemma with_sub_space_new this V component element dofmap s :
  this ≠ allocated s →
  spaces (with_sub_space this V component element dofmap s) !! allocated s
  = Some (sub_space_of V component element dofmap (next_id s)).
Proof.
  intros Hne. unfold with_sub_space. simpl.
  rewrite lookup_insert_ne by done. by rewrite lookup_insert_eq.
Qed.

Lemma with_sub_space_dead this V component element dofmap s w :
  spaces s !! this = Some V → w ≠ allocated s → spaces s !! w = None →
  spaces (with_sub_space this V component element dofmap s) !! w = None.
Proof.
  intros HV Hne Hw. unfold with_sub_space. simpl.
  rewrite lookup_insert_ne by congruence. by rewrite lookup_insert_ne.
Qed.

(** A call that does not find a live cache entry, seen from its result. *)
Lemma sub_fresh this component s V w s' :
  store_wf s → spaces s !! this = Some V →
  (∀ w0, _subspaces V !! component = Some w0 → spaces s !! w0 = None) →
  sub this component s = (inr w, s') →
  ∃ mesh element dofmap element' dofmap',
    _mesh V = Some mesh ∧ _element V = Some element
    ∧ _dofmap V = Some dofmap
    ∧ extract_sub_element element component = inr element'
    ∧ extract_sub_dofmap dofmap component = inr dofmap'
    ∧ w = allocated s
    ∧ s' = with_sub_space this V component element' dofmap' s.
Proof.
  intros Hwf HV Hdead Hsub.
  destruct (sub_inv _ _ _ _ _ Hsub)
    as (V0 & mesh & element & dofmap & HV0 & Hm & He & Hd & Hcase).
  assert (V0 = V) as -> by congruence.
  destruct Hcase as [[Hw Hlive]|(_ & element' & dofmap' & He' & Hd')].
  { rewrite (Hdead _ Hw) in Hlive. by destruct Hlive. }
  pose proof (store_wf_lt _ _ _ Hwf HV) as Hlt.
  rewrite (sub_miss _ _ _ _ _ _ _ _ _ HV Hm He Hd Hdead He' Hd') in Hsub
    by lia.
  injection Hsub as <- <-. by eexists mesh, element, dofmap, element', dofmap'.
Qed.
End sub_again.

(** X5.  On a root space (one with an empty component) whose cache has no
    expired entry for [component], a second [sub(component)] returns the
    very space the first call returned and changes nothing. *)
Theorem sub_root_cached {double Element DofMap : Type}
    `{!SpaceExternals double Element DofMap}
    (this : addr) (component : list Z) (s s' : store double Element DofMap)
    (V : FunctionSpace double Element DofMap) (w : addr) :
  store_wf s → spaces s !! this = Some V → _component V = [] →
  (∀ w0, _subspaces V !! component = Some w0 → is_Some (spaces s !! w0)) →
  sub this component s = (inr w, s') →
  sub this component s' = (inr w, s').
Proof.
  intros Hwf HV Hroot Hcache Hsub.
  destruct (sub_inv _ _ _ _ _ Hsub)
    as (V0 & mesh & element & dofmap & HV0 & Hm & He & Hd & Hcase).
  assert (V0 = V) as -> by congruence.
  destruct Hcase as [[Hw Hlive]|(Hdead & element' & dofmap' & He' & Hd')].
  - rewrite (sub_hit _ _ _ _ _ _ _ _ HV Hm He Hd Hw Hlive) in Hsub.
    injection Hsub as <-.
    by apply (sub_hit _ _ _ _ _ _ _ _ HV Hm He Hd Hw Hlive).
  - assert (Hnone : _subspaces V !! component = None).
    { destruct (_subspaces V !! component) as [w0|] eqn:Hw0; [|done].
      destruct (Hcache w0 eq_refl) as [W HW].
      by rewrite (Hdead w0 eq_refl) in HW. }
    pose proof (store_wf_lt _ _ _ Hwf HV) as Hlt.
    rewrite (sub_miss _ _ _ _ _ _ _ _ _ HV Hm He Hd Hdead He' Hd') in Hsub
      by lia.
    injection Hsub as <- <-.
    eapply sub_hit; [apply with_sub_space_this|done..| |].
    + simpl. rewrite Hroot. simpl.
      by rewrite map_insert_lookup_eq, Hnone.
    + rewrite with_sub_space_new by lia. by eexists.
Qed.

(** X6.  A cache entry whose space has expired is never replaced: [sub]
    makes a new space, leaves the expired entry in the cache, and the next
    call makes yet another space although the first one is still alive. *)
Theorem sub_expired_entry_stays {double Element DofMap : Type}
    `{!SpaceExternals double Element DofMap}
    (this : addr) (component : list Z) (s s' : store double Element DofMap)
    (V : FunctionSpace double Element DofMap) (w0 w : addr) :
  store_wf s → spaces s !! this = Some V →
  _subspaces V !! component = Some w0 → spaces s !! w0 = None →
  sub this component s = (inr w, s') →
  w = allocated s
  ∧ is_Some (spaces s' !! w)
  ∧ (∃ V', spaces s' !! this = Some V'
           ∧ _subspaces V' !! component = Some w0)
  ∧ spaces s' !! w0 = None
  ∧ ∃ s'', sub this component s' = (inr (S w), s'')
           ∧ is_Some (spaces s'' !! w) ∧ is_Some (spaces s'' !! S w).
Proof.
  intros Hwf HV Hw0 Hexp Hsub.
  assert (Hdead : ∀ w1, _subspaces V !! component = Some w1 →
                        spaces s !! w1 = None) by (intros ?; congruence).
  destruct (sub_fresh _ _ _ _ _ _ Hwf HV Hdead Hsub)
    as (mesh & element & dofmap & element' & dofmap'
        & Hm & He & Hd & He' & Hd' & -> & ->).
  pose proof (store_wf_lt _ _ _ Hwf HV) as Hlt.
  destruct (Hwf this V HV) as (_ & _ & _ & Hcache).
  destruct (Hcache _ _ Hw0) as [Hw0lt _].
  set (s' := with_sub_space this V component element' dofmap' s).
  assert (Hentry : _subspaces (cache_subspace (_component V ++ component)
                                 (allocated s) V) !! component = Some w0).
  { simpl. destruct (decide (component = _component V ++ component))
      as [Heq|Hne].
    - rewrite <- Heq. by rewrite map_insert_lookup_eq, Hw0.
    - by rewrite map_insert_lookup_ne. }
  assert (Hexp' : spaces s' !! w0 = None)
    by (apply with_sub_space_dead; [done|lia|done]).
  split; [done|].
  split; [unfold s'; by rewrite with_sub_space_new by lia|].
  split; [eexists; split; [apply with_sub_space_this|done]|].
  split; [done|].
  assert (Hwf' : store_wf s') by by apply store_wf_with_sub_space.
  eexists. split.
  - change (S (allocated s)) with (allocated s').
    eapply sub_miss; [apply with_sub_space_this|done..| |done|done|].
    + intros w1. rewrite Hentry. by intros [= <-].
    + simpl. lia.
  - split.
    + destruct (with_sub_space_old this
                  (cache_subspace (_component V ++ component) (allocated s) V)
                  component element' dofmap' s' (allocated s)
                  (sub_space_of V component element' dofmap' (next_id s))
                  Hwf' (with_sub_space_this _ _ _ _ _ _))
        as (U' & HU' & _); [by apply with_sub_space_new; lia|].
      by eexists.
    + change (S (allocated s)) with (allocated s').
      rewrite with_sub_space_new by (simpl; lia). by eexists.
Qed.

(** X7.  On a space that is itself a subspace (its component is not empty)
    the cache does not work: [sub] files the new space under the component
    with respect to the root but looks it up under the component with
    respect to [this], so the next [sub(component)] makes a second space for
    the same component while the first is alive. *)
Theorem sub_of_subspace_not_cached {double Element DofMap : Type}
    `{!SpaceExternals double Element DofMap}
    (this : addr) (component : list Z) (s s' : store double Element DofMap)
    (V : FunctionSpace double Element DofMap) (w : addr) :
  store_wf s → spaces s !! this = Some V → _component V ≠ [] →
  _subspaces V !! component = None →
  sub this component s = (inr w, s') →
  ∃ w' s'' W W',
    sub this component s' = (inr w', s'')
    ∧ w' ≠ w
    ∧ spaces s'' !! w = Some W ∧ spaces s'' !! w' = Some W'
    ∧ _component W = _component V ++ component
    ∧ _component W' = _component V ++ component
    ∧ _root_space_id W' = _root_space_id W.
Proof.
  intros Hwf HV Hsubspace Hnone Hsub.
  assert (Hdead : ∀ w1, _subspaces V !! component = Some w1 →
                        spaces s !! w1 = None) by (intros ?; congruence).
  destruct (sub_fresh _ _ _ _ _ _ Hwf HV Hdead Hsub)
    as (mesh & element & dofmap & element' & dofmap'
        & Hm & He & Hd & He' & Hd' & -> & ->).
  pose proof (store_wf_lt _ _ _ Hwf HV) as Hlt.
  set (s' := with_sub_space this V component element' dofmap' s).
  set (V' := cache_subspace (_component V ++ component) (allocated s) V).
  assert (Hne : component ≠ _component V ++ component).
  { intros Heq%(f_equal length). rewrite length_app in Heq.
    destruct (_component V); [done|simpl in Heq; lia]. }
  assert (Hentry : _subspaces V' !! component = None)
    by (simpl; by rewrite map_insert_lookup_ne).
  assert (Hwf' : store_wf s') by by apply store_wf_with_sub_space.
  assert (HV' : spaces s' !! this = Some V') by apply with_sub_space_this.
  exists (allocated s'), (with_sub_space this V' component element' dofmap' s').
  destruct (with_sub_space_old this V' component element' dofmap' s'
              (allocated s)
              (sub_space_of V component element' dofmap' (next_id s))
              Hwf' HV')
    as (W & HW & _ & _ & _ & _ & HWroot & HWcomp & _);
    [by apply with_sub_space_new; lia|].
  exists W, (sub_space_of V' component element' dofmap' (next_id s')).
  split.
  { eapply sub_miss; [done..| |done|done|simpl; lia].
    intros w1. by rewrite Hentry. }
  split; [simpl; lia|]. split; [done|].
  split; [by apply with_sub_space_new; simpl; lia|].
  split; [by rewrite HWcomp|]. split; [done|]. by rewrite HWroot.
Qed.

(** X8.  On a space with a component [p] that is not empty, after
    [sub(c)] has made a space, [sub(p ++ c)] finds it in the cache and
    returns it, although it was made from the sub-element for [c] and its
    component is [p ++ c], not [p ++ (p ++ c)]. *)
Theorem sub_of_subspace_wrong_hit {double Element DofMap : Type}
    `{!SpaceExternals double Element DofMap}
    (this : addr) (component : list Z) (s s' : store double Element DofMap)
    (V : FunctionSpace double Element DofMap) (w : addr) :
  store_wf s → spaces s !! this = Some V → _component V ≠ [] →
  _subspaces V !! component = None →
  _subspaces V !! (_component V ++ component) = None →
  sub this component s = (inr w, s') →
  sub this (_component V ++ component) s' = (inr w, s')
  ∧ ∃ W element element',
      spaces s' !! w = Some W
      ∧ _component W = _component V ++ component
      ∧ _component W ≠ _component V ++ (_component V ++ component)
      ∧ _element V = Some element
      ∧ extract_sub_element element component = inr element'
      ∧ _element W = Some element'.
Proof.
  intros Hwf HV Hsubspace Hnone Hnone' Hsub.
  assert (Hdead : ∀ w1, _subspaces V !! component = Some w1 →
                        spaces s !! w1 = None) by (intros ?; congruence).
  destruct (sub_fresh _ _ _ _ _ _ Hwf HV Hdead Hsub)
    as (mesh & element & dofmap & element' & dofmap'
        & Hm & He & Hd & He' & Hd' & -> & ->).
  pose proof (store_wf_lt _ _ _ Hwf HV) as Hlt.
  split.
  - eapply sub_hit; [apply with_sub_space_this|done..| |].
    + simpl. by rewrite map_insert_lookup_eq, Hnone'.
    + rewrite with_sub_space_new by lia. by eexists.
  - eexists _, element, element'.
    split; [by apply with_sub_space_new; lia|]. simpl.
    split; [done|]. split; [|done].
    intros Heq%(f_equal length). rewrite !length_app in Heq.
    destruct (_component V); [done|simpl in Heq; lia].
Qed.

(** ** [FunctionSpace::collapse] *)

Section collapse.
Context {double Element DofMap : Type}.
Context `{!SpaceExternals double Element DofMap}.
Implicit Types (U V W : FunctionSpace double Element DofMap).
Implicit Types (s : store double Element DofMap).
Implicit Types (this w : addr).

Lemma collapse_root this s V :
  spaces s !! this = Some V → _component V = [] →
  collapse this s
  = (inl (runtime_error "Function space is not a subspace"), s).
Proof.
  intros HV Hroot. unfold collapse. rewrite bind_run. unfold deref at 1.
  rewrite HV. simpl. by rewrite decide_True.
Qed.

Lemma collapse_inv this s w dofs s' :
  collapse this s = (inr (w, dofs), s') →
  ∃ V dofmap mesh collapsed_dofmap,
    spaces s !! this = Some V ∧ _component V ≠ []
    ∧ _dofmap V = Some dofmap ∧ _mesh V = Some mesh
    ∧ dofmap_collapse dofmap (topology mesh) = inr (collapsed_dofmap, dofs)
    ∧ w = allocated s ∧ s' = with_collapsed V collapsed_dofmap s.
Proof.
  unfold collapse. rewrite bind_run. unfold deref at 1.
  destruct (spaces s !! this) as [V|] eqn:HV; [|done]. simpl.
  case_decide as Hc; [done|].
  rewrite bind_run. unfold lift at 1.
  destruct (_dofmap V) as [dofmap|] eqn:Hd; [|done]. simpl.
  rewrite bind_run. unfold lift at 1.
  destruct (_mesh V) as [mesh|] eqn:Hm; [|done]. simpl.
  rewrite bind_run. unfold lift at 1.
  destruct (dofmap_collapse dofmap (topology mesh)) as [|[cd ds]] eqn:Hcol;
    [done|].
  run_M. unfold UniqueIdGenerator_id, new_space. simpl.
  intros [= <- <- <-]. exists V, dofmap, mesh, cd.
  unfold with_collapsed. by rewrite Hm.
Qed.

Lemma store_wf_with_collapsed V collapsed_dofmap s :
  store_wf s → (∃ a, spaces s !! a = Some V) →
  store_wf (with_collapsed V collapsed_dofmap s).
Proof.
  intros Hwf [b HV] a U. unfold with_collapsed. simpl.
  destruct (Hwf b V HV) as (_ & _ & HrootV & _).
  destruct (decide (a = allocated s)) as [->|Hne].
  - rewrite lookup_insert_eq. intros [= <-]. simpl.
    split; [lia|]. split; [lia|]. split; [lia|]. by intros k w.
  - rewrite lookup_insert_ne by done. intros HU.
    destruct (Hwf a U HU) as (Ha & Hid & Hroot & Hcache).
    split; [lia|]. split; [lia|]. split; [lia|]. intros k w Hk.
    destruct (Hcache k w Hk) as [Hw HW]. split; [lia|].
    intros W. rewrite lookup_insert_ne by lia. apply HW.
Qed.
End collapse.

(** X9.  [collapse] throws on a space with an empty component and changes
    nothing.  Otherwise the space it returns is new and is a root space of
    its own: its component is empty and its root space id is its own id, so
    neither it nor the space it was collapsed from contains the other, and
    collapsing it again throws.  Every space that was alive is as before. *)
Theorem collapse_detaches {double Element DofMap : Type}
    `{!SpaceExternals double Element DofMap}
    (this : addr) (s : store double Element DofMap)
    (V : FunctionSpace double Element DofMap) :
  store_wf s → spaces s !! this = Some V →
  (_component V = [] →
   collapse this s
   = (inl (runtime_error "Function space is not a subspace"), s))
  ∧ ∀ w dofs s', collapse this s = (inr (w, dofs), s') →
      store_wf s' ∧ spaces s !! w = None
      ∧ (∀ a U, spaces s !! a = Some U → spaces s' !! a = Some U)
      ∧ ∃ W, spaces s' !! w = Some W
             ∧ _mesh W = _mesh V ∧ _element W = _element V
             ∧ _component W = [] ∧ _root_space_id W = _id W
             ∧ contains V W = inr false ∧ contains W V = inr false
             ∧ collapse w s'
               = (inl (runtime_error "Function space is not a subspace"), s').
Proof.
  intros Hwf HV. split; [by apply collapse_root|].
  intros w dofs s' Hcol.
  destruct (collapse_inv _ _ _ _ _ Hcol)
    as (V0 & dofmap & mesh & cd & HV0 & Hc & Hd & Hm & Hdc & -> & ->).
  assert (V0 = V) as -> by congruence.
  destruct (Hwf this V HV) as (Hlt & _ & HrootV & _).
  split; [apply store_wf_with_collapsed; [done|by eexists]|].
  split; [by apply store_wf_fresh|]. split.
  { intros a U HU. unfold with_collapsed. simpl.
    rewrite lookup_insert_ne; [done|].
    pose proof (store_wf_lt _ _ _ Hwf HU). lia. }
  assert (HW : spaces (with_collapsed V cd s) !! allocated s
               = Some (mkFunctionSpace (_mesh V) (_element V) (Some cd)
                         (next_id s) (next_id s) [] ∅)).
  { unfold with_collapsed. simpl. by rewrite lookup_insert_eq. }
  eexists. split; [exact HW|]. simpl. repeat split.
  - unfold contains. simpl. rewrite decide_True; [done|lia].
  - unfold contains. simpl. rewrite decide_True; [done|lia].
  - by apply (collapse_root _ _ _ HW).
Qed.

(** ** [FunctionSpace::tabulate_dof_coordinates] *)

Lemma fold_result_ind {A B} (P : B → Prop) (body : B → A → result B)
    (b b' : B) (l : list A) :
  P b → (∀ b a b', a ∈ l → P b → body b a = inr b' → P b') →
  fold_result body b l = inr b' → P b'.
Proof.
  revert b. induction l as [|a l IH]; intros b Hb Hbody; simpl.
  - by intros [= <-].
  - intros H. inv_step H as b1 Hb1.
    apply (IH b1); [by apply (Hbody b a); [left|..]| |done].
    intros b2 a2 b2' Ha2. apply Hbody. by right.
Qed.

Section tabulate.
Context {double Element DofMap : Type}.
Context `{!SpaceExternals double Element DofMap}.
Implicit Types (x : list (list double)) (r src : list double).

Lemma set_row_head_inv x (dof gdim : Z) src x' :
  set_row_head x dof gdim src = inr x' →
  ∃ r r', 0 ≤ dof ∧ x !! Z.to_nat dof = Some r
          ∧ Z.of_nat (length src) = gdim
          ∧ set_segment r 0 src = inr r'
          ∧ x' = <[Z.to_nat dof := r']> x.
Proof.
  unfold set_row_head. intros H. inv_step H as r Hr.
  apply at_inr_inv in Hr as [Hdof Hr].
  case_decide as Hlen; [|done]. inv_step H as r' Hr'.
  injection H as <-. by exists r, r'.
Qed.

Lemma padded_set_segment (gdim : Z) r src r' :
  padded gdim r → Z.of_nat (length src) = gdim →
  set_segment r 0 src = inr r' → padded gdim r'.
Proof.
  intros [Hlen Hzero] Hsrc Hset. split.
  - by rewrite (set_segment_length _ _ _ _ Hset).
  - intros j Hj. rewrite (set_segment_lookup_out _ _ _ _ j Hset) by lia.
    by apply Hzero.
Qed.

(** One cell keeps the number of rows and their padding, and writes only
    to the rows of its dofs. *)
Lemma tabulate_cell_inv (g : Geometry double) (num_dofs_g : Z)
    (X : list (list double)) (V_dofmap : DofMap) x (c : Z) x' :
  tabulate_cell g num_dofs_g X V_dofmap x c = inr x' →
  ∃ dofs, cell_dofs V_dofmap c = inr dofs
    ∧ length x' = length x
    ∧ (Forall (padded (geometry_dim g)) x →
       Forall (padded (geometry_dim g)) x')
    ∧ ∀ dof, 0 ≤ dof → dof ∉ dofs → x' !! Z.to_nat dof = x !! Z.to_nat dof.
Proof.
  unfold tabulate_cell. intros H.
  inv_step H as x_dofs Hx_dofs. inv_step H as coordinate_dofs Hcd.
  inv_step H as dofs Hdofs. inv_step H as coordinates Hco.
  exists dofs. split; [done|].
  revert H. apply (fold_result_ind
    (λ x', length x' = length x
           ∧ (Forall (padded (geometry_dim g)) x →
              Forall (padded (geometry_dim g)) x')
           ∧ ∀ dof, 0 ≤ dof → dof ∉ dofs →
                    x' !! Z.to_nat dof = x !! Z.to_nat dof)); [done|].
  intros x1 i x2 Hi (Hlen & Hpad & Hout) Hbody.
  inv_step Hbody as dof Hdof. inv_step Hbody as r Hr.
  apply set_row_head_inv in Hbody
    as (r1 & r1' & Hdof0 & Hr1 & Hsrc & Hset & ->).
  split; [by rewrite length_insert|]. split.
  - intros Hx. specialize (Hpad Hx). apply Forall_insert; [done|].
    eapply padded_set_segment; [|done..].
    by apply (Forall_lookup_1 _ _ _ _ Hpad Hr1).
  - intros dof' Hdof' Hnotin.
    rewrite list_lookup_insert_ne; [by apply Hout|].
    apply at_inr_inv in Hdof as [_ Hdof].
    intros Heq. apply Hnotin.
    assert (dof = dof') as <- by lia.
    apply list_elem_of_lookup. by eexists.
Qed.
End tabulate.


(** Letting go of a space keeps the store well formed: what expires stays
    in the caches as an entry that refers to nothing. *)
Lemma store_wf_expire {double Element DofMap : Type} (p : addr)
    (s : store double Element DofMap) :
  store_wf s → store_wf (expire p s).
Proof.
  intros Hwf a V. unfold expire. simpl.
  intros [_ HV]%lookup_delete_Some.
  destruct (Hwf a V HV) as (Ha & Hid & Hroot & Hcache).
  split; [done|]. split; [done|]. split; [done|]. intros k w Hk.
  destruct (Hcache k w Hk) as [Hw HW]. split; [done|].
  intros W [_ HWs]%lookup_delete_Some. by apply HW.
Qed.

Section tabulated_rows.
Context {double Element DofMap : Type}.
Context `{!SpaceExternals double Element DofMap}.
Implicit Types (x : list (list double)) (r src : list double).

(** After one cell, a row is as it was or has been written for the cell. *)
Lemma tabulate_cell_written (g : Geometry double) (num_dofs_g : Z)
    (X : list (list double)) (V_dofmap : DofMap) x (c : Z) x' :
  tabulate_cell g num_dofs_g X V_dofmap x c = inr x' →
  ∀ dof r, 0 ≤ dof → x' !! Z.to_nat dof = Some r →
    x !! Z.to_nat dof = Some r
    ∨ tabulated_for g num_dofs_g X V_dofmap c dof r.
Proof.
  unfold tabulate_cell. intros H.
  inv_step H as x_dofs Hx_dofs. inv_step H as coordinate_dofs Hcd.
  inv_step H as dofs Hdofs. inv_step H as coordinates Hco.
  revert H. apply (fold_result_ind
    (λ x', ∀ dof r, 0 ≤ dof → x' !! Z.to_nat dof = Some r →
             x !! Z.to_nat dof = Some r
             ∨ tabulated_for g num_dofs_g X V_dofmap c dof r)).
  { intros dof r _ Hr. by left. }
  intros x1 i x2 Hi IH Hbody.
  inv_step Hbody as dof Hdof. inv_step Hbody as src Hsrc.
  apply set_row_head_inv in Hbody
    as (r1 & r1' & Hdof0 & Hr1 & Hlen & Hset & ->).
  intros dof' r' Hdof' Hr'.
  destruct (decide (Z.to_nat dof = Z.to_nat dof')) as [Heq|Hne].
  - assert (dof' = dof) as -> by lia.
    rewrite list_lookup_insert_eq in Hr' by (by eapply lookup_lt_Some).
    injection Hr' as <-. right.
    apply at_inr_inv in Hdof as [_ Hdof]. apply at_inr_inv in Hsrc as [_ Hsrc].
    exists (Z.to_nat i), x_dofs, coordinate_dofs, dofs, coordinates.
    do 5 (split; [done|]). rewrite Hsrc. f_equal.
    unfold set_segment in Hset. case_decide; [|done].
    injection Hset as <-. simpl.
    replace (Z.to_nat (geometry_dim g)) with (length src) by lia.
    by rewrite take_app_length.
  - rewrite list_lookup_insert_ne in Hr' by done. by apply IH.
Qed.
End tabulated_rows.

(** X22.  Every row of what [tabulate_dof_coordinates] returns is either
    all zero or was written for a cell the dof belongs to: its first [gdim]
    entries are the row, at the position of the dof in the cell, of what the
    coordinate map yields for the coordinates of that cell. *)
Theorem tabulate_dof_coordinates_rows {double Element DofMap : Type}
    `{!SpaceExternals double Element DofMap}
    (V : FunctionSpace double Element DofMap) (x : list (list double))
    (dof : Z) (r : list double) :
  tabulate_dof_coordinates V = inr x →
  0 ≤ dof → x !! Z.to_nat dof = Some r →
  r = replicate 3 dzero
  ∨ ∃ mesh element V_dofmap map num_dofs_g c,
      _mesh V = Some mesh ∧ _element V = Some element
      ∧ _dofmap V = Some V_dofmap
      ∧ index_map (topology mesh) (topology_dim (topology mesh)) = Some map
      ∧ num_links (dofmap (geometry mesh)) 0 = inr num_dofs_g
      ∧ 0 ≤ c < size_local map + num_ghosts map
      ∧ tabulated_for (geometry mesh) num_dofs_g
          (dof_reference_coordinates element) V_dofmap c dof r.
Proof.
  unfold tabulate_dof_coordinates.
  destruct (_mesh V) as [mesh|] eqn:Hm; [|done]. simpl.
  destruct (_element V) as [element|] eqn:He; [|done]. simpl.
  case_decide as Hc; [done|].
  destruct (_dofmap V) as [V_dofmap|] eqn:Hd; [|done]. simpl.
  destruct (dofmap_index_map V_dofmap) as [V_index_map|] eqn:Hi; [|done].
  simpl. intros H. inv_step H as num_dofs_g Hn. inv_step H as x0 Hx0.
  inv_step H as u1 Hu1. inv_step H as u2 Hu2.
  destruct (index_map (topology mesh) (topology_dim (topology mesh)))
    as [map|] eqn:Hmap; [|done]. simpl in H.
  unfold Zero in Hx0. case_decide as Hsize; [|done]. injection Hx0 as <-.
  intros Hdof Hr.
  assert (HP : ∀ dof r, 0 ≤ dof → x !! Z.to_nat dof = Some r →
             r = replicate 3 dzero
             ∨ ∃ c, 0 ≤ c < size_local map + num_ghosts map
                    ∧ tabulated_for (geometry mesh) num_dofs_g
                        (dof_reference_coordinates element) V_dofmap c dof r).
  { revert H. apply (fold_result_ind
      (λ x, ∀ dof r, 0 ≤ dof → x !! Z.to_nat dof = Some r →
              r = replicate 3 dzero
              ∨ ∃ c, 0 ≤ c < size_local map + num_ghosts map
                     ∧ tabulated_for (geometry mesh) num_dofs_g
                         (dof_reference_coordinates element) V_dofmap c
                         dof r)).
    - intros dof' r' _ [-> _]%lookup_replicate_1. by left.
    - intros x1 c x2 Hcin IH Hcell dof' r' Hdof' Hr'.
      destruct (tabulate_cell_written _ _ _ _ _ _ _ Hcell dof' r' Hdof' Hr')
        as [Hold|Hnew]; [by apply IH|].
      right. exists c. split; [|done]. by apply elem_of_seqZ_0. }
  destruct (HP dof r Hdof Hr) as [->|(c & Hcr & Htab)]; [by left|].
  right. by exists mesh, element, V_dofmap, map, num_dofs_g, c.
Qed.

(** * More on the assemblers *)

(** ** The exterior facet assembler *)

Section exterior_calls.
Context {T double : Type} `{!Scalar T} `{!Externals T double}.
Implicit Types (g : Geometry double) (perms : list (list Z)).
Implicit Types (cell_info : list Z) (f_to_c c_to_f : AdjacencyList).
Implicit Types (coeffs : Array2 T) (constant_values : list T).

Lemma exterior_facet_arguments_spec g (num_dofs_g : Z) perms cell_info
    f_to_c c_to_f coeffs constant_values (facet : Z) a :
  exterior_facet_arguments g num_dofs_g perms cell_info f_to_c c_to_f
    coeffs constant_values facet = inr a →
  exterior_call_spec g num_dofs_g perms cell_info f_to_c c_to_f coeffs
    constant_values facet a.
Proof.
  unfold exterior_facet_arguments, num_links. intros H.
  inv_step H as n Hn. inv_step Hn as cells Hcells. injection Hn as <-.
  inv_step H as u Hu. apply check_inr_inv, bool_decide_eq_true_1 in Hu.
  rewrite result_bind_inr in H. inv_step H as cell Hcell.
  inv_step H as local_facet Hlf. inv_step H as x_dofs Hx.
  inv_step H as coordinate_dofs Hcd. inv_step H as coeff_cell Hw.
  inv_step H as perm Hperm. inv_step H as info Hinfo.
  injection H as <-.
  apply local_facet_index_inv in Hlf as (facets & Hl & Hin & ->).
  destruct cells as [|cell' [|]]; simpl in Hu; try lia.
  apply at_inr_inv in Hcell as [_ [= <-]].
  exists cell', facets, x_dofs, perm. simpl.
  split; [done|]. split; [done|].
  split; [by apply std_find_elem|]. by repeat split.
Qed.
End exterior_calls.

(** X11.  On exterior facets whose data are readable,
    [assemble_exterior_facets] calls the kernel once per active facet, in
    the order of the list, and returns the kernel folded over these calls
    from zero.  The call for a facet carries the coefficients and the
    coordinates of the one cell the facet belongs to, the position of the
    facet among the facets of this cell, the permutation byte at this
    position and the permutation bitmask of the cell. *)
Theorem exterior_facet_kernel_calls {T double} `{!Scalar T}
    `{!Externals T double}
    (s : state T double) (active_facets : list Z) (fn : kernel T double)
    (coeffs : Array2 T) (constant_values : list T)
    (f_to_c c_to_f : AdjacencyList) (num_dofs_g : Z) :
  let g := geometry (st_mesh s) in
  let t := facet_topology (topology (st_mesh s)) in
  let tdim := topology_dim t in
  let perms := get_facet_permutations t in
  let cell_info := get_cell_permutation_info t in
  connectivity t (tdim - 1) tdim = Some f_to_c →
  connectivity t tdim (tdim - 1) = Some c_to_f →
  num_links (dofmap g) 0 = inr num_dofs_g →
  0 ≤ geometry_dim g →
  Forall (exterior_facet_readable g num_dofs_g perms cell_info f_to_c c_to_f
            coeffs) active_facets →
  ∃ calls,
    Forall2 (exterior_call_spec g num_dofs_g perms cell_info f_to_c c_to_f
               coeffs constant_values) active_facets calls
    ∧ assemble_exterior_facets active_facets fn coeffs constant_values s
      = (inr (foldl fn zero calls), mkState (mkMesh t g) (st_calls s ++ calls)).
Proof.
  intros g t tdim perms cell_info Hfc Hcf Hn Hg Hall.
  destruct (assemble_exterior_facets_inr s active_facets fn coeffs
              constant_values f_to_c c_to_f num_dofs_g Hfc Hcf Hn Hg Hall)
    as (calls & Hcalls & Hrun).
  exists calls. split; [|done].
  eapply Forall2_impl; [exact Hcalls|].
  intros f a. apply exterior_facet_arguments_spec.
Qed.

(** ** What the assemblers check before their loops *)

Section before_loops.
Context {T double : Type} `{!Scalar T} `{!Externals T double}.
Implicit Types (s : state T double) (fn : kernel T double).
Implicit Types (coeffs : Array2 T) (constant_values : list T).

Lemma assemble_exterior_facets_run active_facets fn coeffs constant_values s :
  let mesh := mkMesh (facet_topology (topology (st_mesh s)))
                     (geometry (st_mesh s)) in
  assemble_exterior_facets active_facets fn coeffs constant_values s
  = exterior_facets_loop mesh active_facets fn coeffs constant_values
      (mkState mesh (st_calls s)).
Proof.
  intros mesh. unfold assemble_exterior_facets.
  rewrite bind_run, create_facet_topology_run. by rewrite bind_run.
Qed.

Lemma assemble_interior_facets_run active_facets fn coeffs offsets
    constant_values s :
  let mesh := mkMesh (facet_topology (topology (st_mesh s)))
                     (geometry (st_mesh s)) in
  assemble_interior_facets active_facets fn coeffs offsets constant_values s
  = interior_facets_loop mesh active_facets fn coeffs offsets constant_values
      (mkState mesh (st_calls s)).
Proof.
  intros mesh. unfold assemble_interior_facets.
  rewrite bind_run, create_facet_topology_run. by rewrite bind_run.
Qed.
End before_loops.

(** X12.  [assemble_interior_facets] checks the offsets before it visits a
    facet: with no offsets the read of [offsets.back()] is outside the
    vector, and a last offset that is not the number of coefficient columns
    trips the assertion.  In both cases no kernel is called, whatever the
    active facets are. *)
Theorem interior_offsets_checked {T double} `{!Scalar T}
    `{!Externals T double}
    (s : state T double) (active_facets : list Z) (fn : kernel T double)
    (coeffs : Array2 T) (offsets : list Z) (constant_values : list T)
    (num_dofs_g : Z) :
  let g := geometry (st_mesh s) in
  let t := facet_topology (topology (st_mesh s)) in
  num_links (dofmap g) 0 = inr num_dofs_g →
  0 ≤ geometry_dim g →
  (offsets = [] →
   assemble_interior_facets active_facets fn coeffs offsets constant_values s
   = (inl undefined_behaviour, mkState (mkMesh t g) (st_calls s)))
  ∧ (∀ back, last offsets = Some back → 0 ≤ back → back ≠ cols coeffs →
     assemble_interior_facets active_facets fn coeffs offsets
       constant_values s
     = (inl (assertion_failed "offsets.back() == coeffs.cols()"),
        mkState (mkMesh t g) (st_calls s))).
Proof.
  intros g t Hn Hg.
  assert (Halloc : allocate (2 * num_dofs_g) (geometry_dim g) = inr ()).
  { apply allocate_inr; [|done].
    pose proof (num_links_nonneg _ _ _ Hn). lia. }
  split.
  - intros ->. rewrite assemble_interior_facets_run. fold g t.
    unfold interior_facets_loop. simpl.
    rewrite bind_run. unfold lift at 1. rewrite Hn.
    rewrite bind_run. unfold lift at 1. rewrite Halloc.
    by rewrite bind_run.
  - intros back Hback Hpos Hne. rewrite assemble_interior_facets_run.
    fold g t. unfold interior_facets_loop. simpl.
    rewrite bind_run. unfold lift at 1. rewrite Hn.
    rewrite bind_run. unfold lift at 1. rewrite Halloc.
    rewrite bind_run. unfold lift at 1. rewrite Hback. simpl.
    destruct (new_array_length (T := T) (2 * back)) as (w & Hw & _); [lia|].
    rewrite bind_run. unfold lift at 1. rewrite Hw.
    rewrite bind_run. unfold lift at 1.
    by rewrite bool_decide_eq_false_2.
Qed.

(** X13.  Each assembler asks the coordinate dofmap for the number of links
    of cell 0 before its loop.  On a mesh whose coordinate dofmap has no
    cell, it therefore returns no value and calls no kernel, even when the
    list of active entities is empty. *)
Theorem assemblers_read_cell_zero {T double} `{!Scalar T}
    `{!Externals T double}
    (s : state T double) (active : list Z) (fn : kernel T double)
    (coeffs : Array2 T) (offsets : list Z) (constant_values : list T) :
  dofmap (geometry (st_mesh s)) = [] →
  (assemble_cells active fn coeffs constant_values s).1
  = inl undefined_behaviour
  ∧ st_calls (assemble_cells active fn coeffs constant_values s).2
    = st_calls s
  ∧ (assemble_exterior_facets active fn coeffs constant_values s).1
    = inl undefined_behaviour
  ∧ st_calls (assemble_exterior_facets active fn coeffs constant_values s).2
    = st_calls s
  ∧ (assemble_interior_facets active fn coeffs offsets constant_values s).1
    = inl undefined_behaviour
  ∧ st_calls (assemble_interior_facets active fn coeffs offsets
                constant_values s).2
    = st_calls s.
Proof.
  intros Hd.
  rewrite assemble_cells_run, assemble_exterior_facets_run,
    assemble_interior_facets_run.
  unfold cells_loop, exterior_facets_loop, interior_facets_loop. simpl.
  rewrite !bind_run. unfold lift. rewrite Hd. simpl. done.
Qed.

(** ** Assembly only adds to the state *)

Section extending.
Context {T double : Type} `{!Scalar T} `{!Externals T double}.
Implicit Types (s : state T double) (fn : kernel T double).
Implicit Types (mesh : Mesh double).

Lemma extends_refl s : cache_consistent (topology (st_mesh s)) → extends s s.
Proof. intros Ht. split; [done|]. split; [by apply grows_refl|done]. Qed.

Lemma extends_trans s1 s2 s3 : extends s1 s2 → extends s2 s3 → extends s1 s3.
Proof.
  intros (Hg1 & Ht1 & Hl1) (Hg2 & Ht2 & Hl2).
  split; [congruence|]. split; [by eapply grows_trans|by etrans].
Qed.

Lemma extends_consistent s s' :
  extends s s' → cache_consistent (topology (st_mesh s')).
Proof. by intros (_ & (_ & _ & _ & Ht) & _). Qed.

Lemma extending_bind {A B} (m : M (state T double) A)
    (f : A → M (state T double) B) :
  extending m → (∀ a, extending (f a)) → extending (m ≫= f).
Proof.
  intros Hm Hf s Hs. specialize (Hm s Hs). rewrite bind_run.
  destruct (m s) as [[e|a] s1]; [done|]. simpl in Hm.
  eapply extends_trans; [exact Hm|].
  apply Hf. by eapply extends_consistent.
Qed.

Lemma extending_ret {A} (a : A) :
  extending (mret (M := M (state T double)) a).
Proof. intros s Hs. by apply extends_refl. Qed.

Lemma extending_foldM {A B} (body : B → A → M (state T double) B) (b : B)
    (l : list A) :
  (∀ b a, extending (body b a)) → extending (foldM body b l).
Proof.
  intros Hbody. revert b. induction l as [|a l IH]; intros b; simpl.
  - apply extending_ret.
  - apply extending_bind; [apply Hbody|apply IH].
Qed.

Lemma extending_logs_only {A} (m : M (state T double) A) :
  logs_only m → extending m.
Proof.
  intros (r & calls & Hm) s Hs. rewrite Hm. simpl.
  split; [done|]. split; [by apply grows_refl|by apply prefix_app_r].
Qed.

Lemma extending_on_mesh {A} (m : M (Mesh double) A) :
  builds m → extending (on_mesh m).
Proof.
  intros Hm s Hs. destruct (Hm (st_mesh s) Hs) as (a & t' & Hrun & Hg).
  unfold on_mesh. rewrite Hrun. simpl. by split.
Qed.

Lemma extending_get : extending (get (S := state T double)).
Proof. intros s Hs. by apply extends_refl. Qed.

Lemma extending_create_facet_topology : extending create_facet_topology.
Proof.
  unfold create_facet_topology.
  apply extending_bind; [apply extending_get|]. intros s.
  apply extending_bind;
    [apply extending_on_mesh, builds_create_entities|]. intros _.
  apply extending_bind;
    [apply extending_on_mesh, builds_create_connectivity|]. intros _.
  apply extending_on_mesh, builds_create_entity_permutations.
Qed.

Lemma extending_assemble_cells active_cells fn coeffs constant_values :
  extending (assemble_cells active_cells fn coeffs constant_values).
Proof.
  unfold assemble_cells.
  apply extending_bind; [apply extending_get|]. intros s.
  apply extending_bind;
    [apply extending_on_mesh, builds_create_entities|]. intros _.
  apply extending_bind;
    [apply extending_on_mesh, builds_create_entity_permutations|]. intros _.
  apply extending_bind; [apply extending_get|]. intros s'.
  apply extending_logs_only, logs_only_cells_loop.
Qed.

Lemma extending_assemble_exterior_facets active_facets fn coeffs
    constant_values :
  extending (assemble_exterior_facets active_facets fn coeffs constant_values).
Proof.
  unfold assemble_exterior_facets.
  apply extending_bind; [apply extending_create_facet_topology|]. intros _.
  apply extending_bind; [apply extending_get|]. intros s'.
  apply extending_logs_only, logs_only_exterior_facets_loop.
Qed.

Lemma extending_assemble_interior_facets active_facets fn coeffs offsets
    constant_values :
  extending (assemble_interior_facets active_facets fn coeffs offsets
               constant_values).
Proof.
  unfold assemble_interior_facets.
  apply extending_bind; [apply extending_create_facet_topology|]. intros _.
  apply extending_bind; [apply extending_get|]. intros s'.
  apply extending_logs_only, logs_only_interior_facets_loop.
Qed.

Lemma extending_add_integrals
    (assemble : list Z → kernel T double → M (state T double) T)
    (integrals : list (kernel T double * list Z)) (value : T) :
  (∀ active fn, extending (assemble active fn)) →
  extending (add_integrals assemble integrals value).
Proof.
  intros Ha. unfold add_integrals. apply extending_foldM.
  intros v integral. apply extending_bind; [apply Ha|].
  intros v'. apply extending_ret.
Qed.

Lemma extending_assemble_scalar (F : Form T double) :
  extending (assemble_scalar F).
Proof.
  unfold assemble_scalar. destruct (negb (all_constants_set F)).
  { apply extending_logs_only, logs_only_lift. }
  apply extending_bind; [apply extending_logs_only, logs_only_lift|].
  intros arrays. unfold assemble_integrals.
  apply extending_bind.
  { apply extending_add_integrals. intros.
    apply extending_assemble_cells. }
  intros v1. apply extending_bind.
  { apply extending_add_integrals. intros.
    apply extending_assemble_exterior_facets. }
  intros v2. apply extending_bind.
  { apply extending_add_integrals. intros.
    apply extending_assemble_interior_facets. }
  intros v3. apply extending_ret.
Qed.
End extending.

(** X14.  Whether it returns a value or fails, [assemble_scalar] only adds
    to the state it runs in: on a mesh with consistent caches it leaves the
    geometry and the topological dimension as they are, every connectivity
    and the permutation data that were cached are still cached, the caches
    are still consistent, and the log of kernel calls is only extended. *)
Theorem assemble_scalar_only_adds {T double} `{!Scalar T}
    `{!Externals T double}
    (F : Form T double) (s : state T double) :
  cache_consistent (topology (st_mesh s)) →
  let s' := (assemble_scalar F s).2 in
  geometry (st_mesh s') = geometry (st_mesh s)
  ∧ topology_dim (topology (st_mesh s')) = topology_dim (topology (st_mesh s))
  ∧ (∀ d0 d1 c, connectivity (topology (st_mesh s)) d0 d1 = Some c →
                connectivity (topology (st_mesh s')) d0 d1 = Some c)
  ∧ (∀ p, topology_permutations (topology (st_mesh s)) = Some p →
          topology_permutations (topology (st_mesh s')) = Some p)
  ∧ cache_consistent (topology (st_mesh s'))
  ∧ st_calls s `prefix_of` st_calls s'.
Proof.
  intros Hs s'.
  destruct (extending_assemble_scalar F s Hs) as (Hg & Ht & Hl).
  fold s' in Hg, Ht, Hl.
  pose proof Ht as (Hb & Hc & Hp & Ht').
  split; [done|]. split; [by apply grows_dim|]. split; [|split; [|done]].
  - intros d0 d1 c Hd.
    destruct (Hc d0 d1) as [c' Hc']; [by eexists|]. rewrite Hc'. f_equal.
    rewrite (cache_consistent_lookup _ _ _ _ Ht' Hc').
    rewrite (cache_consistent_lookup _ _ _ _ Hs Hd). by rewrite Hb.
  - intros p Hperm. destruct Hp as [p' Hp']; [by eexists|].
    rewrite Hp'. f_equal.
    destruct Ht' as (_ & _ & Hperm' & _). destruct Hs as (_ & _ & Hperm0 & _).
    rewrite (Hperm' _ Hp'), (Hperm0 _ Hperm). by rewrite Hb.
Qed.

(** ** The value of a form is the sum of its integrals *)

Section sums.
Context {T double : Type} `{!Scalar T} `{!Externals T double}.
Implicit Types (s : state T double) (fn : kernel T double).

Lemma similar_extends s s1 s2 : similar s s1 → extends s1 s2 → similar s s2.
Proof.
  intros (Hg & Hb & Ht & Ht1) (Hg2 & (Hb2 & _ & _ & Ht2) & _).
  split; [congruence|]. split; [congruence|done].
Qed.

(** The integrals of one kind, started in a state similar to [s]: the
    outcome is the sum of what each integral yields when started in [s]. *)
Lemma add_integrals_sum
    (assemble : list Z → kernel T double → M (state T double) T)
    (integrals : list (kernel T double * list Z)) (value : T) s s1 :
  (∀ active fn, agrees (assemble active fn)) →
  (∀ active fn, extending (assemble active fn)) →
  similar s s1 →
  (add_integrals assemble integrals value s1).1
  = sum_from s value ((λ integral, assemble integral.2 integral.1)
                        <$> integrals)
  ∧ similar s (add_integrals assemble integrals value s1).2.
Proof.
  intros Hagree Hext. unfold add_integrals, sum_from.
  revert value s1. induction integrals as [|integral l IH];
    intros value s1 Hsim; simpl.
  { done. }
  destruct (Hagree integral.2 integral.1 s s1 Hsim)
    as (r & calls & Hr & Hr1 & _ & _ & _).
  pose proof (Hext integral.2 integral.1 s1 (proj2 (proj2 (proj2 Hsim))))
    as Hs1.
  rewrite bind_run, bind_run. rewrite Hr.
  destruct (assemble integral.2 integral.1 s1) as [r1 s2] eqn:Hrun.
  simpl in Hr1, Hs1. subst r1.
  destruct r as [e|v]; simpl.
  - split; [done|]. by eapply similar_extends.
  - apply IH. by eapply similar_extends.
Qed.

Lemma sum_from_app s (value : T) (runs1 runs2 : list (M (state T double) T)) :
  sum_from s value (runs1 ++ runs2)
  = (value' ← sum_from s value runs1; sum_from s value' runs2).
Proof. apply fold_result_app. Qed.
End sums.

(** X15.  On a mesh with consistent caches, the outcome of
    [assemble_scalar] is the sum, in the order cell integrals, exterior
    facet integrals, interior facet integrals, of what the assembler of each
    integral returns when it is run on its own on the mesh as it was: the
    topology an earlier integral has built changes nothing for a later one,
    and the first integral that fails decides the failure. *)
Theorem assemble_scalar_sums_integrals {T double} `{!Scalar T}
    `{!Externals T double}
    (F : Form T double) (s : state T double) :
  cache_consistent (topology (st_mesh s)) →
  Forall (λ constant, is_Some constant.2) (constants F) →
  (assemble_scalar F s).1
  = sum_from s zero (integral_runs F (concat (omap snd (constants F)))).
Proof.
  intros Hs Hset. rewrite (assemble_scalar_set F s Hset).
  set (arrays := omap snd (constants F)).
  unfold assemble_integrals, integral_runs.
  assert (Hsim : similar s s) by (split; [done|]; split; [done|]; by split).
  destruct (add_integrals_sum
              (λ active_cells fn, assemble_cells active_cells fn
                 (pack_coefficients F) (concat arrays))
              (cell_integrals F) zero s s) as [H1 Hsim1];
    [intros; apply agrees_assemble_cells
    |intros; apply extending_assemble_cells|done|].
  rewrite sum_from_app, <- H1. rewrite bind_run.
  destruct (add_integrals _ (cell_integrals F) zero s) as [[e|v1] s1];
    [done|]. simpl in Hsim1. simpl.
  destruct (add_integrals_sum
              (λ active_facets fn, assemble_exterior_facets active_facets fn
                 (pack_coefficients F) (concat arrays))
              (exterior_facet_integrals F) v1 s s1) as [H2 Hsim2];
    [intros; apply agrees_assemble_exterior_facets
    |intros; apply extending_assemble_exterior_facets|done|].
  rewrite sum_from_app, <- H2. rewrite bind_run.
  destruct (add_integrals _ (exterior_facet_integrals F) v1 s1)
    as [[e|v2] s2]; [done|]. simpl in Hsim2. simpl.
  destruct (add_integrals_sum
              (λ active_facets fn, assemble_interior_facets active_facets fn
                 (pack_coefficients F) (coefficients_offsets F)
                 (concat arrays))
              (interior_facet_integrals F) v2 s s2) as [H3 _];
    [intros; apply agrees_assemble_interior_facets
    |intros; apply extending_assemble_interior_facets|done|].
  rewrite <- H3. rewrite bind_run.
  by destruct (add_integrals _ (interior_facet_integrals F) v2 s2)
    as [[e|v3] s3].
Qed.

(** ** What a kernel is handed *)

Lemma map_result_Forall2 {A B} (f : A → result B) (l : list A) (k : list B) :
  map_result f l = inr k → Forall2 (λ a b, f a = inr b) l k.
Proof.
  revert k. induction l as [|a l IH]; intros k; simpl.
  - intros [= <-]. constructor.
  - intros H. inv_step H as b Hb. inv_step H as k' Hk'. injection H as <-.
    constructor; [done|by apply IH].
Qed.

Section shapes.
Context {T double : Type} `{!Scalar T} `{!Externals T double}.
Implicit Types (s : state T double) (fn : kernel T double).
Implicit Types (g : Geometry double) (perms : list (list Z)).
Implicit Types (cell_info : list Z) (f_to_c c_to_f : AdjacencyList).
Implicit Types (coeffs : Array2 T) (constant_values : list T).

Lemma coordinate_rows_shape g (n : Z) (x_dofs : list Z)
    (xs : list (list double)) :
  0 ≤ n → coordinate_rows g n x_dofs = inr xs →
  Z.of_nat (length xs) = n
  ∧ Forall (λ r, Z.of_nat (length r) = geometry_dim g) xs.
Proof.
  intros Hn Hxs%map_result_Forall2. split.
  - rewrite <- (Forall2_length _ _ _ Hxs), length_seqZ. lia.
  - eapply Forall2_Forall_r; [exact Hxs|]. apply Forall_forall.
    intros i _ r Hr. inv_step Hr as d Hd. inv_step Hr as r0 Hr0.
    unfold head_, segment in Hr. case_decide as Hb; [|done].
    injection Hr as <-. rewrite length_take, length_drop. lia.
Qed.

Lemma cell_arguments_shape g (n : Z) cell_info coeffs constant_values
    (c : Z) a :
  0 ≤ n → cell_arguments g n cell_info coeffs constant_values c = inr a →
  call_shape n (geometry_dim g) 0 constant_values a.
Proof.
  intros Hn H. unfold cell_arguments in H.
  inv_step H as x_dofs Hx. inv_step H as xs Hxs. inv_step H as w Hw.
  inv_step H as info Hinfo. injection H as <-.
  destruct (coordinate_rows_shape _ _ _ _ Hn Hxs). by repeat split.
Qed.

Lemma exterior_facet_arguments_shape g (n : Z) perms cell_info f_to_c c_to_f
    coeffs constant_values (facet : Z) a :
  0 ≤ n →
  exterior_facet_arguments g n perms cell_info f_to_c c_to_f coeffs
    constant_values facet = inr a →
  call_shape n (geometry_dim g) 1 constant_values a.
Proof.
  intros Hn H. apply exterior_facet_arguments_spec in H
    as (cell & facets & x_dofs & perm & _ & _ & _ & _ & Hxs & _ & Hc
        & Hlf & _ & Hp & _).
  destruct (coordinate_rows_shape _ _ _ _ Hn Hxs).
  split; [done|]. split; [done|]. split; [done|]. by eexists _, _.
Qed.

Lemma interior_facet_arguments_coordinates g (n : Z) perms cell_info
    f_to_c c_to_f coeffs offsets constant_values coeff_array (f : Z) a w :
  0 ≤ n →
  interior_facet_arguments g n perms cell_info f_to_c c_to_f coeffs offsets
    constant_values coeff_array f = inr (a, w) →
  interior_coordinates_spec g n f_to_c f a
  ∧ call_shape (2 * n) (geometry_dim g) 2 constant_values a.
Proof.
  intros Hn H. unfold interior_facet_arguments in H.
  inv_step H as cells Hcells. inv_step H as u Hcheck.
  apply check_inr_inv, bool_decide_eq_true_1 in Hcheck.
  destruct cells as [|cell0 [|cell1 [|]]]; simpl in Hcheck; try lia.
  simpl in H. run_result.
  inv_step H as local_facet0 Hm1. inv_step H as local_facet1 Hm2.
  inv_step H as perm0 Hp0. inv_step H as perm1 Hp1.
  inv_step H as x_dofs0 Hx0. inv_step H as x_dofs1 Hx1.
  inv_step H as rows0 Hr0. inv_step H as rows1 Hr1.
  inv_step H as coeff_cell0 Hc0. inv_step H as coeff_cell1 Hc1.
  inv_step H as w' Hw'. inv_step H as info Hinfo.
  injection H as <- <-.
  destruct (coordinate_rows_shape _ _ _ _ Hn Hr0) as [Hl0 Hs0].
  destruct (coordinate_rows_shape _ _ _ _ Hn Hr1) as [Hl1 Hs1].
  split.
  - by exists cell0, cell1, x_dofs0, x_dofs1, rows0, rows1.
  - split; [simpl; rewrite length_app; lia|].
    split; [by apply Forall_app|]. split; [done|]. by eexists _, _.
Qed.

Lemma cells_loop_inv mesh active_cells fn coeffs constant_values s
    (value : T) s' :
  cells_loop mesh active_cells fn coeffs constant_values s
  = (inr value, s') →
  ∃ n calls,
    num_links (dofmap (geometry mesh)) 0 = inr n
    ∧ Forall2 (λ c a, cell_arguments (geometry mesh) n
                 (get_cell_permutation_info (topology mesh)) coeffs
                 constant_values c = inr a) active_cells calls
    ∧ value = foldl fn zero calls
    ∧ s' = mkState (st_mesh s) (st_calls s ++ calls).
Proof.
  unfold cells_loop. rewrite bind_run. unfold lift at 1.
  destruct (num_links _ 0) as [|n] eqn:Hn; [done|].
  rewrite bind_run. unfold lift at 1.
  destruct (allocate n _) as [|[]]; [done|]. intros H.
  destruct (kernel_loop_inv _ _ _ _ _ _ _ H) as [calls Hcalls].
  rewrite (kernel_loop_inr _ fn active_cells calls) in H by done.
  injection H as <- <-. by exists n, calls.
Qed.

Lemma exterior_facets_loop_inv mesh active_facets fn coeffs constant_values
    s (value : T) s' :
  exterior_facets_loop mesh active_facets fn coeffs constant_values s
  = (inr value, s') →
  ∃ n f_to_c c_to_f calls,
    num_links (dofmap (geometry mesh)) 0 = inr n
    ∧ Forall2 (λ f a, exterior_facet_arguments (geometry mesh) n
                 (get_facet_permutations (topology mesh))
                 (get_cell_permutation_info (topology mesh)) f_to_c c_to_f
                 coeffs constant_values f = inr a) active_facets calls
    ∧ value = foldl fn zero calls
    ∧ s' = mkState (st_mesh s) (st_calls s ++ calls).
Proof.
  unfold exterior_facets_loop. rewrite bind_run. unfold lift at 1.
  destruct (num_links _ 0) as [|n] eqn:Hn; [done|].
  rewrite bind_run. unfold lift at 1.
  destruct (allocate n _) as [|[]]; [done|].
  rewrite bind_run. unfold lift at 1.
  destruct (non_null _ "f_to_c") as [|f_to_c]; [done|].
  rewrite bind_run. unfold lift at 1.
  destruct (non_null _ "c_to_f") as [|c_to_f]; [done|]. intros H.
  destruct (kernel_loop_inv _ _ _ _ _ _ _ H) as [calls Hcalls].
  rewrite (kernel_loop_inr _ fn active_facets calls) in H by done.
  injection H as <- <-. by exists n, f_to_c, c_to_f, calls.
Qed.

Lemma gather_interior_length {E}
    (gather : list T → E → result (call T double * list T))
    (l : list E) (coeff_array coeff_array' : list T)
    (calls : list (call T double)) :
  gather_interior gather coeff_array l = inr (calls, coeff_array') →
  length calls = length l.
Proof.
  revert coeff_array calls. induction l as [|e l IH]; intros w calls; simpl.
  - by intros [= <- _].
  - intros H. inv_step H as r Hr. inv_step H as k Hk.
    destruct k as [calls' w']. injection H as <- <-. simpl. f_equal.
    by eapply IH.
Qed.

Lemma interior_facets_loop_inv mesh active_facets fn coeffs offsets
    constant_values s (value : T) s' :
  interior_facets_loop mesh active_facets fn coeffs offsets constant_values s
  = (inr value, s') →
  ∃ n f_to_c c_to_f coeff_array coeff_array' calls,
    num_links (dofmap (geometry mesh)) 0 = inr n
    ∧ gather_interior
        (interior_facet_arguments (geometry mesh) n
           (get_facet_permutations (topology mesh))
           (get_cell_permutation_info (topology mesh)) f_to_c c_to_f
           coeffs offsets constant_values)
        coeff_array active_facets = inr (calls, coeff_array')
    ∧ value = foldl fn zero calls
    ∧ s' = mkState (st_mesh s) (st_calls s ++ calls).
Proof.
  unfold interior_facets_loop. rewrite bind_run. unfold lift at 1.
  destruct (num_links _ 0) as [|n] eqn:Hn; [done|].
  rewrite bind_run. unfold lift at 1.
  destruct (allocate _ _) as [|[]]; [done|].
  rewrite bind_run. unfold lift at 1.
  destruct (defined (last offsets)) as [|back]; [done|].
  rewrite bind_run. unfold lift at 1.
  destruct (new_array _) as [|w]; [done|].
  rewrite bind_run. unfold lift at 1.
  destruct (check _ _) as [|[]]; [done|].
  rewrite bind_run. unfold lift at 1.
  destruct (non_null _ "f_to_c") as [|f_to_c]; [done|].
  rewrite bind_run. unfold lift at 1.
  destruct (non_null _ "c_to_f") as [|c_to_f]; [done|].
  rewrite bind_run. intros H.
  destruct (foldM _ _ _ _) as [[|r] s1] eqn:Hloop; [done|].
  injection H as <- <-.
  destruct (interior_loop_inv _ _ _ _ _ _ _ Hloop) as (calls & w' & Hg).
  simpl in Hg.
  rewrite (interior_loop_inr _ fn active_facets calls w w') in Hloop by done.
  injection Hloop as <- <-. by exists n, f_to_c, c_to_f, w, w', calls.
Qed.
End shapes.

(** X20.  An assembler that returns has called the kernel exactly once per
    active entity, and the value it returns is the kernel folded over these
    calls from zero.  Every call carried buffers of the sizes the kernel
    expects: the constants, [num_dofs_g] coordinate rows of [gdim] entries
    (twice as many rows for an interior facet), and no local facet index and
    permutation byte for a cell, one of each for an exterior facet, two of
    each for an interior facet. *)
Theorem kernel_argument_shapes {T double} `{!Scalar T} `{!Externals T double}
    (s : state T double) (active : list Z) (fn : kernel T double)
    (coeffs : Array2 T) (offsets : list Z) (constant_values : list T)
    (num_dofs_g : Z) :
  let gdim := geometry_dim (geometry (st_mesh s)) in
  num_links (dofmap (geometry (st_mesh s))) 0 = inr num_dofs_g →
  (∀ value s',
     assemble_cells active fn coeffs constant_values s = (inr value, s') →
     ∃ calls, st_calls s' = st_calls s ++ calls
              ∧ value = foldl fn zero calls
              ∧ length calls = length active
              ∧ Forall (call_shape num_dofs_g gdim 0 constant_values) calls)
  ∧ (∀ value s',
       assemble_exterior_facets active fn coeffs constant_values s
       = (inr value, s') →
       ∃ calls, st_calls s' = st_calls s ++ calls
                ∧ value = foldl fn zero calls
                ∧ length calls = length active
                ∧ Forall (call_shape num_dofs_g gdim 1 constant_values) calls)
  ∧ (∀ value s',
       assemble_interior_facets active fn coeffs offsets constant_values s
       = (inr value, s') →
       ∃ calls, st_calls s' = st_calls s ++ calls
                ∧ value = foldl fn zero calls
                ∧ length calls = length active
                ∧ Forall (call_shape (2 * num_dofs_g) gdim 2 constant_values)
                         calls).
Proof.
  intros gdim Hn. pose proof (num_links_nonneg _ _ _ Hn) as Hn0.
  split; [|split].
  - intros value s'. rewrite assemble_cells_run.
    intros (n & calls & Hn' & Hcalls & -> & ->)%cells_loop_inv.
    simpl in Hn'. rewrite Hn in Hn'. injection Hn' as <-.
    exists calls. split; [done|]. split; [done|].
    split; [by rewrite (Forall2_length _ _ _ Hcalls)|].
    eapply Forall2_Forall_r; [exact Hcalls|]. apply Forall_forall.
    intros c _ a. by apply cell_arguments_shape.
  - intros value s'. rewrite assemble_exterior_facets_run.
    intros (n & f_to_c & c_to_f & calls & Hn' & Hcalls & -> & ->)
      %exterior_facets_loop_inv.
    simpl in Hn'. rewrite Hn in Hn'. injection Hn' as <-.
    exists calls. split; [done|]. split; [done|].
    split; [by rewrite (Forall2_length _ _ _ Hcalls)|].
    eapply Forall2_Forall_r; [exact Hcalls|]. apply Forall_forall.
    intros c _ a. by apply exterior_facet_arguments_shape.
  - intros value s'. rewrite assemble_interior_facets_run.
    intros (n & f_to_c & c_to_f & w & w' & calls & Hn' & Hcalls & -> & ->)
      %interior_facets_loop_inv.
    simpl in Hn'. rewrite Hn in Hn'. injection Hn' as <-.
    exists calls. split; [done|]. split; [done|].
    split; [by eapply gather_interior_length|].
    eapply Forall2_Forall_r;
      [eapply (gather_interior_Forall2 _
                 (λ _ a, call_shape (2 * num_dofs_g) gdim 2
                           constant_values a)); [|exact Hcalls]|].
    + intros f w0 a w1 Ha.
      by apply interior_facet_arguments_coordinates in Ha as [_ ?].
    + by apply Forall_forall.
Qed.

(** X21.  For every active interior facet that is readable, the coordinate
    array of the kernel call holds the coordinate rows of the first incident
    cell followed, from row [num_dofs_g] on, by those of the second incident
    cell. *)
Theorem interior_facet_coordinates {T double} `{!Scalar T}
    `{!Externals T double}
    (s : state T double) (active_facets : list Z) (fn : kernel T double)
    (coeffs : Array2 T) (offsets : list Z) (constant_values : list T)
    (f_to_c c_to_f : AdjacencyList) (num_dofs_g : Z) :
  let g := geometry (st_mesh s) in
  let t := facet_topology (topology (st_mesh s)) in
  let tdim := topology_dim t in
  let perms := get_facet_permutations t in
  let cell_info := get_cell_permutation_info t in
  connectivity t (tdim - 1) tdim = Some f_to_c →
  connectivity t tdim (tdim - 1) = Some c_to_f →
  num_links (dofmap g) 0 = inr num_dofs_g →
  0 ≤ geometry_dim g →
  offsets_wf offsets (cols coeffs) →
  Array2_wf coeffs →
  Forall (interior_facet_readable g num_dofs_g perms cell_info f_to_c c_to_f
            coeffs) active_facets →
  ∃ calls,
    Forall2 (interior_coordinates_spec g num_dofs_g f_to_c)
            active_facets calls
    ∧ assemble_interior_facets active_facets fn coeffs offsets
        constant_values s
      = (inr (foldl fn zero calls),
         mkState (mkMesh t g) (st_calls s ++ calls)).
Proof.
  intros g t tdim perms cell_info Hfc Hcf Hn Hg Hwf Hrows Hall.
  pose proof (num_links_nonneg _ _ _ Hn) as Hn0.
  destruct (assemble_interior_facets_loop active_facets fn coeffs offsets
              constant_values s _ _ _ Hfc Hcf Hn Hg Hwf)
    as (w & Hw & Hlw & ->).
  fold g t perms cell_info.
  set (interior := interior_facet_arguments g num_dofs_g perms cell_info
                     f_to_c c_to_f coeffs offsets constant_values).
  destruct (gather_interior_inr interior
              (interior_coordinates_spec g num_dofs_g f_to_c)
              (Z.to_nat (2 * cols coeffs)) active_facets w)
    as (calls & w' & Hk & Hspec); [|lia|].
  - intros f w0 Hin Hlen. rewrite Forall_forall in Hall.
    destruct (interior_facet_arguments_readable g num_dofs_g perms cell_info
                f_to_c c_to_f coeffs offsets constant_values w0 f)
      as (a & w1 & Ha & Hl1); [done|done| |by apply Hall|].
    { pose proof (offsets_wf_nonneg _ _ Hwf). lia. }
    exists a, w1. split; [done|]. split; [lia|].
    by apply interior_facet_arguments_coordinates in Ha as [? _].
  - exists calls. split; [done|]. rewrite bind_run.
    by rewrite (interior_loop_inr interior fn active_facets calls w w').
Qed.

(** ** The local index of a facet *)

Lemma std_find_first (l : list Z) (x : Z) (j : nat) :
  (j < Z.to_nat (std_find l x))%nat → l !! j ≠ Some x.
Proof.
  revert j. induction l as [|y l IH]; intros j; simpl; [lia|].
  case_decide as Hy; [lia|]. pose proof (std_find_range l x).
  destruct j as [|j]; simpl; [congruence|].
  intros Hj. apply IH. lia.
Qed.

(** X23.  The local index of a facet with respect to a cell is the first
    position at which the cell lists the facet; when the cell does not list
    the facet, the assertion on the result of [std::find] fails. *)
Theorem local_facet_index_first (c_to_f : AdjacencyList) (facet cell : Z)
    (facets : list Z) :
  links c_to_f cell = inr facets →
  (facet ∈ facets →
   ∃ i : nat, local_facet_index c_to_f facet cell = inr (Z.of_nat i)
              ∧ facets !! i = Some facet
              ∧ ∀ j : nat, (j < i)%nat → facets !! j ≠ Some facet)
  ∧ (facet ∉ facets →
     local_facet_index c_to_f facet cell
     = inl (assertion_failed "it != (facets.data() + facets.rows())")).
Proof.
  intros Hl. split.
  - intros Hin. exists (Z.to_nat (std_find facets facet)).
    pose proof (std_find_range facets facet).
    rewrite Z2Nat.id by lia.
    split; [by apply local_facet_index_inr|].
    split; [by apply std_find_elem|]. intros j. apply std_find_first.
  - by apply local_facet_index_inl.
Qed.

(** ** [assemble_scalar] once the constants are set *)

Section visits.
Context {T double : Type} `{!Scalar T} `{!Externals T double}.
Implicit Types (s : state T double) (fn : kernel T double).
Implicit Types (coeffs : Array2 T) (constant_values : list T).

(** An assembler that returns has called the kernel of its integral once
    for each active entity, with the constants. *)
Lemma assemble_cells_visits active fn coeffs constant_values s (value : T) s' :
  assemble_cells active fn coeffs constant_values s = (inr value, s') →
  ∃ calls, st_calls s' = st_calls s ++ calls
           ∧ value = foldl fn zero calls
           ∧ entities_visited constant_values (fn, active) calls.
Proof.
  rewrite assemble_cells_run.
  intros (n & calls & Hn & Hcalls & -> & ->)%cells_loop_inv.
  pose proof (num_links_nonneg _ _ _ Hn) as Hn0.
  exists calls. split; [done|]. split; [done|].
  split; [simpl; by rewrite (Forall2_length _ _ _ Hcalls)|].
  eapply Forall2_Forall_r; [exact Hcalls|]. apply Forall_forall.
  intros c _ a Ha.
  by destruct (cell_arguments_shape _ _ _ _ _ _ _ Hn0 Ha) as (_ & _ & ? & _).
Qed.

Lemma assemble_exterior_facets_visits active fn coeffs constant_values s
    (value : T) s' :
  assemble_exterior_facets active fn coeffs constant_values s
  = (inr value, s') →
  ∃ calls, st_calls s' = st_calls s ++ calls
           ∧ value = foldl fn zero calls
           ∧ entities_visited constant_values (fn, active) calls.
Proof.
  rewrite assemble_exterior_facets_run.
  intros (n & f_to_c & c_to_f & calls & Hn & Hcalls & -> & ->)
    %exterior_facets_loop_inv.
  pose proof (num_links_nonneg _ _ _ Hn) as Hn0.
  exists calls. split; [done|]. split; [done|].
  split; [simpl; by rewrite (Forall2_length _ _ _ Hcalls)|].
  eapply Forall2_Forall_r; [exact Hcalls|]. apply Forall_forall.
  intros f _ a Ha.
  by destruct (exterior_facet_arguments_shape _ _ _ _ _ _ _ _ _ _ Hn0 Ha)
    as (_ & _ & ? & _).
Qed.

Lemma assemble_interior_facets_visits active fn coeffs offsets
    constant_values s (value : T) s' :
  assemble_interior_facets active fn coeffs offsets constant_values s
  = (inr value, s') →
  ∃ calls, st_calls s' = st_calls s ++ calls
           ∧ value = foldl fn zero calls
           ∧ entities_visited constant_values (fn, active) calls.
Proof.
  rewrite assemble_interior_facets_run.
  intros (n & f_to_c & c_to_f & w & w' & calls & Hn & Hcalls & -> & ->)
    %interior_facets_loop_inv.
  pose proof (num_links_nonneg _ _ _ Hn) as Hn0.
  exists calls. split; [done|]. split; [done|].
  split; [simpl; by eapply gather_interior_length|].
  eapply Forall2_Forall_r;
    [eapply (gather_interior_Forall2 _
               (λ _ a, call_c a = constant_values)); [|exact Hcalls]|].
  - intros f w0 a w1 Ha.
    by apply interior_facet_arguments_coordinates in Ha
      as [_ (_ & _ & ? & _)].
  - by apply Forall_forall.
Qed.

(** The loop over the integrals of one kind, when it returns: the calls of
    its integrals follow one another in the log, and the value is the sum,
    integral by integral, of what the kernels made of them. *)
Lemma add_integrals_visits
    (assemble : list Z → kernel T double → M (state T double) T)
    constant_values (integrals : list (kernel T double * list Z))
    (value value' : T) s s' :
  (∀ active fn s v s',
     assemble active fn s = (inr v, s') →
     ∃ calls, st_calls s' = st_calls s ++ calls
              ∧ v = foldl fn zero calls
              ∧ entities_visited constant_values (fn, active) calls) →
  add_integrals assemble integrals value s = (inr value', s') →
  ∃ calls : list (list (call T double)),
    st_calls s' = st_calls s ++ concat calls
    ∧ Forall2 (entities_visited constant_values) integrals calls
    ∧ value' = integrals_added value integrals calls.
Proof.
  intros Hassemble. unfold add_integrals, integrals_added.
  revert value s. induction integrals as [|[fn active] l IH];
    intros value s; simpl.
  - intros [= <- <-]. exists []. simpl. by rewrite app_nil_r.
  - rewrite bind_run, bind_run.
    destruct (assemble active fn s) as [[e|v] s1] eqn:Hrun; [done|].
    destruct (Hassemble _ _ _ _ _ Hrun) as (calls & Hlog & -> & Hvisited).
    simpl. intros (rest & Hrest & Hall & ->)%IH.
    exists (calls :: rest). simpl.
    split; [by rewrite Hrest, Hlog, <- app_assoc|].
    split; [by constructor|done].
Qed.

(** The loop over the integrals of one kind, when it fails: the failure is
    that of the assembler of one of the integrals. *)
Lemma add_integrals_failure
    (assemble : list Z → kernel T double → M (state T double) T)
    (integrals : list (kernel T double * list Z)) (value : T) s
    (e : exn) s' :
  add_integrals assemble integrals value s = (inl e, s') →
  ∃ integral s1, integral ∈ integrals
                 ∧ assemble integral.2 integral.1 s1 = (inl e, s').
Proof.
  unfold add_integrals. revert value s.
  induction integrals as [|integral l IH]; intros value s; simpl; [done|].
  rewrite bind_run, bind_run.
  destruct (assemble integral.2 integral.1 s) as [[e1|v] s1] eqn:Hrun.
  - intros [= <- <-]. exists integral, s. split; [by left|done].
  - simpl. intros (integral' & s2 & Hin & Hfail)%IH.
    exists integral', s2. split; [by right|done].
Qed.
End visits.

(** C5.  A form one of whose constants has no value makes [assemble_scalar]
    throw "Unset constant in Form" with the state untouched: the topology is
    as before and no kernel call has been logged.  When every constant has a
    value, the check passes and the loops over the integrals run.  If the
    call returns, the kernel of every integral has been called once for each
    of its active entities, with the concatenated values of the constants:
    the calls of the cell integrals, of the exterior facet integrals and of
    the interior facet integrals follow one another in the log, in this
    order, and the value is the sum, integral by integral, of what the
    kernels made of them.  If the call fails, the failure is that of the
    assembler of one of the integrals. *)
Theorem assemble_scalar_constants {T double} `{!Scalar T} `{!Externals T double}
    (F : Form T double) (s : state T double) :
  let coeffs := pack_coefficients F in
  let constant_values := concat (omap snd (constants F)) in
  ((∃ name, (name, None) ∈ constants F) →
   assemble_scalar F s = (inl (runtime_error "Unset constant in Form"), s))
  ∧ (Forall (λ constant, is_Some constant.2) (constants F) →
     (∀ value s',
        assemble_scalar F s = (inr value, s') →
        ∃ cells exterior interior : list (list (call T double)),
          st_calls s'
          = st_calls s ++ concat cells ++ concat exterior ++ concat interior
          ∧ Forall2 (entities_visited constant_values)
                    (cell_integrals F) cells
          ∧ Forall2 (entities_visited constant_values)
                    (exterior_facet_integrals F) exterior
          ∧ Forall2 (entities_visited constant_values)
                    (interior_facet_integrals F) interior
          ∧ value
            = integrals_added
                (integrals_added
                   (integrals_added zero (cell_integrals F) cells)
                   (exterior_facet_integrals F) exterior)
                (interior_facet_integrals F) interior)
     ∧ (∀ e s',
          assemble_scalar F s = (inl e, s') →
          ∃ integral s1,
            (integral ∈ cell_integrals F
             ∧ assemble_cells integral.2 integral.1 coeffs constant_values s1
               = (inl e, s'))
            ∨ (integral ∈ exterior_facet_integrals F
               ∧ assemble_exterior_facets integral.2 integral.1 coeffs
                   constant_values s1 = (inl e, s'))
            ∨ (integral ∈ interior_facet_integrals F
               ∧ assemble_interior_facets integral.2 integral.1 coeffs
                   (coefficients_offsets F) constant_values s1
                 = (inl e, s')))).
Proof.
  intros coeffs constant_values. split.
  - intros [name Hin]. by apply (assemble_scalar_unset F s name).
  - intros Hset. rewrite (assemble_scalar_set F s Hset).
    fold constant_values. unfold assemble_integrals. fold coeffs.
    rewrite bind_run.
    destruct (add_integrals _ (cell_integrals F) zero s)
      as [[e1|v1] s1] eqn:H1.
    { split; [done|]. intros e s' [= <- <-].
      destruct (add_integrals_failure _ _ _ _ _ _ H1) as (i & s0 & Hin & Hi).
      exists i, s0. by left. }
    rewrite bind_run.
    destruct (add_integrals _ (exterior_facet_integrals F) v1 s1)
      as [[e2|v2] s2] eqn:H2.
    { split; [done|]. intros e s' [= <- <-].
      destruct (add_integrals_failure _ _ _ _ _ _ H2) as (i & s0 & Hin & Hi).
      exists i, s0. right. by left. }
    rewrite bind_run.
    destruct (add_integrals _ (interior_facet_integrals F) v2 s2)
      as [[e3|v3] s3] eqn:H3.
    { split; [done|]. intros e s' [= <- <-].
      destruct (add_integrals_failure _ _ _ _ _ _ H3) as (i & s0 & Hin & Hi).
      exists i, s0. right. by right. }
    split; [|done]. intros value s' [= <- <-].
    apply (add_integrals_visits _ constant_values) in H1
      as (cells & Hl1 & Hc1 & ->);
      [|intros; by eapply assemble_cells_visits].
    apply (add_integrals_visits _ constant_values) in H2
      as (exterior & Hl2 & Hc2 & ->);
      [|intros; by eapply assemble_exterior_facets_visits].
    apply (add_integrals_visits _ constant_values) in H3
      as (interior & Hl3 & Hc3 & ->);
      [|intros; by eapply assemble_interior_facets_visits].
    exists cells, exterior, interior.
    split; [by rewrite Hl3, Hl2, Hl1, <- !app_assoc|done].
Qed.

(** * More on the mesh *)

(** ** [Mesh::num_entities_global] *)

(** X16.  [num_entities_global] returns the global size of the index map
    under the conditions under which [num_entities] returns a count: the
    index map of the dimension exists and its block size is 1.  Where the
    index map is missing, [num_entities] throws but [num_entities_global]
    trips an assertion. *)
Theorem num_entities_global_spec {double} (mesh : Mesh double) (dim : Z) :
  (index_map (topology mesh) dim = None →
   num_entities_global mesh dim
   = inl (assertion_failed "_topology->index_map(dim)")
   ∧ ∃ what, num_entities mesh dim = inl (runtime_error what))
  ∧ (∀ map, index_map (topology mesh) dim = Some map →
       block_size map = 1 →
       num_entities_global mesh dim = inr (size_global map))
  ∧ (is_ok (num_entities_global mesh dim) ↔ is_ok (num_entities mesh dim)).
Proof.
  unfold num_entities_global, num_entities.
  destruct (index_map (topology mesh) dim) as [map|]; simpl.
  - split; [done|]. split.
    + intros ? [= <-] Hb. by rewrite bool_decide_eq_true_2.
    + destruct (bool_decide (block_size map = 1)); simpl.
      * split; intros _; by eexists.
      * split; intros [? ?]; done.
  - split; [intros _; split; [done|by eexists]|]. split; [done|].
    split; intros [? ?]; done.
Qed.

(** ** [Mesh::hash] *)

Section cantor.
Implicit Types (s kt kg : Z).

Lemma triangular_succ s : (s + 1) * (s + 1 + 1) / 2 = s * (s + 1) / 2 + (s + 1).
Proof.
  replace ((s + 1) * (s + 1 + 1)) with (s * (s + 1) + (s + 1) * 2) by lia.
  by rewrite Z.div_add by done.
Qed.

Lemma triangular_mono s s' :
  0 ≤ s → s ≤ s' → s * (s + 1) / 2 ≤ s' * (s' + 1) / 2.
Proof. intros Hs Hle. apply Z.div_le_mono; [lia|nia]. Qed.

Lemma triangular_bound s : 0 ≤ s → 0 ≤ s * (s + 1) / 2 ∧ 2 * (s * (s + 1) / 2) ≤ s * (s + 1).
Proof.
  intros Hs. split; [apply Z.div_pos; nia|].
  apply Z.mul_div_le. lia.
Qed.

(** The pairing function on the integers is injective. *)
Lemma pairing_injective kt kg kt' kg' :
  0 ≤ kt → 0 ≤ kg → 0 ≤ kt' → 0 ≤ kg' →
  (kt + kg) * (kt + kg + 1) / 2 + kg = (kt' + kg') * (kt' + kg' + 1) / 2 + kg' →
  kt = kt' ∧ kg = kg'.
Proof.
  intros Hkt Hkg Hkt' Hkg' Heq.
  assert (Hlt : ∀ a b a' b', 0 ≤ a → 0 ≤ b → 0 ≤ a' → 0 ≤ b' →
            a + b < a' + b' →
            (a + b) * (a + b + 1) / 2 + b < (a' + b') * (a' + b' + 1) / 2 + b').
  { intros a b a' b' Ha Hb Ha' Hb' Hs.
    pose proof (triangular_mono (a + b + 1) (a' + b')) as Hm.
    rewrite triangular_succ in Hm. lia. }
  destruct (Z.lt_trichotomy (kt + kg) (kt' + kg')) as [Hs|[Hs|Hs]].
  - pose proof (Hlt kt kg kt' kg'). lia.
  - rewrite Hs in Heq. lia.
  - pose proof (Hlt kt' kg' kt kg). lia.
Qed.

(** Without overflow the [std::size_t] computation is the pairing
    function. *)
Lemma cantor_pairing_small (size_bits kt kg : Z) :
  pairing_fits size_bits kt kg →
  cantor_pairing size_bits kt kg = (kt + kg) * (kt + kg + 1) / 2 + kg.
Proof.
  intros (Hkt & Hkg & Hsum & Hproduct). unfold cantor_pairing, size_t.
  pose proof (triangular_bound (kt + kg)) as Hb.
  rewrite (Z.mod_small (kt + kg)) by lia.
  rewrite (Z.mod_small (kt + kg + 1)) by lia.
  rewrite (Z.mod_small ((kt + kg) * (kt + kg + 1))) by nia.
  rewrite Z.mod_small; [done|].
  destruct (decide (kt + kg = 0)) as [H0|Hne].
  - replace ((kt + kg) * (kt + kg + 1)) with 0 by nia.
    rewrite Z.div_0_l by done. lia.
  - assert (kt + kg ≤ (kt + kg) * (kt + kg + 1) / 2)
      by (apply Z.div_le_lower_bound; [lia|nia]).
    lia.
Qed.
End cantor.

(** X17.  [Mesh::hash] combines the global hashes of the topology and of
    the geometry by the Cantor pairing function in [std::size_t]
    arithmetic.  As long as no intermediate result wraps around (the sum
    plus one and the product fit into a [std::size_t]), the combination is
    injective:
    two meshes with the same hash have the same global topology hash and the
    same global geometry hash. *)
Theorem hash_injective_without_overflow {double : Type} (size_bits : Z)
    (Topology_hash : Topology → Z) (Geometry_hash : Geometry double → Z)
    (hash_global : Z → Z) (mesh mesh' : Mesh double) :
  let kt := hash_global (Topology_hash (topology mesh)) in
  let kg := hash_global (Geometry_hash (geometry mesh)) in
  let kt' := hash_global (Topology_hash (topology mesh')) in
  let kg' := hash_global (Geometry_hash (geometry mesh')) in
  pairing_fits size_bits kt kg → pairing_fits size_bits kt' kg' →
  hash size_bits Topology_hash Geometry_hash hash_global mesh
  = hash size_bits Topology_hash Geometry_hash hash_global mesh' →
  kt = kt' ∧ kg = kg'.
Proof.
  intros kt kg kt' kg' Hfits Hfits'. unfold hash.
  fold kt kg kt' kg'. rewrite !cantor_pairing_small by done.
  destruct Hfits as (? & ? & _), Hfits' as (? & ? & _).
  by apply pairing_injective.
Qed.

(** ** The [create_*] functions *)

Section keeping.
Context {T double : Type} `{!Externals T double}.
Implicit Types (mesh : Mesh double) (t : Topology) (d dim : Z).

Lemma keeps_refl t : keeps t t.
Proof. by repeat split. Qed.

Lemma keeps_trans t1 t2 t3 : keeps t1 t2 → keeps t2 t3 → keeps t1 t3.
Proof.
  intros (Hd1 & Hc1 & Hi1) (Hd2 & Hc2 & Hi2).
  split; [congruence|]. split; [intros; by apply Hc2, Hc1|].
  intros; by apply Hi2, Hi1.
Qed.

Lemma set_connectivity_keeps (c : AdjacencyList) (d0 d1 : Z) t :
  keeps t (set_connectivity c d0 d1 t).
Proof.
  split; [done|]. split; [|done]. intros a b. unfold connectivity. simpl.
  intros Hab. apply lookup_insert_is_Some.
  destruct (decide ((d0, d1) = (a, b))); [by left|by right].
Qed.

Lemma set_index_map_keeps d (m : IndexMap) t : keeps t (set_index_map d m t).
Proof.
  split; [done|]. split; [done|]. intros a. unfold index_map. simpl.
  intros Ha. apply lookup_insert_is_Some.
  destruct (decide (d = a)); [by left|by right].
Qed.

Lemma with_entities_keeps dim t : keeps t (with_entities dim t).
Proof.
  unfold with_entities.
  eapply keeps_trans; [|apply set_index_map_keeps].
  eapply keeps_trans; [|apply set_connectivity_keeps].
  apply set_connectivity_keeps.
Qed.

Lemma entities_created_keeps dim t : keeps t (entities_created dim t).
Proof.
  unfold entities_created. case_decide; [apply keeps_refl|].
  apply with_entities_keeps.
Qed.

Lemma connectivity_computed_keeps (d0 d1 : Z) t :
  keeps t (connectivity_computed d0 d1 t).
Proof.
  unfold connectivity_computed.
  destruct (connectivity t d0 d1); [apply keeps_refl|].
  destruct (transposed_for_free d0 d1).
  - eapply keeps_trans; apply set_connectivity_keeps.
  - apply set_connectivity_keeps.
Qed.

Lemma facets_flagged_keeps (d0 d1 : Z) t : keeps t (facets_flagged d0 d1 t).
Proof. unfold facets_flagged. case_decide; by repeat split. Qed.

Lemma connectivity_created_keeps (d0 d1 : Z) t :
  keeps t (connectivity_created d0 d1 t).
Proof.
  unfold connectivity_created.
  eapply keeps_trans; [|apply facets_flagged_keeps].
  eapply keeps_trans; [|apply connectivity_computed_keeps].
  eapply keeps_trans; apply entities_created_keeps.
Qed.

Lemma foldl_keeps {A} (f : Topology → A → Topology) (l : list A) t :
  (∀ t a, keeps t (f t a)) → keeps t (foldl f t l).
Proof.
  intros Hf. revert t. induction l as [|a l IH]; intros t; simpl.
  - apply keeps_refl.
  - eapply keeps_trans; [apply Hf|apply IH].
Qed.

(** What a step establishes for its own argument, and every later step
    keeps, holds for all the arguments at the end. *)
Lemma foldl_establishes {A} (f : Topology → A → Topology)
    (P : A → Topology → Prop) (l : list A) t :
  (∀ t a, keeps t (f t a)) → (∀ t a, P a (f t a)) →
  (∀ a t t', keeps t t' → P a t → P a t') →
  ∀ a, a ∈ l → P a (foldl f t l).
Proof.
  intros Hkeeps Hf Hmono. revert t.
  induction l as [|b l IH]; intros t a Hin; [by apply elem_of_nil in Hin|].
  simpl. apply elem_of_cons in Hin as [->|Hin]; [|by apply IH].
  eapply Hmono; [by apply foldl_keeps|apply Hf].
Qed.

Lemma connectivity_computed_present (d0 d1 : Z) t :
  is_Some (connectivity (connectivity_computed d0 d1 t) d0 d1).
Proof.
  unfold connectivity_computed.
  destruct (connectivity t d0 d1) as [c|] eqn:Hc; [by rewrite Hc|].
  destruct (transposed_for_free d0 d1).
  - apply set_connectivity_keeps. unfold connectivity. simpl.
    rewrite lookup_insert_eq. by eexists.
  - unfold connectivity. simpl. rewrite lookup_insert_eq. by eexists.
Qed.

Lemma connectivity_created_present (d0 d1 : Z) t :
  is_Some (connectivity (connectivity_created d0 d1 t) d0 d1).
Proof.
  unfold connectivity_created. apply facets_flagged_keeps.
  apply connectivity_computed_present.
Qed.

Lemma create_connectivity_row_run mesh (d0 : Z) (l : list Z) :
  foldM (λ _ d1, create_connectivity d0 d1) () l mesh
  = (inr (), mkMesh (foldl (λ t d1, connectivity_created d0 d1 t)
                       (topology mesh) l) (geometry mesh)).
Proof.
  revert mesh. induction l as [|d1 l IH]; intros mesh; simpl.
  - by destruct mesh.
  - rewrite bind_run, create_connectivity_run. by rewrite IH.
Qed.

Lemma create_connectivity_rows_run mesh (l dims : list Z) :
  foldM (λ _ d0, foldM (λ _ d1, create_connectivity d0 d1) () dims) () l mesh
  = (inr (), mkMesh (foldl (λ t d0,
                              foldl (λ t d1, connectivity_created d0 d1 t)
                                    t dims)
                       (topology mesh) l) (geometry mesh)).
Proof.
  revert mesh. induction l as [|d0 l IH]; intros mesh; simpl.
  - by destruct mesh.
  - rewrite bind_run, create_connectivity_row_run. by rewrite IH.
Qed.

Lemma create_connectivity_all_run mesh :
  create_connectivity_all mesh
  = (inr (), mkMesh (connectivity_all_created (topology mesh))
                    (geometry mesh)).
Proof.
  unfold create_connectivity_all. rewrite bind_run. simpl.
  rewrite bind_run, create_all_entities_run.
  by rewrite create_connectivity_rows_run.
Qed.

(** The entities stay counted. *)
Lemma with_entities_counted dim t :
  is_Some (connectivity t (topology_dim t) 0) → entities_counted t →
  entities_counted (with_entities dim t).
Proof.
  intros Hcells Hcounted d. unfold with_entities, connectivity, index_map.
  simpl. intros Hd. apply lookup_insert_is_Some.
  destruct (decide (dim = d)) as [|Hne]; [by left|right].
  split; [done|].
  apply lookup_insert_is_Some in Hd as [Heq|[_ Hd]]; [congruence|].
  apply lookup_insert_is_Some in Hd as [Heq|[_ Hd]].
  - injection Heq as <-. by apply Hcounted.
  - by apply Hcounted.
Qed.

Lemma entities_created_counted dim t :
  is_Some (connectivity t (topology_dim t) 0) → entities_counted t →
  entities_counted (entities_created dim t).
Proof.
  intros Hcells Hcounted. unfold entities_created. case_decide; [done|].
  by apply with_entities_counted.
Qed.

Lemma all_entities_created_counted (l : list Z) t :
  is_Some (connectivity t (topology_dim t) 0) → entities_counted t →
  entities_counted (foldl (λ t d, entities_created d t) t l).
Proof.
  revert t. induction l as [|a l IH]; intros t Hcells Hcounted; simpl;
    [done|].
  apply IH.
  - rewrite entities_created_dim. by apply entities_created_keeps.
  - by apply entities_created_counted.
Qed.

Lemma set_connectivity_counted (c : AdjacencyList) (d0 d1 : Z) t :
  (d1 = 0 → is_Some (index_map t d0)) → entities_counted t →
  entities_counted (set_connectivity c d0 d1 t).
Proof.
  intros Hnew Hcounted d. unfold connectivity, index_map. simpl.
  intros Hd. apply lookup_insert_is_Some in Hd as [Heq|[_ Hd]].
  - injection Heq as <- ->. by apply Hnew.
  - by apply Hcounted.
Qed.

Lemma connectivity_computed_counted (d0 d1 : Z) t :
  is_Some (connectivity t d0 0) → is_Some (connectivity t d1 0) →
  entities_counted t → entities_counted (connectivity_computed d0 d1 t).
Proof.
  intros H0 H1 Hcounted. unfold connectivity_computed.
  destruct (connectivity t d0 d1); [done|].
  destruct (transposed_for_free d0 d1).
  - apply set_connectivity_counted.
    + intros ->. by apply Hcounted.
    + apply set_connectivity_counted; [|done]. intros ->. by apply Hcounted.
  - apply set_connectivity_counted; [|done]. intros ->. by apply Hcounted.
Qed.

Lemma connectivity_created_counted (d0 d1 : Z) t :
  is_Some (connectivity t (topology_dim t) 0) → entities_counted t →
  entities_counted (connectivity_created d0 d1 t).
Proof.
  intros Hcells Hcounted. unfold connectivity_created.
  set (t1 := entities_created d0 t).
  set (t2 := entities_created d1 t1).
  assert (Hcells1 : is_Some (connectivity t1 (topology_dim t1) 0)).
  { unfold t1. rewrite entities_created_dim.
    by apply entities_created_keeps. }
  assert (Hcounted2 : entities_counted t2)
    by (by apply entities_created_counted, entities_created_counted).
  assert (Hcounted3 : entities_counted (connectivity_computed d0 d1 t2)).
  { apply connectivity_computed_counted; [| |done].
    - apply entities_created_keeps, entities_created_present.
    - apply entities_created_present. }
  unfold facets_flagged. by case_decide.
Qed.
End keeping.

(** X18.  [create_connectivity_all] returns, and afterwards a connectivity
    is cached for every pair of dimensions from 0 to the topological
    dimension; nothing that was cached is dropped.  If the mesh has its
    cell to vertex connectivity and an index map for the entities it caches,
    afterwards there is an index map for every dimension from 0 to the
    topological dimension, so that [num_entities] does not throw for any of
    them. *)
Theorem create_connectivity_all_complete {T double : Type}
    `{!Externals T double} (mesh : Mesh double) :
  let t := topology mesh in
  let tdim := topology_dim t in
  ∃ t', create_connectivity_all mesh = (inr (), mkMesh t' (geometry mesh))
        ∧ keeps t t'
        ∧ (∀ d0 d1, 0 ≤ d0 ≤ tdim → 0 ≤ d1 ≤ tdim →
                    is_Some (connectivity t' d0 d1))
        ∧ (is_Some (connectivity t tdim 0) → entities_counted t →
           ∀ d, 0 ≤ d ≤ tdim →
             is_Some (index_map t' d)
             ∧ ∀ what, num_entities (mkMesh t' (geometry mesh)) d
                       ≠ inl (runtime_error what)).
Proof.
  intros t tdim. exists (connectivity_all_created t).
  split; [apply create_connectivity_all_run|].
  unfold connectivity_all_created. fold tdim.
  set (dims := seqZ 0 (tdim + 1)).
  set (t1 := foldl (λ t d, entities_created d t) t dims).
  set (t2 := foldl (λ t d0,
                      foldl (λ t d1, connectivity_created d0 d1 t) t dims)
                   t1 dims).
  assert (Hdims : ∀ d, 0 ≤ d ≤ tdim → d ∈ dims).
  { intros d Hd. apply elem_of_seqZ. lia. }
  assert (Hrow : ∀ t d0, keeps t
            (foldl (λ t d1, connectivity_created d0 d1 t) t dims)).
  { intros t0 d0. apply foldl_keeps. intros.
    apply connectivity_created_keeps. }
  assert (H1 : keeps t t1).
  { apply foldl_keeps. intros. apply entities_created_keeps. }
  assert (H2 : keeps t1 t2) by (by apply foldl_keeps).
  split; [by eapply keeps_trans|]. split.
  - intros d0 d1 Hd0 Hd1. unfold t2.
    apply (foldl_establishes _
             (λ d0 t, ∀ d1, d1 ∈ dims → is_Some (connectivity t d0 d1)));
      [done| |by intros a u u' (_ & Hc & _) Hu b Hb; apply Hc, Hu
       |by apply Hdims|by apply Hdims].
    intros t0 a b Hb.
    apply (foldl_establishes _
             (λ d1 t, is_Some (connectivity t a d1)));
      [intros; apply connectivity_created_keeps
      |intros; apply connectivity_created_present
      |by intros c u u' (_ & Hc & _) Hu; apply Hc|done].
  - intros Hcells Hcounted d Hd.
    assert (Hpresent : is_Some (connectivity t1 d 0)).
    { apply (foldl_establishes _
               (λ d t, is_Some (connectivity t d 0)));
        [intros; apply entities_created_keeps
        |intros; apply entities_created_present
        |by intros c u u' (_ & Hc & _) Hu; apply Hc|by apply Hdims]. }
    assert (Hcounted1 : entities_counted t1)
      by (by apply all_entities_created_counted).
    assert (Hindex : is_Some (index_map t2 d)).
    { destruct H2 as (_ & _ & Hi). by apply Hi, Hcounted1. }
    split; [done|]. intros what. unfold num_entities. simpl.
    destruct Hindex as [map ->].
    by destruct (bool_decide (block_size map = 1)).
Qed.

Section again.
Context {T double : Type} `{!Externals T double}.
Implicit Types (mesh : Mesh double) (t : Topology) (d dim : Z).

Lemma entities_created_again dim t :
  is_Some (connectivity t dim 0) → entities_created dim t = t.
Proof. intros Hc. unfold entities_created. by rewrite decide_True. Qed.

Lemma connectivity_computed_again (d0 d1 : Z) t :
  is_Some (connectivity t d0 d1) → connectivity_computed d0 d1 t = t.
Proof. intros [c Hc]. unfold connectivity_computed. by rewrite Hc. Qed.

Lemma facets_flagged_connectivity (d0 d1 a b : Z) t :
  connectivity (facets_flagged d0 d1 t) a b = connectivity t a b.
Proof. unfold facets_flagged. by case_decide. Qed.

Lemma facets_flagged_again (d0 d1 : Z) t :
  facets_flagged d0 d1 (facets_flagged d0 d1 t) = facets_flagged d0 d1 t.
Proof.
  unfold facets_flagged.
  destruct (decide (d0 = topology_dim t - 1 ∧ d1 = topology_dim t)) as [Hd|Hd].
  - simpl. by rewrite decide_True.
  - by rewrite decide_False.
Qed.

Lemma connectivity_created_again (d0 d1 : Z) t :
  connectivity_created d0 d1 (connectivity_created d0 d1 t)
  = connectivity_created d0 d1 t.
Proof.
  unfold connectivity_created at 1.
  set (t1 := connectivity_created d0 d1 t).
  assert (H0 : is_Some (connectivity t1 d0 0)).
  { unfold t1, connectivity_created.
    apply facets_flagged_keeps, connectivity_computed_keeps,
      entities_created_keeps, entities_created_present. }
  assert (H1 : is_Some (connectivity t1 d1 0)).
  { unfold t1, connectivity_created.
    apply facets_flagged_keeps, connectivity_computed_keeps,
      entities_created_present. }
  rewrite (entities_created_again d0 t1 H0).
  rewrite (entities_created_again d1 t1 H1).
  rewrite connectivity_computed_again
    by apply connectivity_created_present.
  unfold t1, connectivity_created. apply facets_flagged_again.
Qed.

Lemma all_entities_created_again (l : list Z) t :
  (∀ d, d ∈ l → is_Some (connectivity t d 0)) →
  foldl (λ t d, entities_created d t) t l = t.
Proof.
  induction l as [|d l IH]; intros Hl; simpl; [done|].
  rewrite entities_created_again by (apply Hl; by left).
  apply IH. intros; apply Hl. by right.
Qed.

Lemma permutations_created_again t :
  permutations_created (permutations_created t) = permutations_created t.
Proof.
  unfold permutations_created at 1.
  set (t1 := permutations_created t).
  assert (Hdim : topology_dim t1 = topology_dim t)
    by apply permutations_created_dim.
  rewrite Hdim. rewrite all_entities_created_again.
  - unfold t1, permutations_created, topology_create_entity_permutations.
    destruct (topology_permutations (foldl _ t _)) eqn:Hp; simpl.
    + by rewrite Hp.
    + done.
  - intros d Hd. unfold t1, permutations_created.
    assert (Hp : ∀ u a b, connectivity (topology_create_entity_permutations u)
                            a b = connectivity u a b).
    { intros u a b. unfold topology_create_entity_permutations.
      by destruct (topology_permutations u). }
    rewrite Hp.
    apply (foldl_establishes _ (λ d t, is_Some (connectivity t d 0)));
      [intros; apply entities_created_keeps
      |intros; apply entities_created_present
      |by intros c u u' (_ & Hc & _) Hu; apply Hc|done].
Qed.
End again.

(** X19.  [create_connectivity] and [create_entity_permutations] can be
    repeated: a second call right after the first returns and leaves the
    mesh exactly as the first call left it. *)
Theorem create_operations_idempotent {T double : Type}
    `{!Externals T double} (mesh : Mesh double) (d0 d1 : Z) :
  (create_connectivity d0 d1;; create_connectivity d0 d1) mesh
  = create_connectivity d0 d1 mesh
  ∧ (create_entity_permutations;; create_entity_permutations) mesh
    = create_entity_permutations mesh.
Proof.
  split.
  - rewrite bind_run, !create_connectivity_run. simpl.
    by rewrite connectivity_created_again.
  - rewrite bind_run, !create_entity_permutations_run. simpl.
    by rewrite permutations_created_again.
Qed.

(** * The further properties at work *)

(** ** On the function spaces over the two-interval mesh *)

Section mixed_spaces.
Import mixed.

Lemma mixed_root_store_wf : store_wf root_store.
Proof.
  intros a V. unfold root_store. simpl.
  intros [[<- <-]|[_ H]]%lookup_insert_Some; [|by rewrite lookup_empty in H].
  simpl. split; [lia|]. split; [lia|]. split; [lia|].
  intros k w H. by rewrite lookup_empty in H.
Defined.

Lemma mixed_sub_store_wf : store_wf sub_store.
Proof.
  apply store_wf_with_sub_space; [exact mixed_root_store_wf|reflexivity].
Defined.

Lemma mixed_expired_store_wf : store_wf expired_store.
Proof. apply store_wf_expire. exact mixed_sub_store_wf. Defined.
End mixed_spaces.

Lemma contains_preorder_witness :
  contains mixed.root_space
    (sub_space_of (sub_space_of mixed.root_space [1] [1] [1] 1) [0]
       [1; 0] [1; 0] 2)
  = inr true.
Proof.
  apply (proj1 (proj2 (contains_preorder mixed.root_space
                         (sub_space_of mixed.root_space [1] [1] [1] 1) _)));
    reflexivity.
Defined.

Lemma sub_returns_subspace_witness :
  ∃ W, spaces mixed.sub_store !! 1%nat = Some W
       ∧ _root_space_id W = 0
       ∧ contains mixed.root_space W = inr true.
Proof.
  destruct (sub_returns_subspace 0%nat [1] mixed.root_store mixed.sub_store
              mixed.root_space 1%nat)
    as (_ & (W & HW & _ & Hroot & Hcontains) & _).
  - exact mixed_root_store_wf.
  - reflexivity.
  - reflexivity.
  - exists W. split; [exact HW|]. split; [exact Hroot|exact Hcontains].
Defined.

Lemma sub_failure_changes_nothing_witness :
  (sub 0%nat [5] mixed.root_store).2 = mixed.root_store.
Proof.
  apply (proj1 (sub_failure_changes_nothing 0%nat [5] mixed.root_store)
           (runtime_error "no such sub-element")).
  reflexivity.
Defined.

Lemma sub_root_cached_witness :
  sub 0%nat [1] mixed.sub_store = (inr 1%nat, mixed.sub_store).
Proof.
  apply (sub_root_cached 0%nat [1] mixed.root_store mixed.sub_store
           mixed.root_space 1%nat).
  - exact mixed_root_store_wf.
  - reflexivity.
  - reflexivity.
  - intros w0 H. discriminate H.
  - reflexivity.
Defined.

Lemma sub_expired_entry_stays_witness :
  ∃ s'', sub 0%nat [1] (sub 0%nat [1] mixed.expired_store).2
         = (inr 3%nat, s'')
         ∧ is_Some (spaces s'' !! 2%nat).
Proof.
  destruct (sub_expired_entry_stays 0%nat [1] mixed.expired_store
              (sub 0%nat [1] mixed.expired_store).2
              (cache_subspace [1] 1%nat mixed.root_space) 1%nat 2%nat)
    as (_ & _ & _ & _ & s'' & Hsub & Hlive & _).
  - exact mixed_expired_store_wf.
  - reflexivity.
  - reflexivity.
  - reflexivity.
  - reflexivity.
  - exists s''. split; [exact Hsub|exact Hlive].
Defined.

Lemma sub_of_subspace_not_cached_witness :
  ∃ w' s'' W W',
    sub 1%nat [0] (sub 1%nat [0] mixed.sub_store).2 = (inr w', s'')
    ∧ w' ≠ 2%nat
    ∧ spaces s'' !! 2%nat = Some W ∧ spaces s'' !! w' = Some W'
    ∧ _component W = [1; 0] ∧ _component W' = [1; 0].
Proof.
  destruct (sub_of_subspace_not_cached 1%nat [0] mixed.sub_store
              (sub 1%nat [0] mixed.sub_store).2
              (sub_space_of mixed.root_space [1] [1] [1] 1) 2%nat)
    as (w' & s'' & W & W' & Hsub & Hne & HW & HW' & Hc & Hc' & _).
  - exact mixed_sub_store_wf.
  - reflexivity.
  - discriminate.
  - reflexivity.
  - reflexivity.
  - exists w', s'', W, W'. repeat split; assumption.
Defined.

Lemma sub_of_subspace_wrong_hit_witness :
  sub 1%nat [1; 0] (sub 1%nat [0] mixed.sub_store).2
  = (inr 2%nat, (sub 1%nat [0] mixed.sub_store).2).
Proof.
  apply (sub_of_subspace_wrong_hit 1%nat [0] mixed.sub_store
           (sub 1%nat [0] mixed.sub_store).2
           (sub_space_of mixed.root_space [1] [1] [1] 1) 2%nat).
  - exact mixed_sub_store_wf.
  - reflexivity.
  - discriminate.
  - reflexivity.
  - reflexivity.
  - reflexivity.
Defined.

Lemma collapse_detaches_witness :
  ∃ W, spaces (collapse 1%nat mixed.sub_store).2 !! 2%nat = Some W
       ∧ _component W = [] ∧ _root_space_id W = _id W
       ∧ contains W (sub_space_of mixed.root_space [1] [1] [1] 1)
         = inr false.
Proof.
  destruct (proj2 (collapse_detaches 1%nat mixed.sub_store
                     (sub_space_of mixed.root_space [1] [1] [1] 1)
                     mixed_sub_store_wf eq_refl)
              2%nat [0; 1; 2] (collapse 1%nat mixed.sub_store).2)
    as (_ & _ & _ & W & HW & _ & _ & Hc & Hr & _ & Hn & _).
  - reflexivity.
  - exists W. repeat split; assumption.
Defined.


(** ** On the two-interval mesh *)

Lemma exterior_facet_kernel_calls_witness :
  (assemble_exterior_facets [0; 2] interval.add_bitmask interval.coeffs [3]
     interval.fresh_state).1 = inr 14.
Proof.
  destruct (exterior_facet_kernel_calls interval.fresh_state [0; 2]
              interval.add_bitmask interval.coeffs [3]
              interval.vertex_cell interval.cell_vertex 2)
    as (calls & Hspec & ->).
  - exact interval_facet_to_cell.
  - exact interval_cell_to_facet.
  - exact interval_num_dofs.
  - exact interval_geometry_dim.
  - cbv zeta. rewrite interval_facet_topology. simpl.
    constructor; [|constructor; [|constructor]].
    + split; [lia|]. exists 0. split; [reflexivity|].
      split; [apply interval_facet_of_cell; lia|].
      split; [apply interval_cell_data_readable; lia|simpl; lia].
    + split; [lia|]. exists 1. split; [reflexivity|].
      split; [apply interval_facet_of_cell; lia|].
      split; [apply interval_cell_data_readable; lia|simpl; lia].
  - cbv zeta in *. rewrite interval_facet_topology in Hspec. simpl in *.
    apply Forall2_cons_inv_l in Hspec as (a0 & calls0 & Ha0 & Hspec & ->).
    apply Forall2_cons_inv_l in Hspec as (a1 & calls1 & Ha1 & Hnil & ->).
    apply Forall2_nil_inv_l in Hnil as ->.
    destruct Ha0 as (cell0 & facets0 & x_dofs0 & perm0 & Hl0 & _ & _ & _ & _
                     & _ & _ & _ & _ & _ & Hinfo0).
    destruct Ha1 as (cell1 & facets1 & x_dofs1 & perm1 & Hl1 & _ & _ & _ & _
                     & _ & _ & _ & _ & _ & Hinfo1).
    injection Hl0 as <-. injection Hl1 as <-.
    injection Hinfo0 as Hinfo0. injection Hinfo1 as Hinfo1.
    simpl. unfold interval.add_bitmask. by rewrite <- Hinfo0, <- Hinfo1.
Defined.

Lemma interior_offsets_checked_witness :
  assemble_interior_facets [1] interval.add_bitmask interval.coeffs [0; 2]
    [3] interval.fresh_state
  = (inl (assertion_failed "offsets.back() == coeffs.cols()"),
     mkState (mkMesh (facet_topology interval.fresh_topology)
                     interval.the_geometry) []).
Proof.
  apply (proj2 (interior_offsets_checked interval.fresh_state [1]
                  interval.add_bitmask interval.coeffs [0; 2] [3] 2
                  interval_num_dofs interval_geometry_dim) 2).
  - reflexivity.
  - lia.
  - simpl. lia.
Defined.

Lemma assemblers_read_cell_zero_witness :
  (assemble_cells [] interval.add_seven interval.coeffs [3]
     (mkState interval.empty_mesh [])).1 = inl undefined_behaviour.
Proof.
  apply (assemblers_read_cell_zero (mkState interval.empty_mesh []) []
           interval.add_seven interval.coeffs interval.offsets [3]).
  reflexivity.
Defined.

Lemma assemble_scalar_only_adds_witness :
  connectivity
    (topology (st_mesh (assemble_scalar interval.the_form
                          interval.fresh_state).2)) 1 0
  = Some interval.cell_vertex.
Proof.
  apply (assemble_scalar_only_adds interval.the_form interval.fresh_state
           interval_cache_consistent).
  reflexivity.
Defined.

Lemma assemble_scalar_sums_integrals_witness :
  sum_from interval.fresh_state zero
    (integral_runs interval.the_form
       (concat (omap snd (constants interval.the_form))))
  = inr 33.
Proof.
  rewrite <- (assemble_scalar_sums_integrals interval.the_form
                interval.fresh_state interval_cache_consistent).
  - vm_compute. reflexivity.
  - repeat constructor. simpl. eauto.
Defined.

Lemma hash_injective_without_overflow_witness :
  topology_dim interval.fresh_topology = 1
  ∧ geometry_dim interval.the_geometry = 1.
Proof.
  apply (hash_injective_without_overflow 64 topology_dim geometry_dim id
           interval.fresh_mesh interval.blocked_mesh).
  - unfold pairing_fits. simpl. lia.
  - unfold pairing_fits. simpl. lia.
  - reflexivity.
Defined.

Lemma kernel_argument_shapes_witness :
  ∃ calls,
    st_calls (assemble_cells [0; 1] interval.add_seven interval.coeffs [3]
                interval.fresh_state).2 = [] ++ calls
    ∧ 14 = foldl interval.add_seven zero calls
    ∧ length calls = 2%nat
    ∧ Forall (call_shape 2 1 0 [3]) calls.
Proof.
  apply (proj1 (kernel_argument_shapes interval.fresh_state [0; 1]
                  interval.add_seven interval.coeffs interval.offsets [3] 2
                  interval_num_dofs) 14).
  vm_compute. reflexivity.
Defined.

Lemma interior_facet_coordinates_witness :
  ∃ a, st_calls (assemble_interior_facets [1] interval.add_bitmask
                   interval.coeffs interval.offsets [3]
                   interval.fresh_state).2 = [a]
       ∧ call_coordinate_dofs a = [[0]; [1]; [1]; [2]].
Proof.
  destruct (interior_facet_coordinates interval.fresh_state [1]
              interval.add_bitmask interval.coeffs interval.offsets [3]
              interval.vertex_cell interval.cell_vertex 2)
    as (calls & Hspec & ->).
  - exact interval_facet_to_cell.
  - exact interval_cell_to_facet.
  - exact interval_num_dofs.
  - exact interval_geometry_dim.
  - exact interval_offsets_wf.
  - repeat constructor.
  - cbv zeta. rewrite interval_facet_topology. simpl.
    constructor; [|constructor]. split; [lia|].
    exists 0, 1. split; [reflexivity|].
    split; [apply interval_facet_of_cell; lia|].
    split; [apply interval_facet_of_cell; lia|].
    split; [split; [apply interval_cell_data_readable; lia|simpl; lia]|].
    apply interval_cell_data_readable; lia.
  - cbv zeta in *.
    apply Forall2_cons_inv_l in Hspec as (a & calls' & Ha & Hnil & ->).
    apply Forall2_nil_inv_l in Hnil as ->.
    exists a. split; [reflexivity|].
    destruct Ha as (cell0 & cell1 & x_dofs0 & x_dofs1 & rows0 & rows1
                    & Hl & Hx0 & Hx1 & Hr0 & Hr1 & _ & ->).
    injection Hl as <- <-. injection Hx0 as <-. injection Hx1 as <-.
    injection Hr0 as <-. injection Hr1 as <-. reflexivity.
Defined.

Lemma local_facet_index_first_witness :
  ∃ i : nat, local_facet_index interval.cell_vertex 2 1 = inr (Z.of_nat i)
             ∧ [1; 2] !! i = Some 2
             ∧ ∀ j : nat, (j < i)%nat → [1; 2] !! j ≠ Some 2.
Proof.
  apply (proj1 (local_facet_index_first interval.cell_vertex 2 1 [1; 2]
                  eq_refl)).
  apply list_elem_of_In. simpl. tauto.
Defined.

Lemma tabulate_dof_coordinates_rows_witness :
  [1; 0; 0] = replicate 3 (dzero (double := Z))
  ∨ ∃ mesh element V_dofmap map num_dofs_g c,
      _mesh mixed.root_space = Some mesh
      ∧ _element mixed.root_space = Some element
      ∧ _dofmap mixed.root_space = Some V_dofmap
      ∧ index_map (topology mesh) (topology_dim (topology mesh)) = Some map
      ∧ num_links (dofmap (geometry mesh)) 0 = inr num_dofs_g
      ∧ 0 ≤ c < size_local map + num_ghosts map
      ∧ tabulated_for (geometry mesh) num_dofs_g
          (dof_reference_coordinates element) V_dofmap c 1 [1; 0; 0].
Proof.
  apply (tabulate_dof_coordinates_rows mixed.root_space
           [[0; 0; 0]; [1; 0; 0]; [2; 0; 0]] 1 [1; 0; 0]).
  - reflexivity.
  - lia.
  - reflexivity.
Defined.

Lemma assemble_scalar_constants_witness :
  assemble_scalar interval.unset_form interval.fresh_state
  = (inl (runtime_error "Unset constant in Form"), interval.fresh_state)
  ∧ ∃ cells exterior interior : list (list (call Z Z)),
      st_calls (assemble_scalar interval.the_form interval.fresh_state).2
      = st_calls interval.fresh_state
        ++ concat cells ++ concat exterior ++ concat interior
      ∧ Forall2 (entities_visited
                   (concat (omap snd (constants interval.the_form))))
                (cell_integrals interval.the_form) cells
      ∧ Forall2 (entities_visited
                   (concat (omap snd (constants interval.the_form))))
                (exterior_facet_integrals interval.the_form) exterior
      ∧ Forall2 (entities_visited
                   (concat (omap snd (constants interval.the_form))))
                (interior_facet_integrals interval.the_form) interior
      ∧ 33 = integrals_added
               (integrals_added
                  (integrals_added zero (cell_integrals interval.the_form)
                     cells)
                  (exterior_facet_integrals interval.the_form) exterior)
               (interior_facet_integrals interval.the_form) interior.
Proof.
  split.
  - apply (proj1 (assemble_scalar_constants interval.unset_form
                    interval.fresh_state)).
    exists "c"%string. by left.
  - destruct (proj2 (assemble_scalar_constants interval.the_form
                       interval.fresh_state)) as [Hreturn _].
    { repeat constructor. simpl. eauto. }
    apply (Hreturn 33
             (assemble_scalar interval.the_form interval.fresh_state).2).
    vm_compute. reflexivity.
Defined.
